(** * custom::list (list.h): a shallow embedding and its verification

    The container of [list.h] is a doubly-linked chain of heap-allocated
    [Node]s owned by a [list] object holding [numElements], [pHead] and
    [pTail].  The embedding keeps the pointer structure: memory is a store
    of Nodes, of free-standing [T] objects and of list objects, every
    member function is a state transformer over that store, written
    statement by statement after the C++ body. *)

From stdpp Require Import gmap list fin_maps fin_sets.
From Stdlib Require Import ZArith Lia.

Local Open Scope Z_scope.

Set Warnings "-clear-no-such-hyp".

(** ** Memory *)

(** A non-null address; [nullptr] is [None]. *)
Definition loc := positive.
Definition ptr := option loc.

(** [size_t] is taken to be 64 bits wide; arithmetic on it wraps. *)
Definition SIZE_BITS : Z := 64.
Definition SIZE_MOD : Z := 2 ^ SIZE_BITS.
Definition size_wrap (z : Z) : Z := z mod SIZE_MOD.

(** The free store holds fewer than [SIZE_MOD] objects at a time (they
    occupy distinct non-null addresses); past that [new] throws
    [std::bad_alloc]. *)
Definition HEAP_LIMIT : Z := SIZE_MOD - 1.

Section Types.

Variable T : Type.

(** class list<T,A>::Node *)
Record Node := mkNode { data : T; pNext : ptr; pPrev : ptr }.

(** The data members of class list<T,A>.  The member [alloc] is never
    used to obtain storage (every Node comes from [new]) and
    [std::allocator] carries no state, so it is not represented. *)
Record list_obj := mkList { numElements : Z; pHead : ptr; pTail : ptr }.

(** Pointers are typed, so the store keeps each kind of object in a map
    of its own, and an address names an object within its kind. *)
Record mem := mkMem {
  nodes : gmap loc Node;      (* Nodes obtained by [new Node(..)] *)
  objs  : gmap loc T;         (* objects obtained by [new T] *)
  lists : gmap loc list_obj   (* the list objects themselves *)
}.

(** ** Outcomes of a call *)

Inductive outcome (A : Type) : Type :=
| Ok (a : A) (m : mem)   (* normal return *)
| Throw (m : mem)        (* std::bad_alloc propagates; [m] is the store at the throw *)
| Undefined              (* null or dangling dereference, double delete *)
| Diverge.               (* the fuel of a loop or recursion ran out *)

End Types.

Arguments mkNode {T} data pNext pPrev.
Arguments data {T} n.
Arguments pNext {T} n.
Arguments pPrev {T} n.
Arguments mkMem {T} nodes objs lists.
Arguments nodes {T} m.
Arguments objs {T} m.
Arguments lists {T} m.
Arguments Ok {T A} a m.
Arguments Throw {T A} m.
Arguments Undefined {T A}.
Arguments Diverge {T A}.

Section Model.

Context {T : Type}.
(** The value of a default-constructed [T] ([T()], [new T]). *)
Variable T_default : T.

Definition heap_cells (m : mem T) : Z :=
  Z.of_nat (size (nodes m)) + Z.of_nat (size (objs m)).

(** ** The state monad of member functions *)

Definition M (A : Type) : Type := mem T -> outcome T A.

Definition ret {A} (a : A) : M A := fun m => Ok a m.

Definition bind {A B} (c : M A) (k : A -> M B) : M B :=
  fun m => match c m with
           | Ok a m' => k a m'
           | Throw m' => Throw m'
           | Undefined => Undefined
           | Diverge => Diverge
           end.

Definition undefined {A} : M A := fun _ => Undefined.
Definition diverge {A} : M A := fun _ => Diverge.

Declare Scope M_scope.
Delimit Scope M_scope with M.
Bind Scope M_scope with M.
Notation "x <- c ;; k" := (bind c (fun x => k))
  (at level 100, c at next level, right associativity) : M_scope.
Notation "c ;; k" := (bind c (fun _ => k))
  (at level 100, k at level 200, right associativity) : M_scope.
Local Open Scope M_scope.

(** *** Primitive accesses *)

(** [new Node(..)]: a fresh address, or [std::bad_alloc]. *)
Definition new_node (nd : Node T) : M loc := fun m =>
  if heap_cells m <? HEAP_LIMIT then
    let a := fresh (dom (nodes m)) in
    Ok a (mkMem (<[a := nd]> (nodes m)) (objs m) (lists m))
  else Throw m.

(** [new T] *)
Definition new_obj (t : T) : M loc := fun m =>
  if heap_cells m <? HEAP_LIMIT then
    let a := fresh (dom (objs m)) in
    Ok a (mkMem (nodes m) (<[a := t]> (objs m)) (lists m))
  else Throw m.

(** [delete p] for a [Node* p]; deleting [nullptr] does nothing. *)
Definition delete_node (p : ptr) : M unit := fun m =>
  match p with
  | None => Ok tt m
  | Some a =>
      match nodes m !! a with
      | Some _ => Ok tt (mkMem (delete a (nodes m)) (objs m) (lists m))
      | None => Undefined
      end
  end.

(** [*p] for a [Node* p] *)
Definition node_at (p : ptr) : M (Node T) := fun m =>
  match p with
  | None => Undefined
  | Some a => match nodes m !! a with
              | Some nd => Ok nd m
              | None => Undefined
              end
  end.

Definition put_node (p : ptr) (nd : Node T) : M unit := fun m =>
  match p with
  | None => Undefined
  | Some a => Ok tt (mkMem (<[a := nd]> (nodes m)) (objs m) (lists m))
  end.

(** [p->data], [p->pNext], [p->pPrev] read and written *)
Definition get_data (p : ptr) : M T := nd <- node_at p ;; ret (data nd).
Definition get_next (p : ptr) : M ptr := nd <- node_at p ;; ret (pNext nd).
Definition get_prev (p : ptr) : M ptr := nd <- node_at p ;; ret (pPrev nd).
Definition set_next (p q : ptr) : M unit :=
  nd <- node_at p ;; put_node p (mkNode (data nd) q (pPrev nd)).
Definition set_prev (p q : ptr) : M unit :=
  nd <- node_at p ;; put_node p (mkNode (data nd) (pNext nd) q).

(** [*this] for a list object *)
Definition list_at (this : loc) : M list_obj := fun m =>
  match lists m !! this with
  | Some L => Ok L m
  | None => Undefined
  end.

Definition put_list (this : loc) (L : list_obj) : M unit := fun m =>
  Ok tt (mkMem (nodes m) (objs m) (<[this := L]> (lists m))).

Definition get_numElements (this : loc) : M Z := L <- list_at this ;; ret (numElements L).
Definition get_pHead (this : loc) : M ptr := L <- list_at this ;; ret (pHead L).
Definition get_pTail (this : loc) : M ptr := L <- list_at this ;; ret (pTail L).
Definition set_numElements (this : loc) (n : Z) : M unit :=
  L <- list_at this ;; put_list this (mkList n (pHead L) (pTail L)).
Definition set_pHead (this : loc) (p : ptr) : M unit :=
  L <- list_at this ;; put_list this (mkList (numElements L) p (pTail L)).
Definition set_pTail (this : loc) (p : ptr) : M unit :=
  L <- list_at this ;; put_list this (mkList (numElements L) (pHead L) p).

(** [numElements++] and [numElements--] on a [size_t] *)
Definition incr_numElements (this : loc) : M unit :=
  n <- get_numElements this ;; set_numElements this (size_wrap (n + 1)).
Definition decr_numElements (this : loc) : M unit :=
  n <- get_numElements this ;; set_numElements this (size_wrap (n - 1)).

(** ** class list<T,A>::iterator *)

(** An iterator is its private member [p]. *)
Definition iterator := ptr.

Definition it_eq (a b : iterator) : bool := bool_decide (a = b).   (* operator == *)
Definition it_neq (a b : iterator) : bool := negb (it_eq a b).     (* operator != *)
(** ++it, --it: [p = p->pNext], [p = p->pPrev] *)
Definition it_incr (it : iterator) : M iterator := get_next it.
Definition it_decr (it : iterator) : M iterator := get_prev it.

(** A [T&]: the [data] member of a Node, or an object made by [new T]. *)
Inductive ref : Type :=
| Ref_data (a : loc)
| Ref_obj (a : loc).

(** operator *: [return p->data;] *)
Definition it_deref (it : iterator) : M ref :=
  _ <- node_at it ;;
  match it with
  | Some a => ret (Ref_data a)
  | None => undefined
  end.

(** Reading through a [T&]. *)
Definition read_ref (r : ref) : M T := fun m =>
  match r with
  | Ref_data a => match nodes m !! a with
                  | Some nd => Ok (data nd) m
                  | None => Undefined
                  end
  | Ref_obj a => match objs m !! a with
                 | Some t => Ok t m
                 | None => Undefined
                 end
  end.

(** ** Member functions of list *)

Definition begin (this : loc) : M iterator := get_pHead this.
Definition rbegin (this : loc) : M iterator := get_pTail this.
Definition end_ (this : loc) : M iterator := ret None.

(** [bool empty() const { return pHead == nullptr; }] *)
Definition empty (this : loc) : M bool :=
  h <- get_pHead this ;; ret (bool_decide (h = None)).

(** [size_t size() const { return numElements; }] *)
Definition size_ (this : loc) : M Z := get_numElements this.

(** *** push_back, push_front (the [const T&] and the [T&&] overloads)

    Values are modelled by their contents, so copying and moving [data]
    into the new Node build the same Node; the two overloads have the
    same statements in the source and the same model. *)

Definition push_back (this : loc) (d : T) : M unit :=
  pNew <- new_node (mkNode d None None) ;;
  t <- get_pTail this ;;
  (if bool_decide (t <> None) then
     set_next t (Some pNew) ;;
     t <- get_pTail this ;;
     set_prev (Some pNew) t ;;
     set_pTail this (Some pNew)
   else
     set_pTail this (Some pNew) ;;
     t <- get_pTail this ;;
     set_pHead this t) ;;
  incr_numElements this.

Definition push_back_move (this : loc) (d : T) : M unit := push_back this d.

Definition push_front (this : loc) (d : T) : M unit :=
  pNew <- new_node (mkNode d None None) ;;
  h <- get_pHead this ;;
  (if bool_decide (h <> None) then
     set_prev h (Some pNew) ;;
     h <- get_pHead this ;;
     set_next (Some pNew) h ;;
     set_pHead this (Some pNew)
   else
     set_pTail this (Some pNew) ;;
     t <- get_pTail this ;;
     set_pHead this t) ;;
  incr_numElements this.

Definition push_front_move (this : loc) (d : T) : M unit := push_front this d.

(** *** pop_back, pop_front *)

Definition pop_back (this : loc) : M unit :=
  t <- get_pTail this ;;
  if bool_decide (t <> None) then
    let pDelete := t in
    pv <- get_prev t ;;
    set_pTail this pv ;;
    t <- get_pTail this ;;
    (if bool_decide (t <> None) then set_next t None
     else set_pHead this None) ;;
    delete_node pDelete ;;
    decr_numElements this
  else ret tt.

Definition pop_front (this : loc) : M unit :=
  h <- get_pHead this ;;
  if bool_decide (h <> None) then
    let pDelete := h in
    nx <- get_next h ;;
    set_pHead this nx ;;
    h <- get_pHead this ;;
    (if bool_decide (h <> None) then set_prev h None
     else set_pTail this None) ;;
    delete_node pDelete ;;
    decr_numElements this
  else ret tt.

(** *** clear

    [while (pHead != nullptr)]: one unit of fuel per iteration. *)

Fixpoint clear_loop (fuel : nat) (this : loc) : M unit :=
  h <- get_pHead this ;;
  if bool_decide (h <> None) then
    match fuel with
    | O => diverge
    | S fuel' =>
        let pDelete := h in
        nx <- get_next h ;;
        set_pHead this nx ;;
        delete_node pDelete ;;
        clear_loop fuel' this
    end
  else ret tt.

Definition clear (fuel : nat) (this : loc) : M unit :=
  clear_loop fuel this ;;
  set_pTail this None ;;
  set_numElements this 0.

(** *** front, back *)

Definition front (this : loc) : M ref :=
  n <- get_numElements this ;;
  if bool_decide (n <> 0) then
    h <- get_pHead this ;;
    it_deref h
  else
    a <- new_obj T_default ;; ret (Ref_obj a).

Definition back (this : loc) : M ref :=
  n <- get_numElements this ;;
  if bool_decide (n <> 0) then
    t <- get_pTail this ;;
    it_deref t
  else
    a <- new_obj T_default ;; ret (Ref_obj a).

(** *** erase *)

Definition erase (this : loc) (it : iterator) : M iterator :=
  let pDelete := it in
  if bool_decide (pDelete = None) then end_ this
  else
    pv <- get_prev pDelete ;;
    (if bool_decide (pv <> None) then
       nx <- get_next pDelete ;; set_next pv nx
     else
       nx <- get_next pDelete ;; set_pHead this nx) ;;
    nx <- get_next pDelete ;;
    (if bool_decide (nx <> None) then
       pv <- get_prev pDelete ;; set_prev nx pv
     else
       pv <- get_prev pDelete ;; set_pTail this pv) ;;
    next <- get_next pDelete ;;
    delete_node pDelete ;;
    decr_numElements this ;;
    ret next.

(** *** insert

    The [const T&] overload. *)

Definition insert (this : loc) (it : iterator) (d : T) : M iterator :=
  pNew <- new_node (mkNode d None None) ;;
  e <- empty this ;;
  if e then
    set_pTail this (Some pNew) ;;
    t <- get_pTail this ;;
    set_pHead this t ;;
    set_numElements this 1 ;;
    begin this
  else
    e1 <- end_ this ;;
    if it_eq it e1 then
      t <- get_pTail this ;;
      set_next t (Some pNew) ;;
      t <- get_pTail this ;;
      set_prev (Some pNew) t ;;
      set_pTail this (Some pNew) ;;
      incr_numElements this ;;
      ret (Some pNew)
    else
      e2 <- end_ this ;;
      if it_neq it e2 then
        pv <- get_prev it ;;
        set_prev (Some pNew) pv ;;
        set_next (Some pNew) it ;;
        pv <- get_prev (Some pNew) ;;
        (if bool_decide (pv <> None) then set_next pv (Some pNew)
         else set_pHead this (Some pNew)) ;;
        nx <- get_next (Some pNew) ;;
        (if bool_decide (nx <> None) then set_prev nx (Some pNew)
         else set_pTail this (Some pNew)) ;;
        incr_numElements this ;;
        ret (Some pNew)
      else end_ this.

(** The [T&&] overload: its body is [return end();]. *)
Definition insert_move (this : loc) (it : iterator) (d : T) : M iterator :=
  end_ this.

(** *** swap

    The member: [void swap(list& rhs) {}]. *)
Definition swap_member (this rhs : loc) : M unit := ret tt.

(** The free function: [lhs.numElements = 99;]. *)
Definition swap (lhs rhs : loc) : M unit := set_numElements lhs 99.

(** ** Constructors

    A constructor runs on the storage [this] of the new object: the
    member initialisers first, then the body. *)

Definition list_default (this : loc) : M unit :=
  put_list this (mkList 0 None None).

(** [while (pCurrent != nullptr) { push_back(pCurrent->data); pCurrent = pCurrent->pNext; }],
    shared by the copy constructor and copy assignment. *)
Fixpoint copy_loop (fuel : nat) (this : loc) (pCurrent : ptr) : M unit :=
  if bool_decide (pCurrent <> None) then
    match fuel with
    | O => diverge
    | S fuel' =>
        d <- get_data pCurrent ;;
        push_back this d ;;
        nx <- get_next pCurrent ;;
        copy_loop fuel' this nx
    end
  else ret tt.

(** list(list& rhs) *)
Definition list_copy (fuel : nat) (this rhs : loc) : M unit :=
  put_list this (mkList 0 None None) ;;
  h <- get_pHead rhs ;;
  if bool_decide (h <> None) then
    pCurrent <- get_pHead rhs ;;
    copy_loop fuel this pCurrent
  else ret tt.

(** list(list&& rhs) *)
Definition list_move (this rhs : loc) : M unit :=
  n <- get_numElements rhs ;;
  h <- get_pHead rhs ;;
  t <- get_pTail rhs ;;
  put_list this (mkList n h t) ;;
  set_pTail rhs None ;;
  t' <- get_pTail rhs ;;
  set_pHead rhs t' ;;
  set_numElements rhs 0.

(** [for (const T& item : il) push_back(item);], also the loop of the
    iterator-range constructor, whose range is given by the elements it
    yields. *)
Fixpoint push_back_all (this : loc) (il : list T) : M unit :=
  match il with
  | [] => ret tt
  | item :: il' => push_back this item ;; push_back_all this il'
  end.

(** list(const std::initializer_list<T>& il) *)
Definition list_il (this : loc) (il : list T) : M unit :=
  put_list this (mkList 0 None None) ;;
  push_back_all this il.

(** list(Iterator first, Iterator last) *)
Definition list_range (this : loc) (range : list T) : M unit :=
  put_list this (mkList 0 None None) ;;
  push_back_all this range.

(** The loop of list(size_t num, const T& t), [for (i = 1; i < num; ++i)],
    by the number of iterations left. *)
Fixpoint fill_loop (iters : nat) (t : T) (pCurrent : ptr) : M ptr :=
  match iters with
  | O => ret pCurrent
  | S iters' =>
      pNew <- new_node (mkNode t None None) ;;
      set_next pCurrent (Some pNew) ;;
      set_prev (Some pNew) pCurrent ;;
      fill_loop iters' t (Some pNew)
  end.

(** list(size_t num, const T& t) *)
Definition list_fill (this : loc) (num : Z) (t : T) : M unit :=
  put_list this (mkList 0 None None) ;;
  if bool_decide (num > 0) then
    h <- new_node (mkNode t None None) ;;
    set_pHead this (Some h) ;;
    pCurrent <- get_pHead this ;;
    pCurrent <- fill_loop (Z.to_nat (num - 1)) t pCurrent ;;
    set_pTail this pCurrent ;;
    set_numElements this num
  else ret tt.

(** The loop of list(size_t num). *)
Fixpoint default_fill_loop (iters : nat) (pPrevious pNew : ptr) : M ptr :=
  match iters with
  | O => ret pNew
  | S iters' =>
      pNew <- new_node (mkNode T_default None None) ;;
      set_prev (Some pNew) pPrevious ;;
      pv <- get_prev (Some pNew) ;;
      set_next pv (Some pNew) ;;
      default_fill_loop iters' (Some pNew) (Some pNew)
  end.

(** list(size_t num) *)
Definition list_default_fill (this : loc) (num : Z) : M unit :=
  put_list this (mkList 0 None None) ;;
  if bool_decide (num <> 0) then
    pNew <- new_node (mkNode T_default None None) ;;
    set_pHead this (Some pNew) ;;
    h <- get_pHead this ;;
    set_prev h None ;;
    pNew <- default_fill_loop (Z.to_nat (num - 1)) (Some pNew) (Some pNew) ;;
    set_next pNew None ;;
    set_pTail this pNew ;;
    set_numElements this num
  else ret tt.

(** ** Assignment *)

(** operator=(list&& rhs): [*this = std::move(rhs); return *this;].
    The assignment in the body is this operator again; one unit of fuel
    per call. *)
Fixpoint assign_move (fuel : nat) (this rhs : loc) : M loc :=
  match fuel with
  | O => diverge
  | S fuel' =>
      _ <- assign_move fuel' this rhs ;;
      ret this
  end.

(** operator=(list& rhs) *)
Definition assign_copy (fuel : nat) (this rhs : loc) : M loc :=
  (if bool_decide (this <> rhs) then
     clear fuel this ;;
     pCurrent <- get_pHead rhs ;;
     copy_loop fuel this pCurrent
   else ret tt) ;;
  ret this.

(** operator=(const std::initializer_list<T>& rhs): [return *this;] *)
Definition assign_il (this : loc) (il : list T) : M loc := ret this.

End Model.

(** ** Observing a list *)

(** The Nodes met from [p] by following [step] ([pNext] or [pPrev]) until
    [nullptr]; [None] when the walk meets a dangling pointer or does not
    end within [fuel] Nodes. *)
Fixpoint walk {T} (step : Node T -> ptr) (fuel : nat) (h : gmap loc (Node T))
    (p : ptr) : option (list loc) :=
  match p with
  | None => Some []
  | Some a =>
      match fuel with
      | O => None
      | S fuel' =>
          match h !! a with
          | Some nd =>
              match walk step fuel' h (step nd) with
              | Some ls => Some (a :: ls)
              | None => None
              end
          | None => None
          end
      end
  end.

(** A walk that ends visits each Node once, so a fuel above the number of
    allocated Nodes is enough for every walk that ends. *)
Definition nodes_from {T} (step : Node T -> ptr) (h : gmap loc (Node T)) (p : ptr)
    : option (list loc) :=
  walk step (S (size h)) h p.

(** The elements held by the Nodes at [ls]. *)
Fixpoint values_at {T} (h : gmap loc (Node T)) (ls : list loc) : option (list T) :=
  match ls with
  | [] => Some []
  | a :: ls' =>
      match h !! a with
      | Some nd =>
          match values_at h ls' with
          | Some vs => Some (data nd :: vs)
          | None => None
          end
      | None => None
      end
  end.

(** The element sequence of the list object at [this], front to back. *)
Definition contents {T} (m : mem T) (this : loc) : option (list T) :=
  match lists m !! this with
  | Some L =>
      match nodes_from pNext (nodes m) (pHead L) with
      | Some ls => values_at (nodes m) ls
      | None => None
      end
  | None => None
  end.

(** ** The representation invariant *)

(** [cs] lists the Nodes of a chain in order, each with its element. *)
Definition chain (T : Type) : Type := list (loc * T).

Definition first_ptr {T} (cs : chain T) (dflt : ptr) : ptr :=
  match cs with
  | [] => dflt
  | c :: _ => Some c.1
  end.

Definition last_ptr {T} (cs : chain T) (dflt : ptr) : ptr :=
  match last cs with
  | Some c => Some c.1
  | None => dflt
  end.

(** The Nodes of [cs] are linked in both directions; the first one's
    [pPrev] is [prev] and the last one's [pNext] is [nxt]. *)
Fixpoint dlseg {T} (h : gmap loc (Node T)) (prev : ptr) (cs : chain T) (nxt : ptr)
    : Prop :=
  match cs with
  | [] => True
  | c :: r =>
      h !! c.1 = Some (mkNode c.2 (first_ptr r nxt) prev) /\
      dlseg h (Some c.1) r nxt
  end.

(** The list object at [this] owns exactly the chain [cs]. *)
Record repr {T} (m : mem T) (this : loc) (cs : chain T) : Prop := mkRepr {
  repr_obj : lists m !! this =
             Some (mkList (Z.of_nat (length cs)) (first_ptr cs None) (last_ptr cs None));
  repr_nodup : NoDup cs.*1;
  repr_chain : dlseg (nodes m) None cs None;
  (* [numElements] is a [size_t] *)
  repr_range : Z.of_nat (length cs) < SIZE_MOD
}.

(** ** The structural invariants, as they are observed

    What walking the links of a list object [L] shows: [fw] are the Nodes
    met from [pHead] along [pNext], [bw] those met from [pTail] along
    [pPrev]. *)
Record observed {T} (h : gmap loc (Node T)) (L : list_obj) (fw bw : list loc)
    : Prop := mkObserved {
  obs_walk_next : nodes_from pNext h (pHead L) = Some fw;
  obs_walk_prev : nodes_from pPrev h (pTail L) = Some bw;
  (* size() is the number of Nodes met, in either direction *)
  obs_size_next : numElements L = Z.of_nat (length fw);
  obs_size_prev : numElements L = Z.of_nat (length bw);
  obs_reverse : bw = reverse fw;
  (* head is none iff tail is none iff count is 0 *)
  obs_head_tail : pHead L = None <-> pTail L = None;
  obs_tail_count : pTail L = None <-> numElements L = 0;
  (* link symmetry of every adjacent pair *)
  obs_links : forall (i : nat) (a b : loc),
      fw !! i = Some a -> fw !! S i = Some b ->
      exists na nb, h !! a = Some na /\ h !! b = Some nb /\
                    pNext na = Some b /\ pPrev nb = Some a
}.

Definition Invariants {T} (m : mem T) (this : loc) : Prop :=
  exists L fw bw, lists m !! this = Some L /\ observed (nodes m) L fw bw.

(** ** Frames

    What a call on the list at [this], owning the Nodes [own], leaves
    alone: the other list objects, the Nodes of other owners, and the
    free-standing objects. *)
Record frame {T} (this : loc) (own : list loc) (m m' : mem T) : Prop := mkFrame {
  frame_lists : forall l, l <> this -> lists m' !! l = lists m !! l;
  frame_nodes : forall b, b ∉ own -> is_Some (nodes m !! b) ->
                          nodes m' !! b = nodes m !! b;
  frame_objs : objs m' = objs m
}.

(** The Nodes [own'] of a list after some calls are Nodes [own] it had
    before, or Nodes allocated since. *)
Definition owned_since {T} (m : mem T) (own own' : list loc) : Prop :=
  forall b, b ∈ own' -> b ∈ own \/ nodes m !! b = None.

(** ** Clients: sequences of calls

    A client names a position by the number of [++] steps from
    [begin()]; stepping as many times as the list is long gives
    [end()]. *)

Section Clients.

Context {T : Type}.
Variable T_default : T.

Fixpoint advance (n : nat) (it : iterator) : M (T:=T) iterator :=
  match n with
  | O => ret it
  | S n' => bind (it_incr it) (advance n')
  end.

Definition iter_at (this : loc) (n : nat) : M (T:=T) iterator :=
  bind (begin this) (advance n).

(** One call of a mutating member function. *)
Inductive op : Type :=
| Op_push_front (d : T)
| Op_push_front_move (d : T)
| Op_push_back (d : T)
| Op_push_back_move (d : T)
| Op_pop_front
| Op_pop_back
| Op_insert (pos : nat) (d : T)
| Op_insert_move (pos : nat) (d : T)
| Op_erase (pos : nat).

Definition run_op (this : loc) (o : op) : M (T:=T) unit :=
  match o with
  | Op_push_front d => push_front this d
  | Op_push_front_move d => push_front_move this d
  | Op_push_back d => push_back this d
  | Op_push_back_move d => push_back_move this d
  | Op_pop_front => pop_front this
  | Op_pop_back => pop_back this
  | Op_insert pos d =>
      bind (iter_at this pos) (fun it => bind (insert this it d) (fun _ => ret tt))
  | Op_insert_move pos d =>
      bind (iter_at this pos) (fun it => bind (insert_move this it d) (fun _ => ret tt))
  | Op_erase pos =>
      bind (iter_at this pos) (fun it => bind (erase this it) (fun _ => ret tt))
  end.

Fixpoint run_ops (this : loc) (ops : list op) : M (T:=T) unit :=
  match ops with
  | [] => ret tt
  | o :: ops' => bind (run_op this o) (fun _ => run_ops this ops')
  end.

(** The element sequence after a call, as the code leaves it, when the
    position of the call exists in a list holding [xs]. *)
Definition seq_op (xs : list T) (o : op) : option (list T) :=
  match o with
  | Op_push_front d | Op_push_front_move d => Some (d :: xs)
  | Op_push_back d | Op_push_back_move d => Some (xs ++ [d])
  | Op_pop_front => Some (tail xs)
  | Op_pop_back => Some (removelast xs)
  | Op_insert pos d =>
      if (pos <=? length xs)%nat then Some (take pos xs ++ d :: drop pos xs)
      else None
  | Op_insert_move pos d =>
      if (pos <=? length xs)%nat then Some xs else None
  | Op_erase pos =>
      if (pos <=? length xs)%nat then Some (take pos xs ++ drop (S pos) xs)
      else None
  end.

Fixpoint seq_ops (xs : list T) (ops : list op) : option (list T) :=
  match ops with
  | [] => Some xs
  | o :: ops' =>
      match seq_op xs o with
      | Some xs' => seq_ops xs' ops'
      | None => None
      end
  end.

(** The ways of constructing a list. *)
Inductive ctor : Type :=
| Ctor_default
| Ctor_copy (rhs : loc)
| Ctor_move (rhs : loc)
| Ctor_fill (num : Z) (t : T)
| Ctor_default_fill (num : Z)
| Ctor_il (il : list T)
| Ctor_range (range : list T).

Definition construct (fuel : nat) (this : loc) (c : ctor) : M (T:=T) unit :=
  match c with
  | Ctor_default => list_default this
  | Ctor_copy rhs => list_copy fuel this rhs
  | Ctor_move rhs => list_move this rhs
  | Ctor_fill num t => list_fill this num t
  | Ctor_default_fill num => list_default_fill T_default this num
  | Ctor_il il => list_il this il
  | Ctor_range range => list_range this range
  end.

End Clients.

Arguments op T : clear implicits.
Arguments ctor T : clear implicits.

(** What a constructor call needs from its arguments: a source list in
    good standing, other than the object under construction, and a
    [size_t] for [num]. *)
Definition ctor_ready {T} (fuel : nat) (m : mem T) (this : loc) (c : ctor T) : Prop :=
  match c with
  | Ctor_copy rhs =>
      this <> rhs /\ exists cr, repr m rhs cr /\ (length cr <= fuel)%nat
  | Ctor_move rhs => this <> rhs /\ exists cr, repr m rhs cr
  | Ctor_fill num _ | Ctor_default_fill num => 0 <= num < SIZE_MOD
  | Ctor_default | Ctor_il _ | Ctor_range _ => True
  end.

(** ** What copying promises

    After copying the list at [rhs], whose chain is [cr], into the list
    at [this], whose chain is then [new]: the same elements in the same
    order, no Node in common, and calls on either list leave the elements
    of the other as they are. *)
Record copy_result {T} (m' : mem T) (this rhs : loc) (cr new : chain T) : Prop :=
  mkCopyResult {
  copy_dst : repr m' this new;
  copy_src : repr m' rhs cr;
  copy_length : length new = length cr;
  copy_dst_contents : contents m' this = Some cr.*2;
  copy_src_contents : contents m' rhs = Some cr.*2;
  copy_no_sharing : forall b, b ∈ new.*1 -> b ∉ cr.*1;
  copy_dst_mutated : forall ops : list (op T),
      is_Some (seq_ops new.*2 ops) ->
      exists m'', (run_ops this ops m' = Ok tt m'' \/ run_ops this ops m' = Throw m'') /\
                  contents m'' rhs = Some cr.*2;
  copy_src_mutated : forall ops : list (op T),
      is_Some (seq_ops cr.*2 ops) ->
      exists m'', (run_ops rhs ops m' = Ok tt m'' \/ run_ops rhs ops m' = Throw m'') /\
                  contents m'' this = Some cr.*2
}.

(** The source list at [rhs], with the Nodes [cr], is in [m'] what it
    was in [m]: the same [pHead], [pTail] and [numElements], the same
    Nodes with the same links and elements, the same element sequence. *)
Record source_same {T} (m m' : mem T) (rhs : loc) (cr : chain T) : Prop :=
  mkSourceSame {
  same_obj : lists m' !! rhs = lists m !! rhs;
  same_nodes : forall b, b ∈ cr.*1 -> nodes m' !! b = nodes m !! b;
  same_contents : contents m' rhs = contents m rhs
}.

(** ** Example stores, with [T] the integers

    List objects live at the addresses 1 and 2; the Nodes get the
    addresses [new] hands out, in order. *)

Definition store_after {T A} (c : M (T:=T) A) (m : mem T) : mem T :=
  match c m with
  | Ok _ m' => m'
  | Throw m' => m'
  | _ => m
  end.

Definition m_empty : mem Z := mkMem ∅ ∅ ∅.

(** A default-constructed list at 1. *)
Definition m_none : mem Z := store_after (list_default 1%positive) m_empty.

(** The list at 1 holds 1, 2, 3. *)
Definition m_123 : mem Z := store_after (list_il 1%positive [1; 2; 3]) m_empty.

(** The list at 1 holds 1, 2. *)
Definition m_12 : mem Z := store_after (list_il 1%positive [1; 2]) m_empty.

(** The list at 1 holds 1 and the list at 2 holds 2, 3. *)
Definition m_two : mem Z :=
  store_after (list_il 2%positive [2; 3])
              (store_after (list_il 1%positive [1]) m_empty).

(** ** The rest of the class

    The destructor, the postfix steps of the iterator, the iterator-range
    constructor run on iterators of a list, and clients that walk a list
    backwards or read through an iterator. *)

Section More.

Context {T : Type}.

(** ~list(): [clear();], and the lifetime of the object ends. *)
Definition list_destroy (fuel : nat) (this : loc) : M (T:=T) unit :=
  bind (clear fuel this)
       (fun _ m => Ok tt (mkMem (nodes m) (objs m) (delete this (lists m)))).

(** operator++(int), operator--(int):
    [iterator tmp = *this; p = p->pNext; return tmp;].  The pair is the
    value returned and the iterator afterwards. *)
Definition it_post_incr (it : iterator) : M (T:=T) (iterator * iterator) :=
  let tmp := it in
  bind (get_next it) (fun p => ret (tmp, p)).

Definition it_post_decr (it : iterator) : M (T:=T) (iterator * iterator) :=
  let tmp := it in
  bind (get_prev it) (fun p => ret (tmp, p)).

(** The element read through [*it]. *)
Definition read_at (it : iterator) : M (T:=T) T :=
  bind (it_deref it) read_ref.

(** [n] steps of [--it]; from [rbegin()] they walk the list backwards. *)
Fixpoint retreat (n : nat) (it : iterator) : M (T:=T) iterator :=
  match n with
  | O => ret it
  | S n' => bind (it_decr it) (retreat n')
  end.

Definition riter_at (this : loc) (n : nat) : M (T:=T) iterator :=
  bind (rbegin this) (retreat n).

(** list(Iterator first, Iterator last) with iterators of a list:
    [for (Iterator it = first; it != last; ++it) push_back( *it );],
    one unit of fuel per iteration. *)
Fixpoint range_loop (fuel : nat) (this : loc) (it last : iterator) : M (T:=T) unit :=
  if it_neq it last then
    match fuel with
    | O => diverge
    | S fuel' =>
        bind (read_at it) (fun d =>
        bind (push_back this d) (fun _ =>
        bind (it_incr it) (fun it' =>
        range_loop fuel' this it' last)))
    end
  else ret tt.

Definition list_range_it (fuel : nat) (this : loc) (first last : iterator)
    : M (T:=T) unit :=
  bind (put_list this (mkList 0 None None))
       (fun _ => range_loop fuel this first last).

End More.

(** * Proofs *)

(** ** Chains *)

Section Chains.

Context {T : Type}.
Implicit Types (h : gmap loc (Node T)) (cs : chain T) (p q : ptr) (c : loc * T).

Lemma first_ptr_app cs1 cs2 q :
  first_ptr (cs1 ++ cs2) q = first_ptr cs1 (first_ptr cs2 q).
Proof. by destruct cs1. Qed.

Lemma last_ptr_nil q : last_ptr (@nil (loc * T)) q = q.
Proof. done. Qed.

Lemma last_ptr_snoc cs c q : last_ptr (cs ++ [c]) q = Some c.1.
Proof. unfold last_ptr. by rewrite last_snoc. Qed.

Lemma last_ptr_app cs1 cs2 q :
  last_ptr (cs1 ++ cs2) q = last_ptr cs2 (last_ptr cs1 q).
Proof.
  destruct cs2 as [|c cs2 _] using rev_ind.
  - by rewrite app_nil_r.
  - by rewrite app_assoc, !last_ptr_snoc.
Qed.

Lemma last_ptr_cons c cs q : last_ptr (c :: cs) q = last_ptr cs (Some c.1).
Proof. apply (last_ptr_app [c] cs q). Qed.

Lemma first_ptr_None cs : first_ptr cs None = None <-> cs = [].
Proof. destruct cs; naive_solver. Qed.

Lemma last_ptr_None cs : last_ptr cs None = None <-> cs = [].
Proof.
  destruct cs as [|c cs _] using rev_ind; [done|].
  rewrite last_ptr_snoc. split; [done|]. by destruct cs.
Qed.

Lemma dlseg_app h p cs1 cs2 q :
  dlseg h p (cs1 ++ cs2) q <->
  dlseg h p cs1 (first_ptr cs2 q) /\ dlseg h (last_ptr cs1 p) cs2 q.
Proof.
  revert p. induction cs1 as [|c cs1 IH]; intros p; simpl.
  - rewrite last_ptr_nil. tauto.
  - rewrite IH, first_ptr_app, last_ptr_cons. tauto.
Qed.

Lemma dlseg_singleton h p c q :
  dlseg h p [c] q <-> h !! c.1 = Some (mkNode c.2 q p).
Proof. simpl. tauto. Qed.

Lemma dlseg_agree h h' p cs q :
  (forall a, a ∈ cs.*1 -> h' !! a = h !! a) ->
  dlseg h p cs q -> dlseg h' p cs q.
Proof.
  revert p. induction cs as [|c cs IH]; intros p Hag; simpl; [done|].
  intros [Hc Hr]. split.
  - rewrite Hag; [done|]. simpl. left.
  - apply IH; [|done]. intros a Ha. apply Hag. simpl. by right.
Qed.

Lemma dlseg_insert_fresh h p cs q a nd :
  a ∉ cs.*1 -> dlseg h p cs q -> dlseg (<[a := nd]> h) p cs q.
Proof.
  intros Ha. apply dlseg_agree. intros b Hb.
  apply lookup_insert_ne. intros ->. done.
Qed.

Lemma dlseg_delete_other h p cs q a :
  a ∉ cs.*1 -> dlseg h p cs q -> dlseg (delete a h) p cs q.
Proof.
  intros Ha. apply dlseg_agree. intros b Hb.
  apply lookup_delete_ne. intros ->. done.
Qed.

Lemma dlseg_lookup h p cs q (i : nat) c :
  dlseg h p cs q -> cs !! i = Some c ->
  h !! c.1 = Some (mkNode c.2 (first_ptr (drop (S i) cs) q)
                          (last_ptr (take i cs) p)).
Proof.
  intros Hd Hi.
  rewrite <- (take_drop_middle cs i c Hi) in Hd.
  apply dlseg_app in Hd as [_ Hd]. simpl in Hd. tauto.
Qed.

Lemma dlseg_is_Some h p cs q a :
  dlseg h p cs q -> a ∈ cs.*1 -> is_Some (h !! a).
Proof.
  intros Hd Ha. apply list_elem_of_fmap in Ha as (c & -> & Hc).
  apply list_elem_of_lookup in Hc as [i Hi].
  rewrite (dlseg_lookup _ _ _ _ _ _ Hd Hi). eauto.
Qed.

Lemma dlseg_dom h p cs q : dlseg h p cs q -> list_to_set cs.*1 ⊆ dom h.
Proof.
  intros Hd a Ha. apply elem_of_list_to_set in Ha.
  apply elem_of_dom. eapply dlseg_is_Some; eauto.
Qed.

Lemma dlseg_length h p cs q :
  NoDup cs.*1 -> dlseg h p cs q -> (length cs <= size h)%nat.
Proof.
  intros Hnd Hd. rewrite <- (length_fmap fst cs).
  rewrite <- (size_list_to_set (C := gset loc) cs.*1 Hnd).
  rewrite <- size_dom. apply subseteq_size. eapply dlseg_dom; eauto.
Qed.

End Chains.

(** ** From the representation to what a walk observes *)

Section Observe.

Context {T : Type}.
Implicit Types (h : gmap loc (Node T)) (cs : chain T) (p q : ptr) (m : mem T).

Lemma walk_next_dlseg h p cs (fuel : nat) :
  dlseg h p cs None -> (length cs <= fuel)%nat ->
  walk pNext fuel h (first_ptr cs None) = Some cs.*1.
Proof.
  revert p fuel. induction cs as [|c cs IH]; intros p fuel Hd Hf; simpl in *.
  - by destruct fuel.
  - destruct fuel as [|fuel]; [lia|]. destruct Hd as [Hc Hr].
    simpl. rewrite Hc. simpl. rewrite (IH (Some c.1) fuel Hr); [done | lia].
Qed.

Lemma walk_prev_dlseg h cs q (fuel : nat) :
  dlseg h None cs q -> (length cs <= fuel)%nat ->
  walk pPrev fuel h (last_ptr cs None) = Some (reverse cs.*1).
Proof.
  revert q fuel. induction cs as [|c cs IH] using rev_ind; intros q fuel Hd Hf.
  - by destruct fuel.
  - rewrite length_app in Hf. simpl in Hf.
    destruct fuel as [|fuel]; [lia|].
    apply dlseg_app in Hd as [Hl Hc]. apply dlseg_singleton in Hc.
    rewrite last_ptr_snoc, fmap_app, reverse_app. simpl.
    rewrite Hc. simpl. rewrite (IH _ fuel Hl); [done | lia].
Qed.

Lemma values_at_dlseg h p cs q :
  dlseg h p cs q -> values_at h cs.*1 = Some cs.*2.
Proof.
  revert p. induction cs as [|c cs IH]; intros p; [done|].
  intros [Hc Hr]. rewrite !fmap_cons. cbn [values_at].
  rewrite Hc, (IH _ Hr). done.
Qed.

Lemma repr_length_size m this cs :
  repr m this cs -> (length cs <= size (nodes m))%nat.
Proof. intros [_ Hnd Hd _]. eapply dlseg_length; eauto. Qed.

Lemma repr_contents m this cs : repr m this cs -> contents m this = Some cs.*2.
Proof.
  intros Hr. pose proof (repr_length_size _ _ _ Hr) as Hlen.
  destruct Hr as [Hobj Hnd Hd _]. unfold contents, nodes_from.
  rewrite Hobj. cbn [pHead].
  rewrite (walk_next_dlseg _ _ _ _ Hd); [|lia].
  eapply values_at_dlseg; eauto.
Qed.

Lemma repr_observed m this cs :
  repr m this cs ->
  observed (nodes m)
           (mkList (Z.of_nat (length cs)) (first_ptr cs None) (last_ptr cs None))
           cs.*1 (reverse cs.*1).
Proof.
  intros Hr. pose proof (repr_length_size _ _ _ Hr) as Hlen.
  destruct Hr as [Hobj Hnd Hd _].
  split; simpl.
  - unfold nodes_from. eapply walk_next_dlseg; eauto.
  - unfold nodes_from. eapply walk_prev_dlseg; eauto.
  - by rewrite length_fmap.
  - by rewrite length_reverse, length_fmap.
  - done.
  - by rewrite first_ptr_None, last_ptr_None.
  - rewrite last_ptr_None. destruct cs; simpl; [done|]. split; [done | lia].
  - intros i a b Ha Hb.
    rewrite list_lookup_fmap in Ha, Hb.
    apply fmap_Some in Ha as (ca & Hca & ->).
    apply fmap_Some in Hb as (cb & Hcb & ->).
    pose proof (dlseg_lookup _ _ _ _ _ _ Hd Hca) as Hna.
    pose proof (dlseg_lookup _ _ _ _ _ _ Hd Hcb) as Hnb.
    eexists _, _. split; [exact Hna|]. split; [exact Hnb|]. simpl. split.
    + by rewrite (drop_S _ _ _ Hcb).
    + by rewrite (take_S_r _ _ _ Hca), last_ptr_snoc.
Qed.

Lemma repr_Invariants m this cs : repr m this cs -> Invariants m this.
Proof.
  intros Hr. eexists _, _, _. split; [apply (repr_obj _ _ _ Hr)|].
  exact (repr_observed _ _ _ Hr).
Qed.

(** A list keeps its representation when its object and its Nodes are
    left alone. *)
Lemma repr_frame m m' this cs :
  repr m this cs ->
  lists m' !! this = lists m !! this ->
  (forall a, a ∈ cs.*1 -> nodes m' !! a = nodes m !! a) ->
  repr m' this cs.
Proof.
  intros [Hobj Hnd Hd Hrg] Hl Hn. split; [congruence | done | | done].
  eapply dlseg_agree; eauto.
Qed.

End Observe.

(** ** Running the member functions *)

Ltac munfold :=
  unfold begin, rbegin, end_, empty, size_, it_deref, it_incr, it_decr,
         it_neq, it_eq, incr_numElements, decr_numElements;
  unfold get_numElements, get_pHead, get_pTail,
         set_numElements, set_pHead, set_pTail,
         get_data, get_next, get_prev, set_next, set_prev;
  unfold bind, ret, undefined, diverge,
         list_at, put_list, node_at, put_node, delete_node.

Ltac mred :=
  cbn [nodes objs lists numElements pHead pTail data pNext pPrev fst snd negb].

Ltac msolve :=
  first [ congruence | intros ?; congruence | intros H; apply H; congruence ].

Ltac mlookup :=
  first
    [ rewrite lookup_insert_eq
    | rewrite lookup_insert_ne by msolve
    | rewrite lookup_delete_eq
    | rewrite lookup_delete_ne by msolve
    | match goal with
      | H : ?x !! ?k = _ |- context [?x !! ?k] => rewrite H
      end
    | rewrite bool_decide_true by msolve
    | rewrite bool_decide_false by msolve ].

Ltac mrun := munfold; repeat (progress mred || mlookup).

Section Exec.

Context {T : Type}.
Implicit Types (h : gmap loc (Node T)) (cs : chain T) (p q : ptr) (m : mem T).

Lemma bind_Ok {A B} (c : M A) (k : A -> M B) m a m' :
  c m = Ok a m' -> bind c k m = k a m'.
Proof. unfold bind. by intros ->. Qed.

Lemma bind_Throw {A B} (c : M A) (k : A -> M B) m m' :
  c m = Throw m' -> bind c k m = Throw m'.
Proof. unfold bind. by intros ->. Qed.

Lemma bind_Undefined {A B} (c : M A) (k : A -> M B) m :
  c m = Undefined -> bind c k m = Undefined.
Proof. unfold bind. by intros ->. Qed.

Lemma bind_Diverge {A B} (c : M A) (k : A -> M B) m :
  c m = Diverge -> bind c k m = Diverge.
Proof. unfold bind. by intros ->. Qed.

(** [new] either throws, leaving the store as it is, or returns an
    address that was not allocated. *)
Lemma new_node_cases (nd : Node T) m :
  (heap_cells m < HEAP_LIMIT /\
   exists a, nodes m !! a = None /\
     new_node nd m = Ok a (mkMem (<[a := nd]> (nodes m)) (objs m) (lists m))) \/
  (HEAP_LIMIT <= heap_cells m /\ new_node nd m = Throw m).
Proof.
  unfold new_node. destruct (heap_cells m <? HEAP_LIMIT) eqn:E.
  - left. split; [lia|]. eexists. split; [|reflexivity].
    apply not_elem_of_dom, is_fresh.
  - right. split; [lia | done].
Qed.

Lemma new_obj_cases (t : T) m :
  (heap_cells m < HEAP_LIMIT /\
   exists a, objs m !! a = None /\
     new_obj t m = Ok a (mkMem (nodes m) (<[a := t]> (objs m)) (lists m))) \/
  (HEAP_LIMIT <= heap_cells m /\ new_obj t m = Throw m).
Proof.
  unfold new_obj. destruct (heap_cells m <? HEAP_LIMIT) eqn:E.
  - left. split; [lia|]. eexists. split; [|reflexivity].
    apply not_elem_of_dom, is_fresh.
  - right. split; [lia | done].
Qed.

Lemma frame_refl this own m : frame this own m m.
Proof. by split. Qed.

Lemma repr_not_fresh m this cs a :
  repr m this cs -> nodes m !! a = None -> a ∉ cs.*1.
Proof.
  intros [_ _ Hd _] Ha Hin. eapply dlseg_is_Some in Hin; eauto.
  rewrite Ha in Hin. by destruct Hin.
Qed.

Lemma SIZE_MOD_eq : SIZE_MOD = 18446744073709551616.
Proof. reflexivity. Qed.

Lemma size_wrap_succ (z : Z) : 0 <= z < HEAP_LIMIT -> size_wrap (z + 1) = z + 1.
Proof.
  unfold HEAP_LIMIT, size_wrap. rewrite SIZE_MOD_eq. intros.
  apply Z.mod_small. lia.
Qed.

Lemma size_wrap_pred (z : Z) : 0 < z <= HEAP_LIMIT -> size_wrap (z - 1) = z - 1.
Proof.
  unfold HEAP_LIMIT, size_wrap. rewrite SIZE_MOD_eq. intros.
  apply Z.mod_small. lia.
Qed.

Lemma heap_cells_nodes m : Z.of_nat (size (nodes m)) <= heap_cells m.
Proof. unfold heap_cells. lia. Qed.

(** *** push_back *)

Lemma push_back_spec m this cs d :
  repr m this cs ->
  (heap_cells m < HEAP_LIMIT /\
   exists a m', push_back this d m = Ok tt m' /\
     nodes m !! a = None /\
     repr m' this (cs ++ [(a, d)]) /\
     frame this cs.*1 m m' /\
     dom (nodes m') = {[a]} ∪ dom (nodes m)) \/
  (HEAP_LIMIT <= heap_cells m /\ push_back this d m = Throw m).
Proof.
  intros Hr.
  destruct (new_node_cases (mkNode d None None) m)
    as [[Hroom (a & Ha & Hnew)] | [Hfull Hnew]];
    [left; split; [done|] | right; split; [done|]];
    unfold push_back.
  2: { by apply bind_Throw. }
  rewrite (bind_Ok _ _ _ _ _ Hnew).
  pose proof (repr_length_size _ _ _ Hr) as Hlen.
  pose proof (repr_not_fresh _ _ _ _ Hr Ha) as Hacs.
  pose proof (heap_cells_nodes m) as Hcells.
  destruct Hr as [Hobj Hnd Hch Hrg].
  exists a.
  destruct cs as [|[t x] cs' _] using rev_ind.
  - simpl in Hobj. rewrite last_ptr_nil in Hobj. mrun.
    eexists. split; [reflexivity|]. split; [done|]. split; [|split].
    + split; mred.
      * by rewrite lookup_insert_eq.
      * simpl. apply NoDup_singleton.
      * simpl. by rewrite lookup_insert_eq.
      * done.
    + split; mred; [|intros b _ [nd Hb]|done].
      * intros l Hl. by rewrite !lookup_insert_ne by done.
      * rewrite lookup_insert_ne; [done|]. congruence.
    + mred. by rewrite dom_insert_L.
  - rewrite last_ptr_snoc, first_ptr_app in Hobj. simpl in Hobj.
    apply dlseg_app in Hch as [Hpre Hlast]. apply dlseg_singleton in Hlast.
    simpl in Hlast.
    rewrite fmap_app in Hnd, Hacs. simpl in Hnd, Hacs.
    apply NoDup_app in Hnd as (Hnd1 & Hnd2 & _).
    assert (Hat : a <> t) by (intros ->; apply Hacs; set_solver).
    assert (Htcs : t ∉ cs'.*1) by (intros ?; eapply Hnd2; [done | set_solver]).
    rewrite length_app in Hobj, Hlen. simpl in Hobj, Hlen.
    mrun.
    eexists. split; [reflexivity|]. split; [done|]. split; [|split].
    + split; mred.
      * rewrite lookup_insert_eq. f_equal. f_equal.
        -- rewrite !length_app. simpl.
           rewrite size_wrap_succ; lia.
        -- by rewrite !first_ptr_app.
        -- by rewrite last_ptr_snoc.
      * rewrite !fmap_app. simpl. rewrite <- app_assoc. simpl.
        apply NoDup_app. split; [done|]. split.
        -- intros b Hb1 Hb2. apply (Hnd2 b Hb1). set_solver.
        -- apply NoDup_cons. split; [set_solver | apply NoDup_singleton].
      * rewrite <- app_assoc. simpl. apply dlseg_app. simpl. split; [|split; [|split]].
        -- repeat (apply dlseg_insert_fresh; [set_solver|]). exact Hpre.
        -- rewrite lookup_insert_ne by done. by rewrite lookup_insert_eq.
        -- by rewrite lookup_insert_eq.
        -- done.
      * rewrite !length_app. simpl. unfold HEAP_LIMIT in *. lia.
    + split; mred; [|intros b Hb1 [nd Hb]|done].
      * intros l Hl. by rewrite !lookup_insert_ne by done.
      * rewrite fmap_app in Hb1. simpl in Hb1.
        rewrite !lookup_insert_ne by (first [congruence | set_solver]). done.
    + mred. rewrite !dom_insert_L.
      assert (t ∈ dom (nodes m)) by (apply elem_of_dom; eauto).
      set_solver.
Qed.

(** *** push_front *)

Lemma push_front_spec m this cs d :
  repr m this cs ->
  (heap_cells m < HEAP_LIMIT /\
   exists a m', push_front this d m = Ok tt m' /\
     nodes m !! a = None /\
     repr m' this ((a, d) :: cs) /\
     frame this cs.*1 m m' /\
     dom (nodes m') = {[a]} ∪ dom (nodes m)) \/
  (HEAP_LIMIT <= heap_cells m /\ push_front this d m = Throw m).
Proof.
  intros Hr.
  destruct (new_node_cases (mkNode d None None) m)
    as [[Hroom (a & Ha & Hnew)] | [Hfull Hnew]];
    [left; split; [done|] | right; split; [done|]];
    unfold push_front.
  2: { by apply bind_Throw. }
  rewrite (bind_Ok _ _ _ _ _ Hnew).
  pose proof (repr_length_size _ _ _ Hr) as Hlen.
  pose proof (repr_not_fresh _ _ _ _ Hr Ha) as Hacs.
  pose proof (heap_cells_nodes m) as Hcells.
  destruct Hr as [Hobj Hnd Hch Hrg].
  exists a.
  destruct cs as [|[t x] cs'].
  - simpl in Hobj. rewrite last_ptr_nil in Hobj. mrun.
    eexists. split; [reflexivity|]. split; [done|]. split; [|split].
    + split; mred.
      * by rewrite lookup_insert_eq.
      * simpl. apply NoDup_singleton.
      * simpl. by rewrite lookup_insert_eq.
      * done.
    + split; mred; [|intros b _ [nd Hb]|done].
      * intros l Hl. by rewrite !lookup_insert_ne by done.
      * rewrite lookup_insert_ne; [done|]. congruence.
    + mred. by rewrite dom_insert_L.
  - rewrite last_ptr_cons in Hobj. simpl in Hobj, Hch, Hnd, Hacs, Hlen.
    destruct Hch as [Ht Hrest].
    apply NoDup_cons in Hnd as [Htcs Hnd].
    assert (Hat : a <> t) by set_solver.
    mrun.
    eexists. split; [reflexivity|]. split; [done|]. split; [|split].
    + split; mred.
      * rewrite lookup_insert_eq. f_equal. f_equal.
        -- simpl. rewrite size_wrap_succ; lia.
        -- by rewrite !last_ptr_cons.
      * simpl. apply NoDup_cons. split; [set_solver|].
        apply NoDup_cons. by split.
      * simpl. split; [by rewrite lookup_insert_eq|]. split.
        -- rewrite lookup_insert_ne by done. by rewrite lookup_insert_eq.
        -- repeat (apply dlseg_insert_fresh; [set_solver|]). exact Hrest.
      * simpl. unfold HEAP_LIMIT in *. lia.
    + split; mred; [|intros b Hb1 [nd Hb]|done].
      * intros l Hl. by rewrite !lookup_insert_ne by done.
      * simpl in Hb1.
        rewrite !lookup_insert_ne by (first [congruence | set_solver]). done.
    + mred. rewrite !dom_insert_L.
      assert (t ∈ dom (nodes m)) by (apply elem_of_dom; eauto).
      set_solver.
Qed.

(** *** pop_back, pop_front *)

Lemma pop_back_spec m this cs :
  repr m this cs ->
  exists m', pop_back this m = Ok tt m' /\
    repr m' this (removelast cs) /\
    frame this cs.*1 m m' /\
    (cs = [] -> m' = m) /\
    (forall c, last cs = Some c -> dom (nodes m') = dom (nodes m) ∖ {[c.1]}).
Proof.
  intros Hr.
  pose proof (repr_length_size _ _ _ Hr) as Hlen.
  pose proof (heap_cells_nodes m) as Hcells.
  pose proof Hr as [Hobj Hnd Hch Hrg].
  unfold pop_back.
  destruct cs as [|[t x] cs' _] using rev_ind.
  - simpl in Hobj. rewrite last_ptr_nil in Hobj. mrun.
    eexists. split; [reflexivity|]. split; [done|]. split; [apply frame_refl|].
    split; [done|]. intros c. by rewrite last_nil.
  - rewrite removelast_last.
    rewrite last_ptr_snoc, first_ptr_app, length_app in Hobj. simpl in Hobj.
    apply dlseg_app in Hch as [Hpre Hlast]. apply dlseg_singleton in Hlast.
    simpl in Hpre, Hlast.
    rewrite fmap_app in Hnd. simpl in Hnd.
    apply NoDup_app in Hnd as (Hnd1 & Hnd2 & _).
    assert (Htcs : t ∉ cs'.*1) by (intros ?; eapply Hnd2; [done | set_solver]).
    rewrite length_app in Hlen. simpl in Hlen.
    rewrite length_app in Hrg. simpl in Hrg.
    assert (Hcount : size_wrap (Z.of_nat (length cs' + 1) - 1)
                     = Z.of_nat (length cs')).
    { rewrite size_wrap_pred; unfold HEAP_LIMIT; lia. }
    destruct cs' as [|[t' x'] cs'' _] using rev_ind.
    + rewrite last_ptr_nil in Hlast. mrun.
      eexists. split; [reflexivity|]. split; [|split; [|split]].
      * split; mred; [|done..].
        rewrite lookup_insert_eq. by rewrite Hcount.
      * split; mred; [|intros b Hb1 [nd Hb]|done].
        -- intros l Hl. by rewrite !lookup_insert_ne by done.
        -- simpl in Hb1. rewrite lookup_delete_ne by set_solver. done.
      * intros [=].
      * intros c [= <-]. mred. by rewrite dom_delete_L.
    + rewrite last_ptr_snoc in Hlast. simpl in Hlast.
      apply dlseg_app in Hpre as [Hpre Hprev]. apply dlseg_singleton in Hprev.
      simpl in Hpre, Hprev.
      rewrite fmap_app in Hnd1, Htcs. simpl in Hnd1, Htcs.
      assert (Htt : t <> t') by set_solver.
      mrun.
      eexists. split; [reflexivity|]. split; [|split; [|split]].
      * split; mred.
        -- rewrite lookup_insert_eq. rewrite Hcount.
           f_equal. f_equal.
           ++ by rewrite !first_ptr_app.
           ++ by rewrite last_ptr_snoc.
        -- by rewrite fmap_app.
        -- apply NoDup_app in Hnd1 as (Hn1 & Hn2 & _).
           apply dlseg_app. split.
           ++ apply dlseg_delete_other; [set_solver|].
              apply dlseg_insert_fresh; [|exact Hpre].
              intros ?. eapply Hn2; [done | set_solver].
           ++ apply dlseg_singleton. simpl.
              rewrite lookup_delete_ne by done. by rewrite lookup_insert_eq.
        -- rewrite length_app in Hrg |- *. simpl in *. lia.
      * split; mred; [|intros b Hb1 [nd Hb]|done].
        -- intros l Hl. by rewrite !lookup_insert_ne by done.
        -- rewrite !fmap_app in Hb1. simpl in Hb1.
           rewrite lookup_delete_ne by set_solver.
           rewrite lookup_insert_ne by set_solver. done.
      * intros Heq. by apply app_nil in Heq as [_ ?].
      * intros c. rewrite last_snoc. intros [= <-]. mred.
        rewrite dom_delete_L, dom_insert_L.
        assert (t' ∈ dom (nodes m)) by (apply elem_of_dom; eauto).
        set_solver.
Qed.

Lemma pop_front_spec m this cs :
  repr m this cs ->
  exists m', pop_front this m = Ok tt m' /\
    repr m' this (tail cs) /\
    frame this cs.*1 m m' /\
    (cs = [] -> m' = m) /\
    (forall c, head cs = Some c -> dom (nodes m') = dom (nodes m) ∖ {[c.1]}).
Proof.
  intros Hr.
  pose proof Hr as [Hobj Hnd Hch Hrg].
  unfold pop_front.
  destruct cs as [|[t x] cs'].
  - simpl in Hobj. rewrite last_ptr_nil in Hobj. mrun.
    eexists. split; [reflexivity|]. split; [done|]. split; [apply frame_refl|].
    split; [done|]. by intros c.
  - rewrite last_ptr_cons in Hobj. cbn [tail first_ptr fst length] in *.
    destruct Hch as [Ht Hrest]. cbn [fst snd] in Ht.
    rewrite fmap_cons in Hnd. cbn [fst] in Hnd.
    apply NoDup_cons in Hnd as [Htcs Hnd].
    assert (Hcount : size_wrap (Z.of_nat (S (length cs')) - 1)
                     = Z.of_nat (length cs')).
    { rewrite size_wrap_pred; unfold HEAP_LIMIT; lia. }
    destruct cs' as [|[t' x'] cs''].
    + cbn [first_ptr] in Ht. mrun.
      eexists. split; [reflexivity|]. split; [|split; [|split]].
      * split; mred; [|done..].
        rewrite lookup_insert_eq. by rewrite Hcount.
      * split; mred; [|intros b Hb1 [nd Hb]|done].
        -- intros l Hl. by rewrite !lookup_insert_ne by done.
        -- simpl in Hb1. rewrite lookup_delete_ne by set_solver. done.
      * intros [=].
      * intros c [= <-]. mred. by rewrite dom_delete_L.
    + cbn [first_ptr fst] in Ht. destruct Hrest as [Ht' Hrest].
      cbn [fst snd] in Ht', Hrest.
      rewrite fmap_cons in Hnd, Htcs. cbn [fst] in Hnd, Htcs.
      assert (Htt : t <> t') by set_solver.
      apply NoDup_cons in Hnd as [Ht'cs Hnd].
      mrun.
      eexists. split; [reflexivity|]. split; [|split; [|split]].
      * split; mred.
        -- rewrite lookup_insert_eq. rewrite Hcount.
           f_equal. f_equal. by rewrite !last_ptr_cons.
        -- rewrite fmap_cons. apply NoDup_cons. by split.
        -- simpl. split.
           ++ rewrite lookup_delete_ne by done. by rewrite lookup_insert_eq.
           ++ apply dlseg_delete_other; [set_solver|].
              apply dlseg_insert_fresh; [done | exact Hrest].
        -- cbn [length] in *. lia.
      * split; mred; [|intros b Hb1 [nd Hb]|done].
        -- intros l Hl. by rewrite !lookup_insert_ne by done.
        -- rewrite !fmap_cons in Hb1. simpl in Hb1.
           rewrite lookup_delete_ne by set_solver.
           rewrite lookup_insert_ne by set_solver. done.
      * intros [=].
      * intros c [= <-]. mred.
        rewrite dom_delete_L, dom_insert_L.
        assert (t' ∈ dom (nodes m)) by (apply elem_of_dom; eauto).
        set_solver.
Qed.

(** *** erase *)

Lemma erase_end_spec m this : erase this None m = Ok None m.
Proof. reflexivity. Qed.

Lemma erase_spec m this cs1 e x cs2 :
  repr m this (cs1 ++ (e, x) :: cs2) ->
  exists m', erase this (Some e) m = Ok (first_ptr cs2 None) m' /\
    repr m' this (cs1 ++ cs2) /\
    frame this (cs1 ++ (e, x) :: cs2).*1 m m' /\
    dom (nodes m') = dom (nodes m) ∖ {[e]}.
Proof.
  intros Hr.
  pose proof Hr as [Hobj Hnd Hch Hrg].
  rewrite first_ptr_app, last_ptr_app, last_ptr_cons, length_app in Hobj.
  rewrite length_app in Hrg.
  cbn [first_ptr fst length] in Hobj, Hrg.
  apply dlseg_app in Hch as [Hpre Hch]. cbn [first_ptr fst dlseg snd] in Hpre, Hch.
  destruct Hch as [He Hpost].
  rewrite fmap_app, fmap_cons in Hnd. cbn [fst] in Hnd.
  apply NoDup_app in Hnd as (Hnd1 & Hnd12 & Hnd2).
  apply NoDup_cons in Hnd2 as [Hecs2 Hnd2].
  assert (Hecs1 : e ∉ cs1.*1) by (intros ?; eapply Hnd12; [done | set_solver]).
  assert (Hdisj : forall b, b ∈ cs1.*1 -> b ∉ cs2.*1).
  { intros b Hb1 Hb2. eapply Hnd12; [done | set_solver]. }
  assert (Hcount : size_wrap (Z.of_nat (length cs1 + S (length cs2)) - 1)
                   = Z.of_nat (length (cs1 ++ cs2))).
  { rewrite size_wrap_pred, length_app; unfold HEAP_LIMIT; lia. }
  assert (Hrg' : Z.of_nat (length (cs1 ++ cs2)) < SIZE_MOD).
  { rewrite length_app. lia. }
  assert (Hnd' : NoDup (cs1 ++ cs2).*1).
  { rewrite fmap_app. apply NoDup_app. done. }
  unfold erase.
  destruct cs1 as [|[pv xp] cs1' _] using rev_ind;
    destruct cs2 as [|[nx xn] cs2'].
  - (* the only Node *)
    rewrite last_ptr_nil in He. cbn [last_ptr last first_ptr] in *. mrun.
    eexists. split; [reflexivity|]. split; [|split].
    + split; mred; [|done..]. rewrite lookup_insert_eq. by rewrite Hcount.
    + split; mred; [|intros b Hb1 [nd Hb]|done].
      * intros l Hl. by rewrite !lookup_insert_ne by done.
      * simpl in Hb1. rewrite lookup_delete_ne by set_solver. done.
    + mred. by rewrite dom_delete_L.
  - (* the head, with a successor *)
    rewrite last_ptr_nil in He. cbn [first_ptr fst] in He.
    destruct Hpost as [Hnx Hpost]. cbn [fst snd] in Hnx, Hpost.
    rewrite fmap_cons in Hecs2, Hnd2. cbn [fst] in Hecs2, Hnd2.
    apply NoDup_cons in Hnd2 as [Hnxcs Hnd2].
    assert (Hen : e <> nx) by set_solver.
    mrun.
    eexists. split; [reflexivity|]. split; [|split].
    + split; mred; [| done | | done].
      * rewrite lookup_insert_eq. rewrite Hcount. f_equal. f_equal.
        cbn [app]. by rewrite !last_ptr_cons.
      * simpl. split.
        -- rewrite lookup_delete_ne by done. by rewrite lookup_insert_eq.
        -- apply dlseg_delete_other; [set_solver|].
           apply dlseg_insert_fresh; [done | exact Hpost].
    + split; mred; [|intros b Hb1 [nd Hb]|done].
      * intros l Hl. by rewrite !lookup_insert_ne by done.
      * simpl in Hb1. rewrite lookup_delete_ne by set_solver.
        rewrite lookup_insert_ne by set_solver. done.
    + mred. rewrite dom_delete_L, dom_insert_L.
      assert (nx ∈ dom (nodes m)) by (apply elem_of_dom; eauto).
      set_solver.
  - (* the tail, with a predecessor *)
    rewrite last_ptr_snoc in He. cbn [first_ptr fst] in He.
    rewrite first_ptr_app, last_ptr_nil in Hobj. cbn [first_ptr fst] in Hobj.
    apply dlseg_app in Hpre as [Hpre Hpv]. apply dlseg_singleton in Hpv.
    cbn [first_ptr fst snd] in Hpre, Hpv.
    rewrite fmap_app in Hecs1, Hnd1. cbn [fmap list_fmap fst] in Hecs1, Hnd1.
    assert (Hep : e <> pv) by set_solver.
    apply NoDup_app in Hnd1 as (Hn1 & Hn2 & _).
    mrun.
    eexists. split; [reflexivity|]. split; [|split].
    + split; mred; [| done | | done].
      * rewrite lookup_insert_eq. rewrite Hcount. f_equal. f_equal.
        -- by rewrite app_nil_r, first_ptr_app.
        -- by rewrite app_nil_r, last_ptr_snoc.
      * rewrite app_nil_r. apply dlseg_app. split.
        -- apply dlseg_delete_other; [set_solver|].
           apply dlseg_insert_fresh; [|exact Hpre].
           intros ?. eapply Hn2; [done | set_solver].
        -- apply dlseg_singleton. simpl.
           rewrite lookup_delete_ne by done. by rewrite lookup_insert_eq.
    + split; mred; [|intros b Hb1 [nd Hb]|done].
      * intros l Hl. by rewrite !lookup_insert_ne by done.
      * rewrite !fmap_app in Hb1. simpl in Hb1.
        rewrite lookup_delete_ne by set_solver.
        rewrite lookup_insert_ne by set_solver. done.
    + mred. rewrite dom_delete_L, dom_insert_L.
      assert (pv ∈ dom (nodes m)) by (apply elem_of_dom; eauto).
      set_solver.
  - (* in the middle *)
    rewrite last_ptr_snoc in He. cbn [first_ptr fst] in He.
    rewrite first_ptr_app in Hobj. cbn [first_ptr fst] in Hobj.
    apply dlseg_app in Hpre as [Hpre Hpv]. apply dlseg_singleton in Hpv.
    cbn [first_ptr fst snd] in Hpre, Hpv.
    destruct Hpost as [Hnx Hpost]. cbn [fst snd] in Hnx, Hpost.
    rewrite fmap_app in Hecs1, Hnd1. cbn [fmap list_fmap fst] in Hecs1, Hnd1.
    rewrite fmap_cons in Hecs2, Hnd2. cbn [fst] in Hecs2, Hnd2.
    apply NoDup_cons in Hnd2 as [Hnxcs Hnd2].
    apply NoDup_app in Hnd1 as (Hn1 & Hn2 & _).
    assert (Hep : e <> pv) by set_solver.
    assert (Hen : e <> nx) by set_solver.
    assert (Hpn : pv <> nx).
    { intros ->. eapply (Hdisj nx); rewrite ?fmap_app, ?fmap_cons; set_solver. }
    assert (Hpcs1 : pv ∉ cs1'.*1) by (intros ?; eapply Hn2; [done | set_solver]).
    assert (Hpcs2 : pv ∉ cs2'.*1).
    { intros ?. eapply (Hdisj pv); rewrite ?fmap_app, ?fmap_cons; set_solver. }
    assert (Hncs1 : nx ∉ cs1'.*1).
    { intros ?. eapply (Hdisj nx); rewrite ?fmap_app, ?fmap_cons; set_solver. }
    mrun.
    eexists. split; [reflexivity|]. split; [|split].
    + split; mred; [| done | | done].
      * rewrite lookup_insert_eq. rewrite Hcount. f_equal. f_equal.
        -- by rewrite !first_ptr_app.
        -- by rewrite !last_ptr_app, !last_ptr_cons.
      * rewrite <- app_assoc. apply dlseg_app. split; [|split; [|split]].
        -- repeat first [ apply dlseg_delete_other; [set_solver|]
                        | apply dlseg_insert_fresh; [set_solver|] ].
           exact Hpre.
        -- cbn [fst snd first_ptr app].
           rewrite lookup_delete_ne by done.
           rewrite lookup_insert_ne by done. by rewrite lookup_insert_eq.
        -- cbn [fst snd first_ptr app].
           rewrite lookup_delete_ne by done. by rewrite lookup_insert_eq.
        -- repeat first [ apply dlseg_delete_other; [set_solver|]
                        | apply dlseg_insert_fresh; [set_solver|] ].
           exact Hpost.
    + split; mred; [|intros b Hb1 [nd Hb]|done].
      * intros l Hl. by rewrite !lookup_insert_ne by done.
      * rewrite !fmap_app, !fmap_cons in Hb1. simpl in Hb1.
        rewrite lookup_delete_ne by set_solver.
        rewrite !lookup_insert_ne by set_solver. done.
    + mred. rewrite dom_delete_L, !dom_insert_L.
      assert (pv ∈ dom (nodes m)) by (apply elem_of_dom; eauto).
      assert (nx ∈ dom (nodes m)) by (apply elem_of_dom; eauto).
      set_solver.
Qed.

(** *** insert (the [const T&] overload)

    The position is the place between [cs1] and [cs2]: the iterator of
    the first Node of [cs2], or [end()] when [cs2] is empty.  On an empty
    list the iterator is not looked at. *)

Lemma insert_spec m this cs1 cs2 (it : iterator) d :
  repr m this (cs1 ++ cs2) ->
  it = first_ptr cs2 None \/ cs1 ++ cs2 = [] ->
  (heap_cells m < HEAP_LIMIT /\
   exists a m', insert this it d m = Ok (Some a) m' /\
     nodes m !! a = None /\
     repr m' this (cs1 ++ (a, d) :: cs2) /\
     frame this (cs1 ++ cs2).*1 m m' /\
     dom (nodes m') = {[a]} ∪ dom (nodes m)) \/
  (HEAP_LIMIT <= heap_cells m /\ insert this it d m = Throw m).
Proof.
  intros Hr Hit.
  destruct (new_node_cases (mkNode d None None) m)
    as [[Hroom (a & Ha & Hnew)] | [Hfull Hnew]];
    [left; split; [done|] | right; split; [done|]];
    unfold insert.
  2: { by apply bind_Throw. }
  rewrite (bind_Ok _ _ _ _ _ Hnew).
  pose proof (repr_length_size _ _ _ Hr) as Hlen.
  pose proof (repr_not_fresh _ _ _ _ Hr Ha) as Hacs.
  pose proof (heap_cells_nodes m) as Hcells.
  destruct Hr as [Hobj Hnd Hch Hrg].
  rewrite first_ptr_app, last_ptr_app, length_app in Hobj.
  rewrite length_app in Hrg, Hlen.
  rewrite fmap_app in Hnd, Hacs.
  assert (Hrg' : Z.of_nat (length (cs1 ++ (a, d) :: cs2)) < SIZE_MOD).
  { rewrite length_app. cbn [length]. unfold HEAP_LIMIT in *. lia. }
  assert (Hcount : size_wrap (Z.of_nat (length cs1 + length cs2) + 1)
                   = Z.of_nat (length (cs1 ++ (a, d) :: cs2))).
  { rewrite length_app. cbn [length]. rewrite size_wrap_succ; lia. }
  assert (Hnd' : NoDup (cs1 ++ (a, d) :: cs2).*1).
  { rewrite fmap_app, fmap_cons. cbn [fst].
    apply NoDup_app in Hnd as (Hn1 & Hn12 & Hn2).
    apply NoDup_app. split; [done|]. split.
    - intros b Hb1 Hb2. apply elem_of_cons in Hb2 as [->|Hb2].
      + apply Hacs. set_solver.
      + by apply (Hn12 b).
    - apply NoDup_cons. split; [set_solver | done]. }
  apply dlseg_app in Hch as [Hpre Hpost].
  exists a.
  destruct cs2 as [|[e x] cs2'].
  - (* at end() *)
    rewrite app_nil_r in Hit. cbn [first_ptr] in Hit, Hobj, Hpre.
    rewrite last_ptr_nil in Hobj.
    destruct cs1 as [|[t xt] cs1' _] using rev_ind.
    + (* the list is empty *)
      cbn [first_ptr] in Hobj. rewrite last_ptr_nil in Hobj. mrun.
      eexists. split; [reflexivity|]. split; [done|]. split; [|split].
      * split; mred; [|done| |done].
        -- by rewrite lookup_insert_eq.
        -- simpl. by rewrite lookup_insert_eq.
      * split; mred; [|intros b _ [nd Hb]|done].
        -- intros l Hl. by rewrite !lookup_insert_ne by done.
        -- rewrite lookup_insert_ne; [done|]. congruence.
      * mred. by rewrite dom_insert_L.
    + destruct Hit as [-> | Hit]; [|by apply app_nil in Hit as [_ ?]].
      rewrite first_ptr_app, last_ptr_snoc in Hobj. cbn [first_ptr fst] in Hobj.
      apply dlseg_app in Hpre as [Hpre Hlast]. apply dlseg_singleton in Hlast.
      cbn [fst snd first_ptr] in Hpre, Hlast.
      rewrite fmap_app in Hnd, Hacs. cbn [fmap list_fmap fst] in Hnd, Hacs.
      rewrite app_nil_r in Hnd.
      apply NoDup_app in Hnd as (Hnd1 & Hnd2 & _).
      assert (Hat : a <> t) by set_solver.
      assert (Htcs : t ∉ cs1'.*1) by (intros ?; eapply Hnd2; [done | set_solver]).
      assert (Hfne : first_ptr cs1' (Some t) <> None) by (by destruct cs1').
      mrun.
      eexists. split; [reflexivity|]. split; [done|]. split; [|split].
      * split; mred; [|done| |done].
        -- rewrite lookup_insert_eq. rewrite Hcount. f_equal. f_equal.
           ++ by rewrite !first_ptr_app.
           ++ by rewrite last_ptr_snoc.
        -- rewrite <- app_assoc. apply dlseg_app. cbn [app]. split; [|split; [|split]].
           ++ repeat (apply dlseg_insert_fresh; [set_solver|]). exact Hpre.
           ++ cbn [fst snd first_ptr].
              rewrite lookup_insert_ne by done. by rewrite lookup_insert_eq.
           ++ cbn [fst snd first_ptr]. by rewrite lookup_insert_eq.
           ++ done.
      * split; mred; [|intros b Hb1 [nd Hb]|done].
        -- intros l Hl. by rewrite !lookup_insert_ne by done.
        -- rewrite app_nil_r, fmap_app in Hb1. simpl in Hb1.
           rewrite !lookup_insert_ne by (first [congruence | set_solver]). done.
      * mred. rewrite !dom_insert_L.
        assert (t ∈ dom (nodes m)) by (apply elem_of_dom; eauto).
        set_solver.
  - (* before the Node [e] *)
    destruct Hit as [-> | Hit]; [|by apply app_nil in Hit as [_ ?]].
    cbn [first_ptr fst] in Hobj, Hpre |- *.
    destruct Hpost as [He Hpost]. cbn [fst snd] in He, Hpost.
    rewrite fmap_cons in Hnd, Hacs. cbn [fst] in Hnd, Hacs.
    apply NoDup_app in Hnd as (Hnd1 & Hnd12 & Hnd2).
    apply NoDup_cons in Hnd2 as [Hecs2 Hnd2].
    assert (Hae : a <> e) by set_solver.
    assert (Hecs1 : e ∉ cs1.*1) by (intros ?; eapply Hnd12; [done | set_solver]).
    assert (Hfne : first_ptr cs1 (Some e) <> None) by (by destruct cs1).
    destruct cs1 as [|[pv xp] cs1' _] using rev_ind.
    + (* [e] is the head *)
      rewrite last_ptr_nil in He. cbn [first_ptr fst] in Hobj.
      mrun.
      eexists. split; [reflexivity|]. split; [done|]. split; [|split].
      * split; mred; [|done| |done].
        -- by rewrite lookup_insert_eq, Hcount.
        -- cbn [app dlseg fst snd first_ptr]. split; [|split].
           ++ rewrite lookup_insert_ne by done. by rewrite lookup_insert_eq.
           ++ by rewrite lookup_insert_eq.
           ++ repeat (apply dlseg_insert_fresh; [set_solver|]). exact Hpost.
      * split; mred; [|intros b Hb1 [nd Hb]|done].
        -- intros l Hl. by rewrite !lookup_insert_ne by done.
        -- simpl in Hb1.
           rewrite !lookup_insert_ne by (first [congruence | set_solver]). done.
      * mred. rewrite !dom_insert_L.
        assert (e ∈ dom (nodes m)) by (apply elem_of_dom; eauto).
        set_solver.
    + (* [e] has a predecessor *)
      rewrite last_ptr_snoc in He. cbn [fst] in He.
      rewrite first_ptr_app in Hobj. cbn [first_ptr fst] in Hobj.
      assert (Hfne' : first_ptr cs1' (Some pv) <> None) by (by destruct cs1').
      apply dlseg_app in Hpre as [Hpre Hpv]. apply dlseg_singleton in Hpv.
      cbn [first_ptr fst snd] in Hpre, Hpv.
      rewrite fmap_app in Hecs1, Hnd1, Hacs. cbn [fmap list_fmap fst] in Hecs1, Hnd1, Hacs.
      apply NoDup_app in Hnd1 as (Hn1 & Hn2 & _).
      assert (Hep : e <> pv) by set_solver.
      assert (Hap : a <> pv) by set_solver.
      assert (Hpcs1 : pv ∉ cs1'.*1) by (intros ?; eapply Hn2; [done | set_solver]).
      assert (Hpcs2 : pv ∉ cs2'.*1).
      { intros ?. eapply (Hnd12 pv); rewrite ?fmap_app; set_solver. }
      assert (Hecs1' : e ∉ cs1'.*1) by set_solver.
      mrun.
      eexists. split; [reflexivity|]. split; [done|]. split; [|split].
      * split; mred; [|done| |done].
        -- rewrite lookup_insert_eq. rewrite Hcount. f_equal. f_equal.
           ++ by rewrite !first_ptr_app.
           ++ by rewrite !last_ptr_app, !last_ptr_cons.
        -- rewrite <- app_assoc. apply dlseg_app. cbn [app dlseg fst snd first_ptr].
           split; [|split; [|split; [|split]]].
           ++ repeat (apply dlseg_insert_fresh; [set_solver|]). exact Hpre.
           ++ rewrite lookup_insert_ne by done. by rewrite lookup_insert_eq.
           ++ rewrite !lookup_insert_ne by done. by rewrite lookup_insert_eq.
           ++ by rewrite lookup_insert_eq.
           ++ repeat (apply dlseg_insert_fresh; [set_solver|]). exact Hpost.
      * split; mred; [|intros b Hb1 [nd Hb]|done].
        -- intros l Hl. by rewrite !lookup_insert_ne by done.
        -- rewrite !fmap_app, !fmap_cons in Hb1. simpl in Hb1.
           rewrite !lookup_insert_ne by (first [congruence | set_solver]). done.
      * mred. rewrite !dom_insert_L.
        assert (e ∈ dom (nodes m)) by (apply elem_of_dom; eauto).
        assert (pv ∈ dom (nodes m)) by (apply elem_of_dom; eauto).
        set_solver.
Qed.

(** The [T&&] overload returns [end()] and leaves the store as it is. *)
Lemma insert_move_spec m this (it : iterator) d :
  insert_move this it d m = Ok None m.
Proof. reflexivity. Qed.

(** *** Frames compose; the size of the heap *)

Lemma frame_trans this own1 own2 m m1 m2 :
  frame this own1 m m1 -> frame this own2 m1 m2 ->
  (forall b, b ∈ own2 -> b ∈ own1 \/ nodes m !! b = None) ->
  frame this own1 m m2.
Proof.
  intros [Hl1 Hn1 Ho1] [Hl2 Hn2 Ho2] Hown. split.
  - intros l Hl. by rewrite Hl2, Hl1.
  - intros b Hb Hsome. rewrite <- (Hn1 b Hb Hsome). apply Hn2.
    + intros Hb2. destruct (Hown b Hb2) as [?|Hnone]; [done|].
      rewrite Hnone in Hsome. by destruct Hsome.
    + by rewrite (Hn1 b Hb Hsome).
  - congruence.
Qed.

Lemma frame_repr this own m m' other cs :
  frame this own m m' -> other <> this ->
  (forall b, b ∈ cs.*1 -> b ∉ own) ->
  repr m other cs -> repr m' other cs.
Proof.
  intros [Hl Hn _] Hne Hdisj Hr. eapply repr_frame; [done | by apply Hl |].
  intros a Ha. apply Hn; [by apply Hdisj|].
  eapply dlseg_is_Some; [apply (repr_chain _ _ _ Hr) | done].
Qed.

Lemma heap_cells_alloc m m' a :
  dom (nodes m') = {[a]} ∪ dom (nodes m) -> nodes m !! a = None ->
  objs m' = objs m -> heap_cells m' = heap_cells m + 1.
Proof.
  intros Hdom Ha Ho. unfold heap_cells. rewrite Ho.
  rewrite <- !size_dom, Hdom, size_union, size_singleton; [lia|].
  apply not_elem_of_dom in Ha. set_solver.
Qed.

Lemma heap_cells_free m m' (ls : list loc) :
  dom (nodes m') = dom (nodes m) ∖ list_to_set ls ->
  NoDup ls -> (forall a, a ∈ ls -> is_Some (nodes m !! a)) ->
  objs m' = objs m -> heap_cells m' = heap_cells m - Z.of_nat (length ls).
Proof.
  intros Hdom Hnd Hin Ho. unfold heap_cells. rewrite Ho.
  assert (Hsub : list_to_set ls ⊆ dom (nodes m)).
  { intros a Ha. apply elem_of_list_to_set in Ha. apply elem_of_dom. auto. }
  pose proof (subseteq_size _ _ Hsub) as Hle.
  rewrite <- !size_dom, Hdom, size_difference by done.
  rewrite size_list_to_set in * by done. lia.
Qed.

(** *** clear *)

Lemma clear_loop_spec (fuel : nat) m this cs L prev :
  lists m !! this = Some L -> pHead L = first_ptr cs None ->
  NoDup cs.*1 -> dlseg (nodes m) prev cs None ->
  (length cs <= fuel)%nat ->
  exists m', clear_loop fuel this m = Ok tt m' /\
    lists m' = <[this := mkList (numElements L) None (pTail L)]> (lists m) /\
    objs m' = objs m /\
    (forall b, b ∉ cs.*1 -> nodes m' !! b = nodes m !! b) /\
    dom (nodes m') = dom (nodes m) ∖ list_to_set cs.*1.
Proof.
  revert fuel m L prev.
  induction cs as [|[e x] cs IH]; intros fuel m L prev Hobj Hhead Hnd Hch Hfuel.
  - destruct L as [n hd tl]. cbn [pHead first_ptr] in Hhead. subst hd.
    exists m. split; [|split; [|split; [done|split; [done|]]]].
    + destruct fuel; cbn [clear_loop]; by mrun.
    + cbn [numElements pTail]. by rewrite insert_id.
    + simpl. set_solver.
  - destruct fuel as [|fuel]; [simpl in Hfuel; lia|].
    cbn [first_ptr fst] in Hhead. destruct Hch as [He Hrest].
    cbn [fst snd] in He, Hrest.
    rewrite fmap_cons in Hnd. cbn [fst] in Hnd.
    apply NoDup_cons in Hnd as [Hecs Hnd].
    destruct L as [n hd tl]. cbn [pHead] in Hhead. subst hd.
    set (m1 := mkMem (delete e (nodes m)) (objs m)
                     (<[this := mkList n (first_ptr cs None) tl]> (lists m))).
    destruct (IH fuel m1 (mkList n (first_ptr cs None) tl) (Some e))
      as (m' & Hrun & Hl' & Ho' & Hn' & Hd').
    { unfold m1. mred. by rewrite lookup_insert_eq. }
    { done. }
    { done. }
    { unfold m1. mred. by apply dlseg_delete_other. }
    { simpl in Hfuel. lia. }
    exists m'. split; [|split; [|split; [|split]]].
    + rewrite <- Hrun. cbn [clear_loop]. mrun. done.
    + rewrite Hl'. unfold m1. mred. by rewrite insert_insert_eq.
    + by rewrite Ho'.
    + intros b Hb. rewrite fmap_cons in Hb. cbn [fst] in Hb.
      rewrite Hn' by set_solver. unfold m1. mred.
      rewrite lookup_delete_ne by set_solver. done.
    + rewrite Hd'. unfold m1. mred. rewrite dom_delete_L, fmap_cons. simpl.
      set_solver.
Qed.

Lemma clear_spec (fuel : nat) m this cs :
  repr m this cs -> (length cs <= fuel)%nat ->
  exists m', clear fuel this m = Ok tt m' /\
    repr m' this [] /\
    frame this cs.*1 m m' /\
    dom (nodes m') = dom (nodes m) ∖ list_to_set cs.*1 /\
    heap_cells m' = heap_cells m - Z.of_nat (length cs).
Proof.
  intros Hr Hfuel. pose proof Hr as [Hobj Hnd Hch Hrg].
  destruct (clear_loop_spec fuel m this cs _ None Hobj eq_refl Hnd Hch Hfuel)
    as (m1 & Hrun & Hl1 & Ho1 & Hn1 & Hd1).
  cbn [numElements pTail] in Hl1.
  unfold clear. rewrite (bind_Ok _ _ _ _ _ Hrun).
  assert (Hobj1 : lists m1 !! this
                  = Some (mkList (Z.of_nat (length cs)) None (last_ptr cs None))).
  { rewrite Hl1. by rewrite lookup_insert_eq. }
  mrun.
  eexists. split; [reflexivity|]. split; [|split; [|split]].
  - split; mred; [|apply NoDup_nil_2|done|done].
    by rewrite lookup_insert_eq.
  - split; mred; [| |done].
    + intros l Hl. rewrite !lookup_insert_ne by done. rewrite Hl1.
      by rewrite lookup_insert_ne.
    + intros b Hb _. by apply Hn1.
  - done.
  - rewrite <- (length_fmap fst cs).
    eapply heap_cells_free; mred; [exact Hd1 | exact Hnd | | done].
    intros a Ha. eapply dlseg_is_Some; eauto.
Qed.

(** *** The copy loop *)

Lemma get_data_Ok m a nd :
  nodes m !! a = Some nd -> get_data (Some a) m = Ok (data nd) m.
Proof. intros H. by mrun. Qed.

Lemma get_next_Ok m a nd :
  nodes m !! a = Some nd -> get_next (Some a) m = Ok (pNext nd) m.
Proof. intros H. by mrun. Qed.

Lemma get_prev_Ok m a nd :
  nodes m !! a = Some nd -> get_prev (Some a) m = Ok (pPrev nd) m.
Proof. intros H. by mrun. Qed.

Lemma get_pHead_Ok m this L :
  lists m !! this = Some L -> get_pHead this m = Ok (pHead L) m.
Proof. intros H. by mrun. Qed.

Lemma get_pTail_Ok m this L :
  lists m !! this = Some L -> get_pTail this m = Ok (pTail L) m.
Proof. intros H. by mrun. Qed.

Lemma get_numElements_Ok m this L :
  lists m !! this = Some L -> get_numElements this m = Ok (numElements L) m.
Proof. intros H. by mrun. Qed.

(** The loop walks the rest [cr2] of the source chain and appends a copy
    of each element to [this]; the source is left as it is.  It ends
    normally, or with [std::bad_alloc] once the heap is full. *)
Lemma copy_loop_spec (fuel : nat) m this rhs cs cr1 cr2 :
  this <> rhs ->
  repr m this cs -> repr m rhs (cr1 ++ cr2) ->
  (forall b, b ∈ (cr1 ++ cr2).*1 -> b ∉ cs.*1) ->
  (length cr2 <= fuel)%nat ->
  exists m' new,
    ((copy_loop fuel this (first_ptr cr2 None) m = Ok tt m' /\
      new.*2 = cr2.*2) \/
     (copy_loop fuel this (first_ptr cr2 None) m = Throw m' /\
      HEAP_LIMIT <= heap_cells m' /\ (length new < length cr2)%nat)) /\
    repr m' this (cs ++ new) /\
    repr m' rhs (cr1 ++ cr2) /\
    frame this cs.*1 m m' /\
    (forall b, b ∈ new.*1 -> nodes m !! b = None) /\
    heap_cells m' = heap_cells m + Z.of_nat (length new).
Proof.
  revert fuel m cs cr1.
  induction cr2 as [|[e x] cr2 IH]; intros fuel m cs cr1 Hne Hthis Hrhs Hdisj Hfuel.
  - exists m, []. rewrite app_nil_r. split; [left; split; [|done]|].
    { destruct fuel; cbn [copy_loop first_ptr]; by mrun. }
    split; [done|]. split; [done|]. split; [apply frame_refl|].
    split; [by intros b Hb; apply elem_of_nil in Hb|]. simpl. lia.
  - destruct fuel as [|fuel]; [simpl in Hfuel; lia|].
    pose proof (repr_chain _ _ _ Hrhs) as Hch.
    apply dlseg_app in Hch as [_ [He _]]. cbn [fst snd] in He.
    cbn [first_ptr fst copy_loop].
    rewrite bool_decide_true by done.
    rewrite (bind_Ok _ _ _ _ _ (get_data_Ok _ _ _ He)). cbn [data].
    destruct (push_back_spec m this cs x Hthis)
      as [[Hroom (a & m1 & Hpush & Ha & Hthis1 & Hfr1 & Hdom1)] | [Hfull Hpush]].
    2: { exists m, []. rewrite app_nil_r. split.
         - right. split; [by apply bind_Throw|]. split; [done|]. simpl. lia.
         - split; [done|]. split; [done|]. split; [apply frame_refl|].
           split; [by intros b Hb; apply elem_of_nil in Hb|]. simpl. lia. }
    rewrite (bind_Ok _ _ _ _ _ Hpush).
    assert (Hrhs1 : repr m1 rhs (cr1 ++ (e, x) :: cr2)).
    { eapply frame_repr; [exact Hfr1 | done | | exact Hrhs].
      intros b Hb. by apply Hdisj. }
    assert (He1 : nodes m1 !! e = nodes m !! e).
    { apply (frame_nodes _ _ _ _ Hfr1).
      - apply Hdisj. rewrite fmap_app, fmap_cons. set_solver.
      - rewrite He. eauto. }
    rewrite He in He1.
    rewrite (bind_Ok _ _ _ _ _ (get_next_Ok _ _ _ He1)). cbn [pNext].
    destruct (IH fuel m1 (cs ++ [(a, x)]) (cr1 ++ [(e, x)]))
      as (m' & new & Hrun & Hthis' & Hrhs' & Hfr' & Hfresh' & Hcells').
    { done. }
    { done. }
    { by rewrite <- app_assoc. }
    { rewrite <- app_assoc. cbn [app]. intros b Hb.
      rewrite fmap_app. cbn [fmap list_fmap fst]. intros Hin.
      apply elem_of_app in Hin as [Hin | Hin]; [by apply (Hdisj b)|].
      apply list_elem_of_singleton in Hin as ->.
      eapply dlseg_is_Some in Hb; [|apply (repr_chain _ _ _ Hrhs)].
      rewrite Ha in Hb. by destruct Hb. }
    { simpl in Hfuel. lia. }
    rewrite <- !app_assoc in Hthis', Hrhs'. cbn [app] in Hthis', Hrhs'.
    pose proof (heap_cells_alloc _ _ _ Hdom1 Ha (frame_objs _ _ _ _ Hfr1)) as Hc1.
    exists m', ((a, x) :: new). split; [|split; [done|split; [done|split; [|split]]]].
    + destruct Hrun as [[Hrun Hvals] | (Hrun & Hfull & Hshort)].
      * left. split; [done|]. rewrite !fmap_cons. cbn [snd]. by f_equal.
      * right. split; [done|]. split; [done|]. simpl. lia.
    + eapply frame_trans; [exact Hfr1 | exact Hfr' |].
      intros b Hb. rewrite fmap_app in Hb. cbn [fmap list_fmap fst] in Hb.
      apply elem_of_app in Hb as [Hb | Hb]; [by left|].
      apply list_elem_of_singleton in Hb as ->. by right.
    + intros b Hb. rewrite fmap_cons in Hb. cbn [fst] in Hb.
      apply elem_of_cons in Hb as [-> | Hb]; [done|].
      pose proof (Hfresh' b Hb) as Hb1.
      destruct (nodes m !! b) eqn:Hmb; [|done].
      assert (b ∉ cs.*1) as Hbcs.
      { intros Hin. pose proof (repr_nodup _ _ _ Hthis') as Hnd.
        rewrite fmap_app, fmap_cons in Hnd.
        apply NoDup_app in Hnd as (_ & Hnd & _). apply (Hnd b Hin). set_solver. }
      rewrite <- (frame_nodes _ _ _ _ Hfr1 b Hbcs) in Hmb by (rewrite Hmb; eauto).
      congruence.
    + rewrite Hcells', Hc1. cbn [length]. lia.
Qed.

(** *** Positions *)

Lemma advance_spec m prev cs (n : nat) :
  dlseg (nodes m) prev cs None -> (n <= length cs)%nat ->
  advance n (first_ptr cs None) m = Ok (first_ptr (drop n cs) None) m.
Proof.
  revert prev cs. induction n as [|n IH]; intros prev cs Hch Hn.
  - by rewrite drop_0.
  - destruct cs as [|[e x] cs]; [simpl in Hn; lia|].
    destruct Hch as [He Hrest]. cbn [fst snd] in He, Hrest.
    cbn [advance first_ptr fst drop]. unfold it_incr.
    rewrite (bind_Ok _ _ _ _ _ (get_next_Ok _ _ _ He)). cbn [pNext].
    apply (IH (Some e)); [done | simpl in Hn; lia].
Qed.

Lemma iter_at_spec m this cs (n : nat) :
  repr m this cs -> (n <= length cs)%nat ->
  iter_at this n m = Ok (first_ptr (drop n cs) None) m.
Proof.
  intros [Hobj _ Hch _] Hn. unfold iter_at, begin.
  rewrite (bind_Ok _ _ _ _ _ (get_pHead_Ok _ _ _ Hobj)). cbn [pHead].
  by eapply advance_spec.
Qed.

(** *** One call, then a sequence of calls *)

Lemma owned_since_refl m own : owned_since m own own.
Proof. intros b Hb. by left. Qed.

Lemma run_op_spec m this cs (o : op T) xs' :
  repr m this cs -> seq_op cs.*2 o = Some xs' ->
  exists m' cs',
    (run_op this o m = Ok tt m' /\ cs'.*2 = xs' \/ run_op this o m = Throw m') /\
    repr m' this cs' /\
    frame this cs.*1 m m' /\
    owned_since m cs.*1 cs'.*1.
Proof.
  intros Hr Hseq.
  assert (Hthrow : forall c : M (T:=T) unit, c m = Throw m ->
            exists m' cs',
              (c m = Ok tt m' /\ cs'.*2 = xs' \/ c m = Throw m') /\
              repr m' this cs' /\ frame this cs.*1 m m' /\
              owned_since m cs.*1 cs'.*1).
  { intros c Hc. exists m, cs. split; [by right|]. split; [done|].
    split; [apply frame_refl | apply owned_since_refl]. }
  destruct o as [d|d|d|d| | |pos d|pos d|pos]; cbn [seq_op run_op] in *.
  - (* push_front *)
    injection Hseq as <-.
    destruct (push_front_spec m this cs d Hr)
      as [[_ (a & m' & Hrun & Ha & Hr' & Hfr & _)] | [_ Hrun]]; [|by apply Hthrow].
    exists m', ((a, d) :: cs). split; [by left|]. split; [done|]. split; [done|].
    intros b Hb. rewrite fmap_cons in Hb. cbn [fst] in Hb.
    apply elem_of_cons in Hb as [-> | Hb]; [by right | by left].
  - injection Hseq as <-. unfold push_front_move.
    destruct (push_front_spec m this cs d Hr)
      as [[_ (a & m' & Hrun & Ha & Hr' & Hfr & _)] | [_ Hrun]]; [|by apply Hthrow].
    exists m', ((a, d) :: cs). split; [by left|]. split; [done|]. split; [done|].
    intros b Hb. rewrite fmap_cons in Hb. cbn [fst] in Hb.
    apply elem_of_cons in Hb as [-> | Hb]; [by right | by left].
  - (* push_back *)
    injection Hseq as <-.
    destruct (push_back_spec m this cs d Hr)
      as [[_ (a & m' & Hrun & Ha & Hr' & Hfr & _)] | [_ Hrun]]; [|by apply Hthrow].
    exists m', (cs ++ [(a, d)]). split; [left; split; [done|by rewrite fmap_app]|].
    split; [done|]. split; [done|].
    intros b Hb. rewrite fmap_app in Hb. cbn [fmap list_fmap fst] in Hb.
    apply elem_of_app in Hb as [Hb | Hb]; [by left|].
    apply list_elem_of_singleton in Hb as ->. by right.
  - injection Hseq as <-. unfold push_back_move.
    destruct (push_back_spec m this cs d Hr)
      as [[_ (a & m' & Hrun & Ha & Hr' & Hfr & _)] | [_ Hrun]]; [|by apply Hthrow].
    exists m', (cs ++ [(a, d)]). split; [left; split; [done|by rewrite fmap_app]|].
    split; [done|]. split; [done|].
    intros b Hb. rewrite fmap_app in Hb. cbn [fmap list_fmap fst] in Hb.
    apply elem_of_app in Hb as [Hb | Hb]; [by left|].
    apply list_elem_of_singleton in Hb as ->. by right.
  - (* pop_front *)
    injection Hseq as <-.
    destruct (pop_front_spec m this cs Hr) as (m' & Hrun & Hr' & Hfr & _).
    exists m', (tail cs). split; [left; split; [done|by destruct cs]|].
    split; [done|]. split; [done|].
    intros b Hb. left. destruct cs; [done|]. rewrite fmap_cons. set_solver.
  - (* pop_back *)
    injection Hseq as <-.
    destruct (pop_back_spec m this cs Hr) as (m' & Hrun & Hr' & Hfr & _).
    exists m', (removelast cs). split; [left; split; [done|]|].
    { destruct cs as [|c cs _] using rev_ind; [done|].
      rewrite removelast_last, fmap_app.
      symmetry. apply (removelast_last cs.*2 c.2). }
    split; [done|]. split; [done|].
    intros b Hb. left. destruct cs as [|c cs _] using rev_ind; [done|].
    rewrite removelast_last in Hb. rewrite fmap_app. set_solver.
  - (* insert, const T& *)
    rewrite length_fmap in Hseq.
    destruct (pos <=? length cs)%nat eqn:Hpos; [|done]. apply Nat.leb_le in Hpos.
    injection Hseq as <-.
    rewrite (bind_Ok _ _ _ _ _ (iter_at_spec _ _ _ _ Hr Hpos)).
    rewrite <- (take_drop pos cs) in Hr.
    destruct (insert_spec m this _ _ _ d Hr (or_introl eq_refl))
      as [[_ (a & m' & Hrun & Ha & Hr' & Hfr & _)] | [_ Hrun]].
    2: { apply Hthrow. by rewrite (bind_Throw _ _ _ _ Hrun). }
    rewrite take_drop in Hfr.
    exists m', (take pos cs ++ (a, d) :: drop pos cs). split; [left; split|].
    { by rewrite (bind_Ok _ _ _ _ _ Hrun). }
    { by rewrite fmap_app, fmap_cons, fmap_take, fmap_drop. }
    split; [done|]. split; [done|].
    intros b Hb. rewrite fmap_app, fmap_cons in Hb. cbn [fst] in Hb.
    rewrite <- (take_drop pos cs), fmap_app.
    set_solver.
  - (* insert, T&& *)
    rewrite length_fmap in Hseq.
    destruct (pos <=? length cs)%nat eqn:Hpos; [|done]. apply Nat.leb_le in Hpos.
    injection Hseq as <-.
    rewrite (bind_Ok _ _ _ _ _ (iter_at_spec _ _ _ _ Hr Hpos)).
    exists m, cs. split; [by left|]. split; [done|].
    split; [apply frame_refl | apply owned_since_refl].
  - (* erase *)
    rewrite length_fmap in Hseq.
    destruct (pos <=? length cs)%nat eqn:Hpos; [|done]. apply Nat.leb_le in Hpos.
    injection Hseq as <-.
    rewrite (bind_Ok _ _ _ _ _ (iter_at_spec _ _ _ _ Hr Hpos)).
    destruct (cs !! pos) as [[e x]|] eqn:Hlk.
    + rewrite (drop_S _ _ _ Hlk). cbn [first_ptr fst].
      rewrite <- (take_drop_middle _ _ _ Hlk) in Hr.
      destruct (erase_spec m this _ _ _ _ Hr) as (m' & Hrun & Hr' & Hfr & _).
      rewrite (take_drop_middle _ _ _ Hlk) in Hfr.
      exists m', (take pos cs ++ drop (S pos) cs). split; [left; split|].
      { by rewrite (bind_Ok _ _ _ _ _ Hrun). }
      { by rewrite fmap_app, fmap_take, fmap_drop. }
      split; [done|]. split; [done|].
      intros b Hb. left. rewrite <- (take_drop_middle _ _ _ Hlk).
      rewrite fmap_app in Hb |- *. rewrite fmap_cons. set_solver.
    + apply lookup_ge_None in Hlk.
      rewrite drop_ge by done. cbn [first_ptr].
      exists m, cs. split; [left; split; [done|]|].
      { rewrite take_ge, drop_ge, app_nil_r; rewrite ?length_fmap; [done|lia..]. }
      split; [done|]. split; [apply frame_refl | apply owned_since_refl].
Qed.

Lemma run_ops_spec m this cs (ops : list (op T)) xs' :
  repr m this cs -> seq_ops cs.*2 ops = Some xs' ->
  exists m' cs',
    (run_ops this ops m = Ok tt m' /\ cs'.*2 = xs' \/ run_ops this ops m = Throw m') /\
    repr m' this cs' /\
    frame this cs.*1 m m' /\
    owned_since m cs.*1 cs'.*1.
Proof.
  revert m cs. induction ops as [|o ops IH]; intros m cs Hr Hseq.
  - injection Hseq as <-. exists m, cs. split; [by left|]. split; [done|].
    split; [apply frame_refl | apply owned_since_refl].
  - cbn [seq_ops run_ops] in *.
    destruct (seq_op cs.*2 o) as [xs1|] eqn:Hop; [|done].
    destruct (run_op_spec m this cs o xs1 Hr Hop)
      as (m1 & cs1 & Hrun1 & Hr1 & Hfr1 & Hown1).
    destruct Hrun1 as [[Hrun1 <-] | Hrun1].
    2: { exists m1, cs1. split; [right; by apply bind_Throw|]. done. }
    destruct (IH m1 cs1 Hr1 Hseq) as (m' & cs' & Hrun & Hr' & Hfr & Hown).
    exists m', cs'. rewrite (bind_Ok _ _ _ _ _ Hrun1).
    split; [done|]. split; [done|]. split.
    + eapply frame_trans; eauto.
    + intros b Hb. destruct (Hown b Hb) as [Hb1 | Hb1]; [by apply Hown1|].
      destruct (nodes m !! b) eqn:Hmb; [|by right]. left.
      destruct (decide (b ∈ cs.*1)) as [|Hnin]; [done|].
      rewrite (frame_nodes _ _ _ _ Hfr1 b Hnin) in Hb1 by (rewrite Hmb; eauto).
      congruence.
Qed.

(** *** Constructors *)

Lemma list_default_spec m this :
  exists m', list_default this m = Ok tt m' /\ repr m' this [] /\
             frame this [] m m'.
Proof.
  unfold list_default. mrun. eexists. split; [reflexivity|]. split.
  - split; mred; [by rewrite lookup_insert_eq | apply NoDup_nil_2 | done | done].
  - split; mred; [|done..]. intros l Hl. by rewrite lookup_insert_ne.
Qed.

Lemma list_move_spec m this rhs cr :
  this <> rhs -> repr m rhs cr ->
  exists m', list_move this rhs m = Ok tt m' /\
    repr m' this cr /\ repr m' rhs [] /\
    nodes m' = nodes m /\ objs m' = objs m /\
    (forall l, l <> this -> l <> rhs -> lists m' !! l = lists m !! l).
Proof.
  intros Hne [Hobj Hnd Hch Hrg]. unfold list_move. mrun.
  eexists. split; [reflexivity|]. split; [|split; [|split; [done|split; [done|]]]].
  - split; mred; [|done..].
    rewrite !lookup_insert_ne by done. by rewrite lookup_insert_eq.
  - split; mred; [by rewrite lookup_insert_eq | apply NoDup_nil_2 | done | done].
  - mred. intros l Hl1 Hl2. by rewrite !lookup_insert_ne.
Qed.

Lemma push_back_all_spec m this cs (il : list T) :
  repr m this cs ->
  exists m' new,
    (push_back_all this il m = Ok tt m' /\ new.*2 = il \/
     push_back_all this il m = Throw m') /\
    repr m' this (cs ++ new) /\
    frame this cs.*1 m m' /\
    owned_since m cs.*1 (cs ++ new).*1.
Proof.
  revert m cs. induction il as [|d il IH]; intros m cs Hr.
  - exists m, []. rewrite app_nil_r. split; [by left|]. split; [done|].
    split; [apply frame_refl | apply owned_since_refl].
  - cbn [push_back_all].
    destruct (push_back_spec m this cs d Hr)
      as [[_ (a & m1 & Hrun1 & Ha & Hr1 & Hfr1 & _)] | [_ Hrun1]].
    2: { exists m, []. rewrite app_nil_r. split; [right; by apply bind_Throw|].
         split; [done|]. split; [apply frame_refl | apply owned_since_refl]. }
    rewrite (bind_Ok _ _ _ _ _ Hrun1).
    destruct (IH m1 _ Hr1) as (m' & new & Hrun & Hr' & Hfr & Hown).
    rewrite <- app_assoc in Hr', Hown. cbn [app] in Hr', Hown.
    assert (Hown1 : owned_since m cs.*1 (cs ++ [(a, d)]).*1).
    { intros b Hb. rewrite fmap_app in Hb. cbn [fmap list_fmap fst] in Hb.
      apply elem_of_app in Hb as [Hb | Hb]; [by left|].
      apply list_elem_of_singleton in Hb as ->. by right. }
    exists m', ((a, d) :: new). split; [|split; [done|split]].
    + destruct Hrun as [[Hrun <-] | Hrun]; [left | right]; done.
    + eapply frame_trans; eauto.
    + intros b Hb. destruct (Hown b Hb) as [Hb1 | Hb1]; [by apply Hown1|].
      destruct (nodes m !! b) eqn:Hmb; [|by right]. left.
      destruct (decide (b ∈ cs.*1)) as [|Hnin]; [done|].
      rewrite (frame_nodes _ _ _ _ Hfr1 b Hnin) in Hb1 by (rewrite Hmb; eauto).
      congruence.
Qed.

Lemma list_il_spec m this (il : list T) :
  exists m' cs,
    (list_il this il m = Ok tt m' /\ cs.*2 = il \/ list_il this il m = Throw m') /\
    repr m' this cs /\ frame this [] m m'.
Proof.
  destruct (list_default_spec m this) as (m0 & Hrun0 & Hr0 & Hfr0).
  unfold list_default in Hrun0. unfold list_il.
  rewrite (bind_Ok _ _ _ _ _ Hrun0).
  destruct (push_back_all_spec m0 this [] il Hr0) as (m' & new & Hrun & Hr' & Hfr & _).
  exists m', new. split; [done|]. split; [done|].
  eapply frame_trans; [exact Hfr0 | exact Hfr |].
  intros b Hb. by apply elem_of_nil in Hb.
Qed.

Lemma list_range_spec m this (range : list T) :
  exists m' cs,
    (list_range this range m = Ok tt m' /\ cs.*2 = range \/
     list_range this range m = Throw m') /\
    repr m' this cs /\ frame this [] m m'.
Proof. apply list_il_spec. Qed.

(** The loops of the two fill constructors extend the chain that ends
    at the current Node. *)
Lemma fill_loop_spec (iters : nat) t m cs e x :
  NoDup (cs ++ [(e, x)]).*1 ->
  dlseg (nodes m) None (cs ++ [(e, x)]) None ->
  exists m' new,
    (fill_loop iters t (Some e) m = Ok (last_ptr new (Some e)) m' /\
     new.*2 = replicate iters t \/
     fill_loop iters t (Some e) m = Throw m') /\
    NoDup (cs ++ (e, x) :: new).*1 /\
    dlseg (nodes m') None (cs ++ (e, x) :: new) None /\
    lists m' = lists m /\ objs m' = objs m /\
    (forall b, b ∉ (cs ++ [(e, x)]).*1 -> is_Some (nodes m !! b) ->
               nodes m' !! b = nodes m !! b).
Proof.
  revert m cs e x. induction iters as [|iters IH]; intros m cs e x Hnd Hch.
  - exists m, []. split; [by left|]. done.
  - cbn [fill_loop].
    destruct (new_node_cases (mkNode t None None) m)
      as [[Hroom (a & Ha & Hnew)] | [Hfull Hnew]].
    2: { exists m, []. split; [right; by apply bind_Throw|]. done. }
    rewrite (bind_Ok _ _ _ _ _ Hnew).
    pose proof Hch as Hch0.
    apply dlseg_app in Hch as [Hpre He]. apply dlseg_singleton in He.
    cbn [first_ptr fst snd] in Hpre, He.
    assert (Hacs : a ∉ (cs ++ [(e, x)]).*1).
    { intros Hin. eapply dlseg_is_Some in Hin; [|exact Hch0].
      rewrite Ha in Hin. by destruct Hin. }
    assert (Hae : a <> e) by (rewrite fmap_app in Hacs; set_solver).
    set (m2 := mkMem (<[a := mkNode t None (Some e)]>
                        (<[e := mkNode x (Some a) (last_ptr cs None)]>
                           (<[a := mkNode t None None]> (nodes m))))
                     (objs m) (lists m)).
    destruct (IH m2 (cs ++ [(e, x)]) a t)
      as (m' & new & Hrun & Hnd' & Hch' & Hl' & Ho' & Hfr').
    { rewrite fmap_app. cbn [fmap list_fmap fst].
      apply NoDup_app. split; [done|]. split; [|apply NoDup_singleton].
      intros b Hb Hb'. apply list_elem_of_singleton in Hb' as ->. done. }
    { unfold m2. mred. apply dlseg_app. split; [apply dlseg_app; split|].
      - rewrite fmap_app in Hnd, Hacs. cbn [fmap list_fmap fst] in Hnd, Hacs.
        apply NoDup_app in Hnd as (_ & Hnd & _).
        repeat (apply dlseg_insert_fresh; [set_solver|]). exact Hpre.
      - apply dlseg_singleton. cbn [fst snd first_ptr].
        rewrite lookup_insert_ne by done. by rewrite lookup_insert_eq.
      - apply dlseg_singleton. cbn [fst snd].
        rewrite last_ptr_snoc. by rewrite lookup_insert_eq. }
    rewrite <- !app_assoc in Hnd', Hch'. cbn [app] in Hnd', Hch'.
    exists m', ((a, t) :: new). split; [|split; [done|split; [done|]]].
    + assert (Hstep : forall (k : M (T:=T) ptr),
                bind (set_next (Some e) (Some a))
                     (fun _ => bind (set_prev (Some a) (Some e)) (fun _ => k))
                     (mkMem (<[a := mkNode t None None]> (nodes m)) (objs m) (lists m))
                = k m2).
      { intros k. mrun. done. }
      rewrite Hstep. rewrite last_ptr_cons. cbn [fst].
      destruct Hrun as [[Hrun Hvals] | Hrun]; [left | right; done].
      split; [done|]. rewrite fmap_cons. cbn [snd replicate]. by f_equal.
    + split; [done|]. split; [done|].
      intros b Hb Hsome. rewrite Hfr'.
      * unfold m2. mred. destruct Hsome as [nd Hsome].
        rewrite fmap_app in Hb. cbn [fmap list_fmap fst] in Hb.
        rewrite !lookup_insert_ne by (first [congruence | set_solver]). done.
      * rewrite !fmap_app in Hb |- *. cbn [fmap list_fmap fst] in Hb |- *.
        destruct Hsome as [nd Hsome].
        assert (b <> a) by congruence. set_solver.
      * unfold m2. mred. destruct Hsome as [nd Hsome].
        rewrite fmap_app in Hb. cbn [fmap list_fmap fst] in Hb.
        rewrite !lookup_insert_ne by (first [congruence | set_solver]). eauto.
Qed.

Lemma default_fill_loop_spec (dflt : T) (iters : nat) m cs e x :
  NoDup (cs ++ [(e, x)]).*1 ->
  dlseg (nodes m) None (cs ++ [(e, x)]) None ->
  exists m' new,
    (default_fill_loop dflt iters (Some e) (Some e) m
       = Ok (last_ptr new (Some e)) m' /\
     new.*2 = replicate iters dflt \/
     default_fill_loop dflt iters (Some e) (Some e) m = Throw m') /\
    NoDup (cs ++ (e, x) :: new).*1 /\
    dlseg (nodes m') None (cs ++ (e, x) :: new) None /\
    lists m' = lists m /\ objs m' = objs m /\
    (forall b, b ∉ (cs ++ [(e, x)]).*1 -> is_Some (nodes m !! b) ->
               nodes m' !! b = nodes m !! b).
Proof.
  revert m cs e x. induction iters as [|iters IH]; intros m cs e x Hnd Hch.
  - exists m, []. split; [by left|]. done.
  - cbn [default_fill_loop].
    destruct (new_node_cases (mkNode dflt None None) m)
      as [[Hroom (a & Ha & Hnew)] | [Hfull Hnew]].
    2: { exists m, []. split; [right; by apply bind_Throw|]. done. }
    rewrite (bind_Ok _ _ _ _ _ Hnew).
    pose proof Hch as Hch0.
    apply dlseg_app in Hch as [Hpre He]. apply dlseg_singleton in He.
    cbn [first_ptr fst snd] in Hpre, He.
    assert (Hacs : a ∉ (cs ++ [(e, x)]).*1).
    { intros Hin. eapply dlseg_is_Some in Hin; [|exact Hch0].
      rewrite Ha in Hin. by destruct Hin. }
    assert (Hae : a <> e) by (rewrite fmap_app in Hacs; set_solver).
    set (m2 := mkMem (<[e := mkNode x (Some a) (last_ptr cs None)]>
                        (<[a := mkNode dflt None (Some e)]>
                           (<[a := mkNode dflt None None]> (nodes m))))
                     (objs m) (lists m)).
    destruct (IH m2 (cs ++ [(e, x)]) a dflt)
      as (m' & new & Hrun & Hnd' & Hch' & Hl' & Ho' & Hfr').
    { rewrite fmap_app. cbn [fmap list_fmap fst].
      apply NoDup_app. split; [done|]. split; [|apply NoDup_singleton].
      intros b Hb Hb'. apply list_elem_of_singleton in Hb' as ->. done. }
    { unfold m2. mred. apply dlseg_app. split; [apply dlseg_app; split|].
      - rewrite fmap_app in Hnd, Hacs. cbn [fmap list_fmap fst] in Hnd, Hacs.
        apply NoDup_app in Hnd as (_ & Hnd & _).
        repeat (apply dlseg_insert_fresh; [set_solver|]). exact Hpre.
      - apply dlseg_singleton. cbn [fst snd first_ptr].
        by rewrite lookup_insert_eq.
      - apply dlseg_singleton. cbn [fst snd].
        rewrite last_ptr_snoc. cbn [fst].
        rewrite lookup_insert_ne by done. by rewrite lookup_insert_eq. }
    rewrite <- !app_assoc in Hnd', Hch'. cbn [app] in Hnd', Hch'.
    exists m', ((a, dflt) :: new). split; [|split; [done|split; [done|]]].
    + assert (Hstep : forall (k : M (T:=T) ptr),
                bind (set_prev (Some a) (Some e))
                     (fun _ => bind (get_prev (Some a))
                        (fun pv => bind (set_next pv (Some a)) (fun _ => k)))
                     (mkMem (<[a := mkNode dflt None None]> (nodes m)) (objs m) (lists m))
                = k m2).
      { intros k. mrun. done. }
      rewrite Hstep. rewrite last_ptr_cons. cbn [fst].
      destruct Hrun as [[Hrun Hvals] | Hrun]; [left | right; done].
      split; [done|]. rewrite fmap_cons. cbn [snd replicate]. by f_equal.
    + split; [done|]. split; [done|].
      intros b Hb Hsome. rewrite Hfr'.
      * unfold m2. mred. destruct Hsome as [nd Hsome].
        rewrite fmap_app in Hb. cbn [fmap list_fmap fst] in Hb.
        rewrite !lookup_insert_ne by (first [congruence | set_solver]). done.
      * rewrite !fmap_app in Hb |- *. cbn [fmap list_fmap fst] in Hb |- *.
        destruct Hsome as [nd Hsome].
        assert (b <> a) by congruence. set_solver.
      * unfold m2. mred. destruct Hsome as [nd Hsome].
        rewrite fmap_app in Hb. cbn [fmap list_fmap fst] in Hb.
        rewrite !lookup_insert_ne by (first [congruence | set_solver]). eauto.
Qed.

Lemma list_fill_spec m this (num : Z) t :
  0 <= num < SIZE_MOD ->
  exists m',
    (list_fill this num t m = Ok tt m' /\
     exists cs, cs.*2 = replicate (Z.to_nat num) t /\ repr m' this cs /\
                frame this [] m m') \/
    list_fill this num t m = Throw m'.
Proof.
  intros Hnum. unfold list_fill.
  set (m0 := mkMem (nodes m) (objs m) (<[this := mkList 0 None None]> (lists m))).
  assert (H0 : put_list this (mkList 0 None None) m = Ok tt m0) by done.
  rewrite (bind_Ok _ _ _ _ _ H0).
  destruct (decide (num > 0)) as [Hpos | Hzero].
  2: { rewrite bool_decide_false by done. exists m0. left. split; [done|].
       exists []. assert (num = 0) as -> by lia. split; [done|]. split.
       - split; unfold m0; mred;
           [by rewrite lookup_insert_eq | apply NoDup_nil_2 | done | done].
       - split; unfold m0; mred; [|done..].
         intros l Hl. by rewrite lookup_insert_ne. }
  rewrite bool_decide_true by done.
  destruct (new_node_cases (mkNode t None None) m0)
    as [[Hroom (h & Hh & Hnew)] | [Hfull Hnew]].
  2: { exists m0. right. by apply bind_Throw. }
  rewrite (bind_Ok _ _ _ _ _ Hnew).
  change (nodes m !! h = None) in Hh.
  set (m2 := mkMem (<[h := mkNode t None None]> (nodes m)) (objs m)
                   (<[this := mkList 0 (Some h) None]> (lists m))).
  destruct (fill_loop_spec (Z.to_nat (num - 1)) t m2 [] h t)
    as (m3 & new & Hrun & Hnd & Hch & Hl3 & Ho3 & Hfr3).
  { apply NoDup_singleton. }
  { apply dlseg_singleton. unfold m2. mred. by rewrite lookup_insert_eq. }
  cbn [app] in Hnd, Hch.
  assert (Hstep : forall (k : ptr -> M (T:=T) unit),
            bind (set_pHead this (Some h))
                 (fun _ => bind (get_pHead this) k)
                 (mkMem (<[h := mkNode t None None]> (nodes m0)) (objs m0) (lists m0))
            = k (Some h) m2).
  { intros k. unfold m0, m2. mrun. by rewrite insert_insert_eq. }
  rewrite Hstep.
  destruct Hrun as [[Hrun Hvals] | Hrun].
  2: { exists m3. right. by apply bind_Throw. }
  rewrite (bind_Ok _ _ _ _ _ Hrun).
  assert (Hobj3 : lists m3 !! this = Some (mkList 0 (Some h) None)).
  { rewrite Hl3. unfold m2. mred. by rewrite lookup_insert_eq. }
  mrun. eexists. left. split; [reflexivity|].
  exists ((h, t) :: new). split; [|split].
  - rewrite fmap_cons, Hvals. cbn [snd].
    replace (Z.to_nat num) with (S (Z.to_nat (num - 1))) by lia. done.
  - assert (Hlen : length new = Z.to_nat (num - 1)).
    { by rewrite <- (length_fmap snd new), Hvals, length_replicate. }
    split; mred; [|done|done|].
    + rewrite lookup_insert_eq. f_equal. f_equal.
      * cbn [length]. lia.
      * by rewrite last_ptr_cons.
    + cbn [length]. lia.
  - split; mred.
    + intros l Hl. rewrite !lookup_insert_ne by done. rewrite Hl3.
      unfold m2. mred. by rewrite lookup_insert_ne.
    + intros b _ Hsome.
      assert (Hbh : b <> h) by (intros ->; rewrite Hh in Hsome; by destruct Hsome).
      rewrite Hfr3.
      * unfold m2. mred. by rewrite lookup_insert_ne.
      * cbn [app fmap list_fmap fst]. set_solver.
      * unfold m2. mred. by rewrite lookup_insert_ne.
    + by rewrite Ho3.
Qed.

Lemma list_default_fill_spec (dflt : T) m this (num : Z) :
  0 <= num < SIZE_MOD ->
  exists m',
    (list_default_fill dflt this num m = Ok tt m' /\
     exists cs, cs.*2 = replicate (Z.to_nat num) dflt /\ repr m' this cs /\
                frame this [] m m') \/
    list_default_fill dflt this num m = Throw m'.
Proof.
  intros Hnum. unfold list_default_fill.
  set (m0 := mkMem (nodes m) (objs m) (<[this := mkList 0 None None]> (lists m))).
  assert (H0 : put_list this (mkList 0 None None) m = Ok tt m0) by done.
  rewrite (bind_Ok _ _ _ _ _ H0).
  destruct (decide (num = 0)) as [-> | Hpos].
  { rewrite bool_decide_false by msolve. exists m0. left. split; [done|].
    exists []. split; [done|]. split.
    - split; unfold m0; mred;
        [by rewrite lookup_insert_eq | apply NoDup_nil_2 | done | done].
    - split; unfold m0; mred; [|done..].
      intros l Hl. by rewrite lookup_insert_ne. }
  rewrite bool_decide_true by done.
  destruct (new_node_cases (mkNode dflt None None) m0)
    as [[Hroom (h & Hh & Hnew)] | [Hfull Hnew]].
  2: { exists m0. right. by apply bind_Throw. }
  rewrite (bind_Ok _ _ _ _ _ Hnew).
  change (nodes m !! h = None) in Hh.
  set (m2 := mkMem (<[h := mkNode dflt None None]> (nodes m)) (objs m)
                   (<[this := mkList 0 (Some h) None]> (lists m))).
  destruct (default_fill_loop_spec dflt (Z.to_nat (num - 1)) m2 [] h dflt)
    as (m3 & new & Hrun & Hnd & Hch & Hl3 & Ho3 & Hfr3).
  { apply NoDup_singleton. }
  { apply dlseg_singleton. unfold m2. mred. by rewrite lookup_insert_eq. }
  cbn [app] in Hnd, Hch.
  assert (Hstep : forall (k : M (T:=T) unit),
            bind (set_pHead this (Some h))
                 (fun _ => bind (get_pHead this)
                    (fun hd => bind (set_prev hd None) (fun _ => k)))
                 (mkMem (<[h := mkNode dflt None None]> (nodes m0)) (objs m0) (lists m0))
            = k m2).
  { intros k. unfold m0, m2. mrun. by rewrite !insert_insert_eq. }
  rewrite Hstep.
  destruct Hrun as [[Hrun Hvals] | Hrun].
  2: { exists m3. right. by apply bind_Throw. }
  rewrite (bind_Ok _ _ _ _ _ Hrun).
  assert (Hobj3 : lists m3 !! this = Some (mkList 0 (Some h) None)).
  { rewrite Hl3. unfold m2. mred. by rewrite lookup_insert_eq. }
  assert (Hlast : exists nd, nodes m3 !! default (h) (fst <$> last new) = Some nd /\
                             pNext nd = None /\
                             last_ptr new (Some h) = Some (default (h) (fst <$> last new))).
  { destruct new as [|[l xl] new' _] using rev_ind.
    - destruct Hch as [Hh3 _]. cbn [fst snd first_ptr] in Hh3.
      eexists. split; [exact Hh3|]. done.
    - change ((h, dflt) :: new' ++ [(l, xl)]) with (((h, dflt) :: new') ++ [(l, xl)]) in Hch.
      apply dlseg_app in Hch as [_ Hl]. apply dlseg_singleton in Hl.
      cbn [fst snd] in Hl. rewrite last_snoc. cbn [fmap option_fmap option_map default fst].
      eexists. split; [exact Hl|]. split; [done|]. by rewrite last_ptr_snoc. }
  destruct Hlast as (nd & Hlk & Hnx & Hlp). rewrite Hlp.
  mrun. eexists. left. split; [reflexivity|].
  assert (Hid : <[default h (fst <$> last new) :=
                   mkNode (data nd) None (pPrev nd)]> (nodes m3) = nodes m3).
  { apply insert_id. rewrite Hlk. destruct nd. cbn in *. by subst. }
  rewrite Hid.
  exists ((h, dflt) :: new). split; [|split].
  - rewrite fmap_cons, Hvals. cbn [snd].
    replace (Z.to_nat num) with (S (Z.to_nat (num - 1))) by lia. done.
  - assert (Hlen : length new = Z.to_nat (num - 1)).
    { by rewrite <- (length_fmap snd new), Hvals, length_replicate. }
    split; mred; [|done|done|].
    + rewrite lookup_insert_eq. f_equal. f_equal.
      * cbn [length]. lia.
      * by rewrite last_ptr_cons.
    + cbn [length]. lia.
  - split; mred.
    + intros l Hl. rewrite !lookup_insert_ne by done. rewrite Hl3.
      unfold m2. mred. by rewrite lookup_insert_ne.
    + intros b _ Hsome.
      assert (Hbh : b <> h) by (intros ->; rewrite Hh in Hsome; by destruct Hsome).
      rewrite Hfr3.
      * unfold m2. mred. by rewrite lookup_insert_ne.
      * cbn [app fmap list_fmap fst]. set_solver.
      * unfold m2. mred. by rewrite lookup_insert_ne.
    + by rewrite Ho3.
Qed.

(** *** Copy construction and copy assignment *)

Lemma list_copy_spec (fuel : nat) m this rhs cr :
  this <> rhs -> repr m rhs cr -> (length cr <= fuel)%nat ->
  exists m' new,
    ((list_copy fuel this rhs m = Ok tt m' /\ new.*2 = cr.*2) \/
     (list_copy fuel this rhs m = Throw m' /\
      HEAP_LIMIT <= heap_cells m' /\ (length new < length cr)%nat)) /\
    repr m' this new /\
    repr m' rhs cr /\
    frame this [] m m' /\
    (forall b, b ∈ new.*1 -> nodes m !! b = None) /\
    heap_cells m' = heap_cells m + Z.of_nat (length new).
Proof.
  intros Hne Hrhs Hfuel. unfold list_copy.
  set (m0 := mkMem (nodes m) (objs m) (<[this := mkList 0 None None]> (lists m))).
  assert (H0 : put_list this (mkList 0 None None) m = Ok tt m0) by done.
  rewrite (bind_Ok _ _ _ _ _ H0).
  assert (Hthis0 : repr m0 this []).
  { split; unfold m0; mred;
      [by rewrite lookup_insert_eq | apply NoDup_nil_2 | done | done]. }
  assert (Hrhs0 : repr m0 rhs cr).
  { eapply repr_frame; [exact Hrhs | | done].
    unfold m0. mred. by rewrite lookup_insert_ne. }
  assert (Hfr0 : frame this [] m m0).
  { split; unfold m0; mred; [|done..]. intros l Hl. by rewrite lookup_insert_ne. }
  rewrite (bind_Ok _ _ _ _ _ (get_pHead_Ok _ _ _ (repr_obj _ _ _ Hrhs0))).
  cbn [pHead].
  destruct cr as [|[e x] cr].
  - cbn [first_ptr]. rewrite bool_decide_false by msolve.
    exists m0, []. split; [left; done|]. split; [done|]. split; [done|].
    split; [done|]. split; [by intros b Hb; apply elem_of_nil in Hb|].
    unfold heap_cells, m0. mred. simpl. lia.
  - rewrite bool_decide_true by done.
    rewrite (bind_Ok _ _ _ _ _ (get_pHead_Ok _ _ _ (repr_obj _ _ _ Hrhs0))).
    cbn [pHead].
    destruct (copy_loop_spec fuel m0 this rhs [] [] ((e, x) :: cr))
      as (m' & new & Hrun & Hthis' & Hrhs' & Hfr' & Hfresh & Hcells);
      [done | done | done | by intros b _ Hb; apply elem_of_nil in Hb | done |].
    exists m', new. split; [done|]. split; [done|]. split; [done|].
    split; [|split; [done|]].
    + eapply frame_trans; [exact Hfr0 | exact Hfr' |].
      intros b Hb. by apply elem_of_nil in Hb.
    + rewrite Hcells. unfold heap_cells, m0. mred. done.
Qed.

Lemma assign_copy_self (fuel : nat) m this :
  assign_copy fuel this this m = Ok this m.
Proof. unfold assign_copy. rewrite bool_decide_false by msolve. done. Qed.

Lemma assign_copy_spec (fuel : nat) m this rhs cs cr :
  this <> rhs -> repr m this cs -> repr m rhs cr ->
  (forall b, b ∈ cr.*1 -> b ∉ cs.*1) ->
  (length cs <= fuel)%nat -> (length cr <= fuel)%nat ->
  exists m' new,
    ((assign_copy fuel this rhs m = Ok this m' /\ new.*2 = cr.*2) \/
     (assign_copy fuel this rhs m = Throw m' /\
      HEAP_LIMIT <= heap_cells m' /\ (length new < length cr)%nat)) /\
    repr m' this new /\
    repr m' rhs cr /\
    frame this cs.*1 m m' /\
    (forall b, b ∈ new.*1 -> b ∉ cr.*1) /\
    heap_cells m' = heap_cells m - Z.of_nat (length cs) + Z.of_nat (length new).
Proof.
  intros Hne Hthis Hrhs Hdisj Hfcs Hfcr. unfold assign_copy.
  rewrite bool_decide_true by done.
  destruct (clear_spec fuel m this cs Hthis Hfcs)
    as (m1 & Hclear & Hthis1 & Hfr1 & _ & Hcells1).
  assert (Hrhs1 : repr m1 rhs cr).
  { eapply frame_repr; [exact Hfr1 | done | done | done]. }
  destruct (copy_loop_spec fuel m1 this rhs [] [] cr)
    as (m' & new & Hrun & Hthis' & Hrhs' & Hfr' & Hfresh & Hcells);
    [done | done | done | by intros b _ Hb; apply elem_of_nil in Hb | done |].
  cbn [app] in Hthis', Hrhs'.
  assert (Hbody : forall A (k : M (T:=T) A),
            bind (bind (clear fuel this)
                    (fun _ => bind (get_pHead rhs) (copy_loop fuel this)))
                 (fun _ => k) m
            = bind (copy_loop fuel this (first_ptr cr None)) (fun _ => k) m1).
  { intros A k. unfold bind at 1 2. rewrite Hclear.
    rewrite (bind_Ok _ _ _ _ _ (get_pHead_Ok _ _ _ (repr_obj _ _ _ Hrhs1))).
    done. }
  rewrite Hbody.
  exists m', new. split; [|split; [done|split; [done|split; [|split]]]].
  - destruct Hrun as [[Hrun Hvals] | (Hrun & Hfull & Hshort)].
    + left. split; [|done]. by rewrite (bind_Ok _ _ _ _ _ Hrun).
    + right. split; [|done]. by apply bind_Throw.
  - eapply frame_trans; [exact Hfr1 | exact Hfr' |].
    intros b Hb. by apply elem_of_nil in Hb.
  - intros b Hb Hin. apply Hfresh in Hb.
    eapply dlseg_is_Some in Hin; [|apply (repr_chain _ _ _ Hrhs1)].
    rewrite Hb in Hin. by destruct Hin.
  - rewrite Hcells, Hcells1. done.
Qed.

(** *** front, back *)

Lemma front_nonempty_spec (dflt : T) m this e x cs :
  repr m this ((e, x) :: cs) ->
  front dflt this m = Ok (Ref_data e) m /\ read_ref (Ref_data e) m = Ok x m.
Proof.
  intros [Hobj _ Hch Hrg]. destruct Hch as [He _]. cbn [fst snd] in He.
  cbn [first_ptr fst length] in Hobj.
  assert (Hn : Z.of_nat (S (length cs)) <> 0) by lia.
  unfold front, read_ref. mrun. done.
Qed.

Lemma back_nonempty_spec (dflt : T) m this cs e x :
  repr m this (cs ++ [(e, x)]) ->
  back dflt this m = Ok (Ref_data e) m /\ read_ref (Ref_data e) m = Ok x m.
Proof.
  intros [Hobj _ Hch Hrg].
  apply dlseg_app in Hch as [_ He]. apply dlseg_singleton in He.
  cbn [fst snd] in He.
  rewrite last_ptr_snoc, length_app in Hobj. cbn [fst length] in Hobj.
  assert (Hn : Z.of_nat (length cs + 1) <> 0) by lia.
  unfold back, read_ref. mrun. done.
Qed.

(** On an empty list both allocate a fresh default-valued [T] that no
    list owns and return a reference to it. *)
Lemma front_empty_spec (dflt : T) m this :
  repr m this [] ->
  (heap_cells m < HEAP_LIMIT /\
   exists a, objs m !! a = None /\
     front dflt this m
       = Ok (Ref_obj a) (mkMem (nodes m) (<[a := dflt]> (objs m)) (lists m))) \/
  (HEAP_LIMIT <= heap_cells m /\ front dflt this m = Throw m).
Proof.
  intros [Hobj _ _ _]. cbn [length first_ptr] in Hobj. rewrite last_ptr_nil in Hobj.
  unfold front.
  rewrite (bind_Ok _ _ _ _ _ (get_numElements_Ok _ _ _ Hobj)). cbn [numElements].
  rewrite bool_decide_false by (intros H; apply H; reflexivity).
  destruct (new_obj_cases dflt m) as [[Hroom (a & Ha & Hnew)] | [Hfull Hnew]].
  - left. split; [done|]. exists a. split; [done|].
    by rewrite (bind_Ok _ _ _ _ _ Hnew).
  - right. split; [done|]. by apply bind_Throw.
Qed.

Lemma back_empty_spec (dflt : T) m this :
  repr m this [] ->
  (heap_cells m < HEAP_LIMIT /\
   exists a, objs m !! a = None /\
     back dflt this m
       = Ok (Ref_obj a) (mkMem (nodes m) (<[a := dflt]> (objs m)) (lists m))) \/
  (HEAP_LIMIT <= heap_cells m /\ back dflt this m = Throw m).
Proof.
  intros [Hobj _ _ _]. cbn [length first_ptr] in Hobj. rewrite last_ptr_nil in Hobj.
  unfold back.
  rewrite (bind_Ok _ _ _ _ _ (get_numElements_Ok _ _ _ Hobj)). cbn [numElements].
  rewrite bool_decide_false by (intros H; apply H; reflexivity).
  destruct (new_obj_cases dflt m) as [[Hroom (a & Ha & Hnew)] | [Hfull Hnew]].
  - left. split; [done|]. exists a. split; [done|].
    by rewrite (bind_Ok _ _ _ _ _ Hnew).
  - right. split; [done|]. by apply bind_Throw.
Qed.

End Exec.

(** * The properties of the specification *)

(** The representation of a list in a closed store, by evaluation. *)
Ltac concrete_repr :=
  split;
  [ vm_compute; reflexivity
  | apply (bool_decide_unpack _); vm_compute; exact I
  | cbn [dlseg]; repeat split; vm_compute; reflexivity
  | vm_compute; reflexivity ].

(** The example stores hold the lists they were built to hold. *)
Lemma m_none_repr : repr m_none 1%positive [].
Proof. concrete_repr. Qed.

Lemma m_123_repr :
  repr m_123 1%positive [(1%positive, 1); (2%positive, 2); (3%positive, 3)].
Proof. concrete_repr. Qed.

Lemma m_12_repr : repr m_12 1%positive [(1%positive, 1); (2%positive, 2)].
Proof. concrete_repr. Qed.

Lemma m_two_repr_1 : repr m_two 1%positive [(1%positive, 1)].
Proof. concrete_repr. Qed.

Lemma m_two_repr_2 : repr m_two 2%positive [(2%positive, 2); (3%positive, 3)].
Proof. concrete_repr. Qed.

(** ** Constructed lists, and calls on another list *)

Lemma construct_spec {T} (dflt : T) (fuel : nat) (m : mem T) this (c : ctor T) :
  ctor_ready fuel m this c ->
  exists m1,
    construct dflt fuel this c m = Throw m1 \/
    (construct dflt fuel this c m = Ok tt m1 /\ exists cs, repr m1 this cs).
Proof.
  intros Hready. destruct c as [|rhs|rhs|num t|num|il|range];
    cbn [construct ctor_ready] in *.
  - destruct (list_default_spec m this) as (m' & Hrun & Hr & _).
    exists m'. right. eauto.
  - destruct Hready as (Hne & cr & Hr & Hfuel).
    destruct (list_copy_spec fuel m this rhs cr Hne Hr Hfuel)
      as (m' & new & [[Hrun _] | [Hrun _]] & Hr' & _);
      exists m'; [right | left]; eauto.
  - destruct Hready as (Hne & cr & Hr).
    destruct (list_move_spec m this rhs cr Hne Hr) as (m' & Hrun & Hr' & _).
    exists m'. right. eauto.
  - destruct (list_fill_spec m this num t Hready)
      as (m' & [(Hrun & cs & _ & Hr & _) | Hrun]);
      exists m'; [right | left]; eauto.
  - destruct (list_default_fill_spec dflt m this num Hready)
      as (m' & [(Hrun & cs & _ & Hr & _) | Hrun]);
      exists m'; [right | left]; eauto.
  - destruct (list_il_spec m this il)
      as (m' & cs & [[Hrun _] | Hrun] & Hr & _);
      exists m'; [right | left]; eauto.
  - destruct (list_range_spec m this range)
      as (m' & cs & [[Hrun _] | Hrun] & Hr & _);
      exists m'; [right | left]; eauto.
Qed.

(** Calls on one list leave a list that shares no Node with it as it
    was. *)
Lemma run_ops_other {T} (m : mem T) this other cs co (ops : list (op T)) :
  repr m this cs -> repr m other co -> other <> this ->
  (forall b, b ∈ co.*1 -> b ∉ cs.*1) ->
  is_Some (seq_ops cs.*2 ops) ->
  exists m', (run_ops this ops m = Ok tt m' \/ run_ops this ops m = Throw m') /\
             repr m' other co.
Proof.
  intros Hr Ho Hne Hdisj [xs' Hseq].
  destruct (run_ops_spec m this cs ops xs' Hr Hseq)
    as (m' & cs' & Hrun & _ & Hfr & _).
  exists m'. split; [destruct Hrun as [[? _] | ?]; auto|].
  eapply frame_repr; eauto.
Qed.

Lemma copy_result_intro {T} (m' : mem T) this rhs cr new :
  this <> rhs -> repr m' this new -> repr m' rhs cr ->
  new.*2 = cr.*2 -> (forall b, b ∈ new.*1 -> b ∉ cr.*1) ->
  copy_result m' this rhs cr new.
Proof.
  intros Hne Hthis Hrhs Hvals Hdisj. split; try done.
  - by rewrite <- (length_fmap snd new), Hvals, length_fmap.
  - rewrite <- Hvals. by apply repr_contents.
  - by apply repr_contents.
  - intros ops Hops.
    destruct (run_ops_other m' this rhs new cr ops) as (m'' & Hrun & Hr); try done.
    { intros b Hb Hb'. by apply (Hdisj b). }
    exists m''. split; [done|]. by apply repr_contents.
  - intros ops Hops.
    destruct (run_ops_other m' rhs this cr new ops) as (m'' & Hrun & Hr); try done.
    exists m''. split; [done|]. rewrite <- Hvals. by apply repr_contents.
Qed.

Lemma source_same_intro {T} (m m' : mem T) this own rhs cr :
  this <> rhs -> frame this own m m' -> repr m rhs cr -> repr m' rhs cr ->
  (forall b, b ∈ cr.*1 -> b ∉ own) ->
  source_same m m' rhs cr.
Proof.
  intros Hne Hfr Hr Hr' Hdisj. split.
  - by apply (frame_lists _ _ _ _ Hfr).
  - intros b Hb. apply (frame_nodes _ _ _ _ Hfr); [by apply Hdisj|].
    eapply dlseg_is_Some; [apply (repr_chain _ _ _ Hr) | done].
  - by rewrite (repr_contents _ _ _ Hr), (repr_contents _ _ _ Hr').
Qed.

(** ** insert (C1) *)

(** The [const T&] overload does what [insert] is documented to do: the
    new Node stands immediately before the position, alone in a list that
    was empty and last when the position is [end()]; the returned iterator
    is that Node; [size()] has grown by one. *)
Lemma insert_copy_inserts_before {T} (m : mem T) this cs1 cs2 (it : iterator) d :
  repr m this (cs1 ++ cs2) ->
  it = first_ptr cs2 None \/ cs1 ++ cs2 = [] ->
  heap_cells m < HEAP_LIMIT ->
  exists a m',
    insert this it d m = Ok (Some a) m' /\
    nodes m !! a = None /\
    repr m' this (cs1 ++ (a, d) :: cs2) /\
    contents m' this = Some (cs1.*2 ++ d :: cs2.*2) /\
    size_ this m' = Ok (Z.of_nat (length (cs1 ++ cs2)) + 1) m'.
Proof.
  intros Hr Hit Hroom.
  destruct (insert_spec m this cs1 cs2 it d Hr Hit)
    as [[_ (a & m' & Hrun & Ha & Hr' & _)] | [Hfull _]]; [|lia].
  exists a, m'. split; [done|]. split; [done|]. split; [done|]. split.
  - rewrite (repr_contents _ _ _ Hr'). by rewrite fmap_app, fmap_cons.
  - unfold size_.
    rewrite (get_numElements_Ok _ _ _ (repr_obj _ _ _ Hr')). cbn [numElements].
    f_equal. rewrite !length_app. cbn [length]. lia.
Qed.

(** C1, code defect: the [T&&] overload of [insert] is [return end();].
    On the list 1, 2, 3 with the position [begin()] it returns [end()],
    not an iterator of a new Node, and the list still holds 1, 2, 3 with
    [size()] 3, where the [const T&] overload on the same input returns
    the new Node and leaves 9, 1, 2, 3 with [size()] 4. *)
Theorem insert_move_inserts_nothing :
  insert_move 1%positive (Some 1%positive) 9 m_123 = Ok None m_123 /\
  contents m_123 1%positive = Some [1; 2; 3] /\
  size_ 1%positive m_123 = Ok 3 m_123 /\
  exists a m', insert 1%positive (Some 1%positive) 9 m_123 = Ok (Some a) m' /\
               contents m' 1%positive = Some [9; 1; 2; 3] /\
               size_ 1%positive m' = Ok 4 m'.
Proof.
  split; [reflexivity|]. split; [vm_compute; reflexivity|].
  split; [vm_compute; reflexivity|].
  destruct (insert_copy_inserts_before m_123 1%positive []
              [(1%positive, 1); (2%positive, 2); (3%positive, 3)]
              (Some 1%positive) 9 m_123_repr (or_introl eq_refl))
    as (a & m' & Hrun & _ & _ & Hc & Hs); [vm_compute; reflexivity|].
  exists a, m'. split; [exact Hrun|]. split; [exact Hc | exact Hs].
Qed.

(** ** Move assignment (C2) *)

(** C2, code defect: operator=(list&&) calls itself before doing anything
    else, so no call of it returns: whatever the fuel, the recursion is
    still running when the fuel is gone.  Nothing is released, adopted or
    reset. *)
Theorem assign_move_never_returns {T} (fuel : nat) (this rhs : loc) (m : mem T) :
  assign_move fuel this rhs m = Diverge.
Proof.
  induction fuel as [|fuel IH]; [done|].
  cbn [assign_move]. by apply bind_Diverge.
Qed.

(** ** swap (C3) *)

Lemma swap_member_spec {T} (this rhs : loc) (m : mem T) :
  swap_member this rhs m = Ok tt m.
Proof. reflexivity. Qed.

Lemma swap_spec {T} (lhs rhs : loc) (m : mem T) L :
  lists m !! lhs = Some L ->
  swap lhs rhs m
  = Ok tt (mkMem (nodes m) (objs m)
                 (<[lhs := mkList 99 (pHead L) (pTail L)]> (lists m))).
Proof. intros H. unfold swap. by mrun. Qed.

(** C3, code defect: with 1 in the list at 1 and 2, 3 in the list at 2,
    the free function [swap] leaves both element sequences where they
    were and makes [size()] of the first list 99; the member [swap] does
    nothing at all. *)
Theorem swap_exchanges_nothing :
  contents m_two 1%positive = Some [1] /\
  contents m_two 2%positive = Some [2; 3] /\
  swap_member 1%positive 2%positive m_two = Ok tt m_two /\
  exists m', swap 1%positive 2%positive m_two = Ok tt m' /\
             contents m' 1%positive = Some [1] /\
             contents m' 2%positive = Some [2; 3] /\
             size_ 1%positive m' = Ok 99 m' /\
             size_ 2%positive m' = Ok 2 m'.
Proof.
  split; [vm_compute; reflexivity|]. split; [vm_compute; reflexivity|].
  split; [reflexivity|].
  eexists. split; [vm_compute; reflexivity|].
  repeat split; vm_compute; reflexivity.
Qed.

(** After the free [swap] the first list no longer satisfies the
    structural invariants: its count is 99 and it has one Node. *)
Example swap_breaks_invariants :
  ~ Invariants (store_after (swap 1%positive 2%positive) m_two) 1%positive.
Proof.
  intros (L & fw & bw & Hl & Hobs).
  vm_compute in Hl. injection Hl as <-.
  destruct Hobs as [Hnext _ Hsize _ _ _ _ _].
  vm_compute in Hnext. injection Hnext as <-.
  vm_compute in Hsize. discriminate.
Qed.

(** ** Assignment from an initializer list (C5) *)

Lemma assign_il_spec {T} (this : loc) (il : list T) (m : mem T) :
  assign_il this il m = Ok this m.
Proof. reflexivity. Qed.

(** C5, code defect: operator=(const std::initializer_list<T>&) is
    [return *this;].  Assigning the initializer list 7 to the list 1, 2
    returns with the store as it was: the list still holds 1, 2 and
    [size()] is 2, where the constructor from the same initializer list
    builds the list 7. *)
Theorem assign_il_changes_nothing :
  assign_il 1%positive [7] m_12 = Ok 1%positive m_12 /\
  contents m_12 1%positive = Some [1; 2] /\
  size_ 1%positive m_12 = Ok 2 m_12 /\
  exists m', list_il 2%positive [7] m_12 = Ok tt m' /\
             contents m' 2%positive = Some [7].
Proof.
  split; [apply assign_il_spec|].
  split; [vm_compute; reflexivity|].
  split; [vm_compute; reflexivity|].
  eexists. split; vm_compute; reflexivity.
Qed.

(** ** front, back (C4) *)

(** C4, as stated, fails: on the empty list at 1, [front] and [back]
    return normally, each with a reference to a default-valued [T] that
    [new T] has just allocated and that was not there before. *)
Lemma front_back_empty_manufacture :
  contents m_none 1%positive = Some [] /\
  (exists a m', front 0 1%positive m_none = Ok (Ref_obj a) m' /\
                objs m_none !! a = None /\ objs m' !! a = Some 0) /\
  (exists a m', back 0 1%positive m_none = Ok (Ref_obj a) m' /\
                objs m_none !! a = None /\ objs m' !! a = Some 0).
Proof.
  split; [vm_compute; reflexivity|].
  split; eexists _, _; (split; [vm_compute; reflexivity|]);
    split; vm_compute; reflexivity.
Qed.

Lemma back_empty_is_front {T} (dflt : T) (m : mem T) this :
  repr m this [] -> back dflt this m = front dflt this m.
Proof.
  intros Hr. unfold back, front.
  rewrite !(bind_Ok _ _ _ _ _ (get_numElements_Ok _ _ _ (repr_obj _ _ _ Hr))).
  cbn [numElements length].
  by rewrite !bool_decide_false by (intros H; apply H; reflexivity).
Qed.

(** C4, amended: on a list that is not empty [front] and [back] return
    references to the elements of the first and of the last Node and
    change nothing.  On an empty list they allocate a default-valued [T],
    which no list owns, and return a reference to it; the list objects
    and the Nodes are left as they were, and the object stays allocated
    through [clear] and through every later sequence of push, pop, insert
    and erase calls on the list.  When the heap is full the allocation
    throws instead. *)
Theorem front_back_behaviour {T} (dflt : T) (m : mem T) (this : loc) (cs : chain T) :
  repr m this cs ->
  (cs <> [] ->
   exists e x e' x',
     head cs = Some (e, x) /\ last cs = Some (e', x') /\
     front dflt this m = Ok (Ref_data e) m /\ read_ref (Ref_data e) m = Ok x m /\
     back dflt this m = Ok (Ref_data e') m /\ read_ref (Ref_data e') m = Ok x' m) /\
  (cs = [] ->
   (heap_cells m < HEAP_LIMIT /\
    exists a m',
      objs m !! a = None /\
      m' = mkMem (nodes m) (<[a := dflt]> (objs m)) (lists m) /\
      front dflt this m = Ok (Ref_obj a) m' /\
      back dflt this m = Ok (Ref_obj a) m' /\
      read_ref (Ref_obj a) m' = Ok dflt m' /\
      (forall (fuel : nat) m'',
          clear fuel this m' = Ok tt m'' -> objs m'' !! a = Some dflt) /\
      (forall (ops : list (op T)) m'',
          is_Some (seq_ops [] ops) ->
          run_ops this ops m' = Ok tt m'' \/ run_ops this ops m' = Throw m'' ->
          objs m'' !! a = Some dflt)) \/
   (HEAP_LIMIT <= heap_cells m /\
    front dflt this m = Throw m /\ back dflt this m = Throw m)).
Proof.
  intros Hr. split.
  - intros Hne. destruct cs as [|[e x] cs']; [done|].
    destruct (front_nonempty_spec dflt m this e x cs' Hr) as [Hf Hfr].
    destruct (exists_last (l := (e, x) :: cs')) as (cs0 & [e' x'] & Heq); [done|].
    rewrite Heq in Hr.
    destruct (back_nonempty_spec dflt m this cs0 e' x' Hr) as [Hb Hbr].
    exists e, x, e', x'. split; [done|]. split; [|done].
    rewrite Heq. apply last_snoc.
  - intros ->.
    pose proof (back_empty_is_front dflt m this Hr) as Hb.
    destruct (front_empty_spec dflt m this Hr)
      as [[Hroom (a & Ha & Hf)] | [Hfull Hf]]; rewrite Hf in Hb.
    + left. split; [done|].
      set (m' := mkMem (nodes m) (<[a := dflt]> (objs m)) (lists m)) in *.
      assert (Hr' : repr m' this []).
      { eapply repr_frame; [exact Hr | done | done]. }
      assert (Hobj : objs m' !! a = Some dflt).
      { unfold m'. mred. by rewrite lookup_insert_eq. }
      exists a, m'. split; [done|]. split; [done|]. split; [done|]. split; [done|].
      split; [by unfold read_ref; rewrite Hobj|]. split.
      * intros fuel m'' Hclear.
        destruct (clear_spec fuel m' this [] Hr') as (m1 & Hrun & _ & Hfr & _);
          [simpl; lia|].
        rewrite Hclear in Hrun. injection Hrun as <-.
        by rewrite (frame_objs _ _ _ _ Hfr).
      * intros ops m'' [xs' Hseq] Hrun.
        destruct (run_ops_spec m' this [] ops xs' Hr' Hseq)
          as (m1 & cs1 & Hrun1 & _ & Hfr & _).
        assert (m1 = m'') as ->.
        { destruct Hrun as [Hrun | Hrun], Hrun1 as [[Hrun1 _] | Hrun1];
            rewrite Hrun in Hrun1; congruence. }
        by rewrite (frame_objs _ _ _ _ Hfr).
    + right. done.
Qed.

Lemma front_back_behaviour_witness :
  (@nil (loc * Z) <> [] ->
   exists e x e' x',
     head (@nil (loc * Z)) = Some (e, x) /\ last (@nil (loc * Z)) = Some (e', x') /\
     front 0 1%positive m_none = Ok (Ref_data e) m_none /\
     read_ref (Ref_data e) m_none = Ok x m_none /\
     back 0 1%positive m_none = Ok (Ref_data e') m_none /\
     read_ref (Ref_data e') m_none = Ok x' m_none) /\
  (@nil (loc * Z) = [] ->
   (heap_cells m_none < HEAP_LIMIT /\
    exists a m',
      objs m_none !! a = None /\
      m' = mkMem (nodes m_none) (<[a := 0]> (objs m_none)) (lists m_none) /\
      front 0 1%positive m_none = Ok (Ref_obj a) m' /\
      back 0 1%positive m_none = Ok (Ref_obj a) m' /\
      read_ref (Ref_obj a) m' = Ok 0 m' /\
      (forall (fuel : nat) m'',
          clear fuel 1%positive m' = Ok tt m'' -> objs m'' !! a = Some 0) /\
      (forall (ops : list (op Z)) m'',
          is_Some (seq_ops [] ops) ->
          run_ops 1%positive ops m' = Ok tt m'' \/
          run_ops 1%positive ops m' = Throw m'' ->
          objs m'' !! a = Some 0)) \/
   (HEAP_LIMIT <= heap_cells m_none /\
    front 0 1%positive m_none = Throw m_none /\
    back 0 1%positive m_none = Throw m_none)).
Proof.
  apply (front_back_behaviour 0 m_none 1%positive []).
  concrete_repr.
Defined.

(** ** The structural invariants (C6) *)

(** C6: a constructor call either throws [std::bad_alloc] or returns
    with a list; take that list and any finite sequence of push_front,
    push_back, pop_front, pop_back, insert (either overload) and erase
    calls whose positions exist in the list when they are used.  The
    calls all return, or [new] throws in one of them; in the store so
    reached [size()] is the number of Nodes met from [pHead] along [pNext]
    and from [pTail] along [pPrev], [pHead] is null iff [pTail] is null
    iff the count is 0, and adjacent Nodes point at each other. *)
Theorem invariants_hold {T} (dflt : T) (fuel : nat) (m : mem T) (this : loc)
    (c : ctor T) :
  ctor_ready fuel m this c ->
  exists m1,
    construct dflt fuel this c m = Throw m1 \/
    (construct dflt fuel this c m = Ok tt m1 /\
     exists xs,
       contents m1 this = Some xs /\
       forall ops : list (op T),
         is_Some (seq_ops xs ops) ->
         exists m', (run_ops this ops m1 = Ok tt m' \/
                     run_ops this ops m1 = Throw m') /\
                    Invariants m' this).
Proof.
  intros Hready.
  destruct (construct_spec dflt fuel m this c Hready)
    as (m1 & [Hrun | (Hrun & cs & Hr)]); exists m1; [by left | right].
  split; [done|].
  exists cs.*2. split; [by apply repr_contents|].
  intros ops [xs' Hseq].
  destruct (run_ops_spec m1 this cs ops xs' Hr Hseq)
    as (m' & cs' & Hrun' & Hr' & _).
  exists m'. split.
  - destruct Hrun' as [[? _] | ?]; auto.
  - by eapply repr_Invariants.
Qed.

(** The list built from the initializer list 1, 2, 3 in the empty store. *)
Lemma invariants_hold_witness :
  exists m1,
    construct 0 0%nat 1%positive (Ctor_il [1; 2; 3]) m_empty = Throw m1 \/
    (construct 0 0%nat 1%positive (Ctor_il [1; 2; 3]) m_empty = Ok tt m1 /\
     exists xs,
       contents m1 1%positive = Some xs /\
       forall ops : list (op Z),
         is_Some (seq_ops xs ops) ->
         exists m', (run_ops 1%positive ops m1 = Ok tt m' \/
                     run_ops 1%positive ops m1 = Throw m') /\
                    Invariants m' 1%positive).
Proof.
  apply (invariants_hold 0 0%nat m_empty 1%positive (Ctor_il [1; 2; 3])).
  exact I.
Defined.

(** The constructors of the specification's scenarios, run: the
    initializer list 1, 2, 3 and the fill constructor [list(3, 7)]. *)
Example construct_123 :
  construct 0 0%nat 1%positive (Ctor_il [1; 2; 3]) m_empty = Ok tt m_123 /\
  contents m_123 1%positive = Some [1; 2; 3] /\
  size_ 1%positive m_123 = Ok 3 m_123.
Proof. repeat split; vm_compute; reflexivity. Qed.

Example construct_fill_3_7 :
  exists m', construct 0 0%nat 1%positive (Ctor_fill 3 7) m_empty = Ok tt m' /\
             contents m' 1%positive = Some [7; 7; 7] /\
             size_ 1%positive m' = Ok 3 m'.
Proof.
  eexists. split; [vm_compute; reflexivity|].
  split; vm_compute; reflexivity.
Qed.

(** Scenarios B and C of the specification, run. *)
Example erase_second_of_123 :
  exists m', run_ops 1%positive [Op_erase 1] m_123 = Ok tt m' /\
             contents m' 1%positive = Some [1; 3] /\
             size_ 1%positive m' = Ok 2 m'.
Proof.
  eexists. split; [vm_compute; reflexivity|].
  split; vm_compute; reflexivity.
Qed.

Example insert_second_of_123 :
  exists m', run_ops 1%positive [Op_insert 1 9] m_123 = Ok tt m' /\
             contents m' 1%positive = Some [1; 9; 2; 3] /\
             size_ 1%positive m' = Ok 4 m'.
Proof.
  eexists. split; [vm_compute; reflexivity|].
  split; vm_compute; reflexivity.
Qed.

(** ** pop_front, pop_back, erase (C7) *)

(** C7: on an empty list [pop_front] and [pop_back] return and leave the
    store as it is; [erase] at [end()] returns [end()] and leaves the
    store as it is; [erase] at a Node of the list unlinks and deletes that
    Node, takes one off the count and returns the iterator of the Node
    after it, [end()] when it was the last. *)
Theorem pop_erase_behaviour {T} (m : mem T) (this : loc) :
  (repr m this [] ->
   pop_front this m = Ok tt m /\ pop_back this m = Ok tt m) /\
  erase this None m = Ok None m /\
  (forall cs1 e x cs2,
      repr m this (cs1 ++ (e, x) :: cs2) ->
      exists m',
        erase this (Some e) m = Ok (first_ptr cs2 None) m' /\
        repr m' this (cs1 ++ cs2) /\
        nodes m' !! e = None /\
        contents m' this = Some (cs1.*2 ++ cs2.*2) /\
        size_ this m' = Ok (Z.of_nat (length (cs1 ++ (e, x) :: cs2)) - 1) m').
Proof.
  split; [|split; [reflexivity|]].
  - intros Hr.
    destruct (pop_front_spec m this [] Hr) as (m1 & Hrun1 & _ & _ & Heq1 & _).
    destruct (pop_back_spec m this [] Hr) as (m2 & Hrun2 & _ & _ & Heq2 & _).
    rewrite Hrun1, Hrun2, (Heq1 eq_refl), (Heq2 eq_refl). done.
  - intros cs1 e x cs2 Hr.
    destruct (erase_spec m this cs1 e x cs2 Hr) as (m' & Hrun & Hr' & _ & Hdom).
    exists m'. split; [done|]. split; [done|]. split; [|split].
    + apply not_elem_of_dom. rewrite Hdom. set_solver.
    + rewrite (repr_contents _ _ _ Hr'). by rewrite fmap_app.
    + unfold size_.
      rewrite (get_numElements_Ok _ _ _ (repr_obj _ _ _ Hr')). cbn [numElements].
      f_equal. rewrite !length_app. cbn [length]. lia.
Qed.

Lemma pop_erase_behaviour_witness :
  (pop_front 1%positive m_none = Ok tt m_none /\
   pop_back 1%positive m_none = Ok tt m_none) /\
  erase 1%positive None m_123 = Ok None m_123 /\
  exists m',
    erase 1%positive (Some 2%positive) m_123
      = Ok (first_ptr [(3%positive, 3)] None) m' /\
    repr m' 1%positive ([(1%positive, 1)] ++ [(3%positive, 3)]) /\
    nodes m' !! 2%positive = None /\
    contents m' 1%positive = Some ([(1%positive, 1)].*2 ++ [(3%positive, 3)].*2) /\
    size_ 1%positive m'
      = Ok (Z.of_nat (length ([(1%positive, 1)] ++ (2%positive, 2) :: [(3%positive, 3)])) - 1)
           m'.
Proof.
  split; [|split].
  - apply (pop_erase_behaviour m_none 1%positive). concrete_repr.
  - apply (pop_erase_behaviour m_123 1%positive).
  - apply (proj2 (proj2 (pop_erase_behaviour m_123 1%positive))
             [(1%positive, 1)] 2%positive 2 [(3%positive, 3)]).
    concrete_repr.
Defined.

Example pop_on_empty :
  pop_front 1%positive m_none = Ok tt m_none /\
  pop_back 1%positive m_none = Ok tt m_none.
Proof. split; vm_compute; reflexivity. Qed.

(** ** Move construction (C8) *)

(** C8: the move constructor gives the new list object the source's
    [pHead], [pTail] and [numElements], touches no Node, and leaves the
    source with null pointers and the count 0: the new list holds the
    source's elements in order and the source is empty. *)
Theorem move_construction {T} (m : mem T) (this rhs : loc) (cr : chain T) :
  this <> rhs ->
  repr m rhs cr ->
  exists m',
    list_move this rhs m = Ok tt m' /\
    lists m' !! this = lists m !! rhs /\
    nodes m' = nodes m /\
    lists m' !! rhs = Some (mkList 0 None None) /\
    contents m' this = contents m rhs /\
    contents m' this = Some cr.*2 /\
    contents m' rhs = Some [] /\
    Invariants m' this /\ Invariants m' rhs.
Proof.
  intros Hne Hr.
  destruct (list_move_spec m this rhs cr Hne Hr)
    as (m' & Hrun & Hthis & Hrhs & Hnodes & _).
  exists m'. split; [done|].
  split; [by rewrite (repr_obj _ _ _ Hthis), (repr_obj _ _ _ Hr)|].
  split; [done|]. split; [apply (repr_obj _ _ _ Hrhs)|].
  rewrite (repr_contents _ _ _ Hthis), (repr_contents _ _ _ Hr),
          (repr_contents _ _ _ Hrhs).
  split; [done|]. split; [done|]. split; [done|].
  split; by eapply repr_Invariants.
Qed.

(** Scenario D of the specification: A holds 1, 2 and B is move
    constructed from A. *)
Lemma move_construction_witness :
  exists m',
    list_move 2%positive 1%positive m_12 = Ok tt m' /\
    lists m' !! 2%positive = lists m_12 !! 1%positive /\
    nodes m' = nodes m_12 /\
    lists m' !! 1%positive = Some (mkList 0 None None) /\
    contents m' 2%positive = contents m_12 1%positive /\
    contents m' 2%positive = Some [(1%positive, 1); (2%positive, 2)].*2 /\
    contents m' 1%positive = Some [] /\
    Invariants m' 2%positive /\ Invariants m' 1%positive.
Proof.
  apply (move_construction m_12 2%positive 1%positive
           [(1%positive, 1); (2%positive, 2)]).
  - vm_compute. discriminate.
  - concrete_repr.
Defined.

(** ** Copy construction and copy assignment (C9, C10) *)

(** C9: given room on the heap for the copies, the copy constructor and
    copy assignment return with the destination holding the source's
    elements in the source's order, in Nodes of its own: no Node belongs
    to both lists, and calls that change one list leave the elements of
    the other as they are.  Assigning a list to itself returns at once
    and changes nothing. *)
Theorem copy_is_deep {T} (fuel : nat) (m : mem T) (this rhs : loc) (cr : chain T) :
  repr m rhs cr ->
  (length cr <= fuel)%nat ->
  (this <> rhs ->
   heap_cells m + Z.of_nat (length cr) <= HEAP_LIMIT ->
   exists m' new,
     list_copy fuel this rhs m = Ok tt m' /\ copy_result m' this rhs cr new) /\
  (forall cs,
      this <> rhs ->
      repr m this cs ->
      (forall b, b ∈ cr.*1 -> b ∉ cs.*1) ->
      (length cs <= fuel)%nat ->
      heap_cells m - Z.of_nat (length cs) + Z.of_nat (length cr) <= HEAP_LIMIT ->
      exists m' new,
        assign_copy fuel this rhs m = Ok this m' /\
        copy_result m' this rhs cr new) /\
  assign_copy fuel rhs rhs m = Ok rhs m.
Proof.
  intros Hrhs Hfuel. split; [|split; [|apply assign_copy_self]].
  - intros Hne Hroom.
    destruct (list_copy_spec fuel m this rhs cr Hne Hrhs Hfuel)
      as (m' & new & Hrun & Hthis' & Hrhs' & _ & Hfresh & Hcells).
    destruct Hrun as [[Hrun Hvals] | (_ & Hfull & Hshort)]; [|lia].
    exists m', new. split; [done|].
    apply copy_result_intro; try done.
    intros b Hb Hin. apply Hfresh in Hb.
    eapply dlseg_is_Some in Hin; [|apply (repr_chain _ _ _ Hrhs)].
    rewrite Hb in Hin. by destruct Hin.
  - intros cs Hne Hthis Hdisj Hfcs Hroom.
    destruct (assign_copy_spec fuel m this rhs cs cr Hne Hthis Hrhs Hdisj Hfcs Hfuel)
      as (m' & new & Hrun & Hthis' & Hrhs' & _ & Hns & Hcells).
    destruct Hrun as [[Hrun Hvals] | (_ & Hfull & Hshort)]; [|lia].
    exists m', new. split; [done|].
    by apply copy_result_intro.
Qed.

Lemma copy_is_deep_witness :
  (exists m' new,
     list_copy 2%nat 3%positive 2%positive m_two = Ok tt m' /\
     copy_result m' 3%positive 2%positive [(2%positive, 2); (3%positive, 3)] new) /\
  (exists m' new,
     assign_copy 2%nat 1%positive 2%positive m_two = Ok 1%positive m' /\
     copy_result m' 1%positive 2%positive [(2%positive, 2); (3%positive, 3)] new) /\
  assign_copy 2%nat 2%positive 2%positive m_two = Ok 2%positive m_two.
Proof.
  assert (Hrhs : repr m_two 2%positive [(2%positive, 2); (3%positive, 3)])
    by concrete_repr.
  assert (Hfuel : (length [(2%positive, 2); (3%positive, 3)] <= 2)%nat)
    by (vm_compute; lia).
  destruct (copy_is_deep 2%nat m_two 1%positive 2%positive
              [(2%positive, 2); (3%positive, 3)] Hrhs Hfuel) as (_ & Hassign & _).
  split; [|split].
  - apply (copy_is_deep 2%nat m_two 3%positive 2%positive
             [(2%positive, 2); (3%positive, 3)] Hrhs Hfuel);
      [discriminate | vm_compute; discriminate].
  - apply (Hassign [(1%positive, 1)]).
    + discriminate.
    + concrete_repr.
    + intros b Hb Hb'. simpl in Hb, Hb'.
      apply list_elem_of_singleton in Hb' as ->.
      apply (bool_decide_pack _) in Hb. vm_compute in Hb. exact Hb.
    + vm_compute. lia.
    + vm_compute. discriminate.
  - apply (copy_is_deep 2%nat m_two 2%positive 2%positive
             [(2%positive, 2); (3%positive, 3)] Hrhs Hfuel).
Defined.

(** C10: whether the copy constructor and copy assignment return or
    throw, the source they take by non-const reference is what it was:
    the same [pHead], [pTail] and [numElements], the same Nodes, the same
    elements in the same order. *)
Theorem copy_leaves_source {T} (fuel : nat) (m : mem T) (this rhs : loc)
    (cr : chain T) :
  repr m rhs cr ->
  (length cr <= fuel)%nat ->
  (this <> rhs ->
   exists m',
     (list_copy fuel this rhs m = Ok tt m' \/ list_copy fuel this rhs m = Throw m') /\
     source_same m m' rhs cr) /\
  (forall cs,
      this <> rhs ->
      repr m this cs ->
      (forall b, b ∈ cr.*1 -> b ∉ cs.*1) ->
      (length cs <= fuel)%nat ->
      exists m',
        (assign_copy fuel this rhs m = Ok this m' \/
         assign_copy fuel this rhs m = Throw m') /\
        source_same m m' rhs cr) /\
  (exists m', assign_copy fuel rhs rhs m = Ok rhs m' /\ source_same m m' rhs cr).
Proof.
  intros Hrhs Hfuel. split; [|split].
  - intros Hne.
    destruct (list_copy_spec fuel m this rhs cr Hne Hrhs Hfuel)
      as (m' & new & Hrun & _ & Hrhs' & Hfr & _).
    exists m'. split.
    + destruct Hrun as [[? _] | [? _]]; auto.
    + eapply source_same_intro; eauto.
      intros b _ Hb. by apply elem_of_nil in Hb.
  - intros cs Hne Hthis Hdisj Hfcs.
    destruct (assign_copy_spec fuel m this rhs cs cr Hne Hthis Hrhs Hdisj Hfcs Hfuel)
      as (m' & new & Hrun & _ & Hrhs' & Hfr & _).
    exists m'. split.
    + destruct Hrun as [[? _] | [? _]]; auto.
    + eapply source_same_intro; eauto.
  - exists m. split; [apply assign_copy_self|]. by split.
Qed.

Lemma copy_leaves_source_witness :
  (exists m',
     (list_copy 2%nat 3%positive 2%positive m_two = Ok tt m' \/
      list_copy 2%nat 3%positive 2%positive m_two = Throw m') /\
     source_same m_two m' 2%positive [(2%positive, 2); (3%positive, 3)]) /\
  (exists m',
     (assign_copy 2%nat 1%positive 2%positive m_two = Ok 1%positive m' \/
      assign_copy 2%nat 1%positive 2%positive m_two = Throw m') /\
     source_same m_two m' 2%positive [(2%positive, 2); (3%positive, 3)]) /\
  (exists m',
     assign_copy 2%nat 2%positive 2%positive m_two = Ok 2%positive m' /\
     source_same m_two m' 2%positive [(2%positive, 2); (3%positive, 3)]).
Proof.
  assert (Hrhs : repr m_two 2%positive [(2%positive, 2); (3%positive, 3)])
    by concrete_repr.
  assert (Hfuel : (length [(2%positive, 2); (3%positive, 3)] <= 2)%nat)
    by (vm_compute; lia).
  destruct (copy_leaves_source 2%nat m_two 1%positive 2%positive
              [(2%positive, 2); (3%positive, 3)] Hrhs Hfuel) as (_ & Hassign & _).
  split; [|split].
  - apply (copy_leaves_source 2%nat m_two 3%positive 2%positive
             [(2%positive, 2); (3%positive, 3)] Hrhs Hfuel).
    discriminate.
  - apply (Hassign [(1%positive, 1)]).
    + discriminate.
    + concrete_repr.
    + intros b Hb Hb'. simpl in Hb, Hb'.
      apply list_elem_of_singleton in Hb' as ->.
      apply (bool_decide_pack _) in Hb. vm_compute in Hb. exact Hb.
    + vm_compute. lia.
  - apply (copy_leaves_source 2%nat m_two 2%positive 2%positive
             [(2%positive, 2); (3%positive, 3)] Hrhs Hfuel).
Defined.

(** Copy construction and copy assignment on the example store, run. *)
Example copy_of_two :
  exists m', list_copy 2%nat 3%positive 2%positive m_two = Ok tt m' /\
             contents m' 3%positive = Some [2; 3] /\
             contents m' 2%positive = Some [2; 3].
Proof.
  eexists. split; [vm_compute; reflexivity|].
  split; vm_compute; reflexivity.
Qed.

Example assign_of_two :
  exists m', assign_copy 2%nat 1%positive 2%positive m_two = Ok 1%positive m' /\
             contents m' 1%positive = Some [2; 3] /\
             contents m' 2%positive = Some [2; 3].
Proof.
  eexists. split; [vm_compute; reflexivity|].
  split; vm_compute; reflexivity.
Qed.

(** * More of the code: the other member functions *)

Ltac heap_not_full H := vm_compute in H; exfalso; apply H; reflexivity.

Lemma size_Ok {T} (m : mem T) this cs :
  repr m this cs -> size_ this m = Ok (Z.of_nat (length cs)) m.
Proof.
  intros Hr. unfold size_.
  by rewrite (get_numElements_Ok _ _ _ (repr_obj _ _ _ Hr)).
Qed.

Lemma heap_cells_dealloc {T} (m m' : mem T) e :
  dom (nodes m') = dom (nodes m) ∖ {[e]} -> is_Some (nodes m !! e) ->
  objs m' = objs m -> heap_cells m' = heap_cells m - 1.
Proof.
  intros Hdom He Ho. unfold heap_cells. rewrite Ho.
  assert (Hsub : ({[e]} : gset loc) ⊆ dom (nodes m)).
  { apply singleton_subseteq_l. by apply elem_of_dom. }
  pose proof (subseteq_size _ _ Hsub) as Hle.
  rewrite <- !size_dom, Hdom, size_difference by done.
  rewrite size_singleton in *. lia.
Qed.

(** Two stores in which the list at [this] has the same chain and
    everything else is the same are the same store. *)
Lemma same_store {T} (m m' : mem T) this cs :
  repr m this cs -> repr m' this cs ->
  (forall l, l <> this -> lists m' !! l = lists m !! l) ->
  (forall b, b ∉ cs.*1 -> is_Some (nodes m !! b) -> nodes m' !! b = nodes m !! b) ->
  objs m' = objs m ->
  dom (nodes m') = dom (nodes m) ->
  m' = m.
Proof.
  intros Hr Hr' Hl Hn Ho Hdom.
  assert (HN : nodes m' = nodes m).
  { apply map_eq. intros b.
    destruct (decide (b ∈ cs.*1)) as [Hin | Hnin].
    - apply list_elem_of_fmap in Hin as (c & -> & Hc).
      apply list_elem_of_lookup in Hc as [i Hi].
      rewrite (dlseg_lookup _ _ _ _ _ _ (repr_chain _ _ _ Hr) Hi).
      by rewrite (dlseg_lookup _ _ _ _ _ _ (repr_chain _ _ _ Hr') Hi).
    - destruct (nodes m !! b) as [nd|] eqn:HNb.
      + rewrite <- HNb. apply Hn; [done|]. rewrite HNb. eauto.
      + apply not_elem_of_dom. rewrite Hdom. by apply not_elem_of_dom. }
  assert (HL : lists m' = lists m).
  { apply map_eq. intros l. destruct (decide (l = this)) as [-> | Hne].
    - by rewrite (repr_obj _ _ _ Hr), (repr_obj _ _ _ Hr').
    - by apply Hl. }
  destruct m, m'. cbn [nodes objs lists] in *. by subst.
Qed.

(** ** push_back, push_front *)

(** X1: [push_back] (either overload) on a list holding [xs] either
    returns with the list holding [xs ++ [d]], [size()] one more, the new
    Node last (so [back()] refers to [d]) and one more object on the heap,
    or throws [std::bad_alloc] with the store exactly as it was. *)
Theorem push_back_appends {T} (dflt : T) (m : mem T) (this : loc) (cs : chain T) d :
  repr m this cs ->
  (heap_cells m < HEAP_LIMIT /\
   exists a m',
     push_back this d m = Ok tt m' /\
     push_back_move this d m = Ok tt m' /\
     nodes m !! a = None /\
     contents m' this = Some (cs.*2 ++ [d]) /\
     size_ this m' = Ok (Z.of_nat (length cs) + 1) m' /\
     back dflt this m' = Ok (Ref_data a) m' /\
     read_ref (Ref_data a) m' = Ok d m' /\
     Invariants m' this /\
     heap_cells m' = heap_cells m + 1) \/
  (HEAP_LIMIT <= heap_cells m /\
   push_back this d m = Throw m /\ push_back_move this d m = Throw m).
Proof.
  intros Hr.
  destruct (push_back_spec m this cs d Hr)
    as [[Hroom (a & m' & Hrun & Ha & Hr' & Hfr & Hdom)] | [Hfull Hrun]];
    [left; split; [done|] | right; done].
  destruct (back_nonempty_spec dflt m' this cs a d Hr') as [Hback Hread].
  exists a, m'. split; [done|]. split; [done|]. split; [done|].
  split; [by rewrite (repr_contents _ _ _ Hr'), fmap_app|].
  split; [rewrite (size_Ok _ _ _ Hr'), length_app; f_equal; simpl; lia|].
  split; [done|]. split; [done|]. split; [by eapply repr_Invariants|].
  eapply heap_cells_alloc; [exact Hdom | exact Ha | apply (frame_objs _ _ _ _ Hfr)].
Qed.

Lemma push_back_appends_witness :
  exists m', push_back 1%positive 4 m_123 = Ok tt m' /\
             contents m' 1%positive = Some [1; 2; 3; 4] /\
             size_ 1%positive m' = Ok 4 m'.
Proof.
  destruct (push_back_appends 0 m_123 1%positive
              [(1%positive, 1); (2%positive, 2); (3%positive, 3)] 4)
    as [[_ (a & m' & Hrun & _ & _ & Hc & Hs & _)] | [Hfull _]].
  - concrete_repr.
  - exists m'. split; [exact Hrun|]. split; [exact Hc | exact Hs].
  - heap_not_full Hfull.
Defined.

(** X2: [push_front] (either overload) on a list holding [xs] either
    returns with the list holding [d :: xs], [size()] one more, the new
    Node first (so [front()] refers to [d]) and one more object on the
    heap, or throws [std::bad_alloc] with the store exactly as it was. *)
Theorem push_front_prepends {T} (dflt : T) (m : mem T) (this : loc) (cs : chain T) d :
  repr m this cs ->
  (heap_cells m < HEAP_LIMIT /\
   exists a m',
     push_front this d m = Ok tt m' /\
     push_front_move this d m = Ok tt m' /\
     nodes m !! a = None /\
     contents m' this = Some (d :: cs.*2) /\
     size_ this m' = Ok (Z.of_nat (length cs) + 1) m' /\
     front dflt this m' = Ok (Ref_data a) m' /\
     read_ref (Ref_data a) m' = Ok d m' /\
     Invariants m' this /\
     heap_cells m' = heap_cells m + 1) \/
  (HEAP_LIMIT <= heap_cells m /\
   push_front this d m = Throw m /\ push_front_move this d m = Throw m).
Proof.
  intros Hr.
  destruct (push_front_spec m this cs d Hr)
    as [[Hroom (a & m' & Hrun & Ha & Hr' & Hfr & Hdom)] | [Hfull Hrun]];
    [left; split; [done|] | right; done].
  destruct (front_nonempty_spec dflt m' this a d cs Hr') as [Hfront Hread].
  exists a, m'. split; [done|]. split; [done|]. split; [done|].
  split; [by rewrite (repr_contents _ _ _ Hr'), fmap_cons|].
  split; [rewrite (size_Ok _ _ _ Hr'); f_equal; simpl; lia|].
  split; [done|]. split; [done|]. split; [by eapply repr_Invariants|].
  eapply heap_cells_alloc; [exact Hdom | exact Ha | apply (frame_objs _ _ _ _ Hfr)].
Qed.

Lemma push_front_prepends_witness :
  exists m', push_front 1%positive 0 m_123 = Ok tt m' /\
             contents m' 1%positive = Some [0; 1; 2; 3] /\
             size_ 1%positive m' = Ok 4 m'.
Proof.
  destruct (push_front_prepends 0 m_123 1%positive
              [(1%positive, 1); (2%positive, 2); (3%positive, 3)] 0)
    as [[_ (a & m' & Hrun & _ & _ & Hc & Hs & _)] | [Hfull _]].
  - concrete_repr.
  - exists m'. split; [exact Hrun|]. split; [exact Hc | exact Hs].
  - heap_not_full Hfull.
Defined.

(** ** pop_back, pop_front on a list that is not empty *)

(** X3: [pop_back] on a list holding [xs ++ [x]] returns with the list
    holding [xs]: [size()] is one less, the last Node is deleted (one
    object less on the heap), and every other list keeps its object and
    its Nodes. *)
Theorem pop_back_removes_last {T} (m : mem T) (this : loc) (cs : chain T) e x :
  repr m this (cs ++ [(e, x)]) ->
  exists m',
    pop_back this m = Ok tt m' /\
    contents m' this = Some cs.*2 /\
    size_ this m' = Ok (Z.of_nat (length cs)) m' /\
    nodes m' !! e = None /\
    heap_cells m' = heap_cells m - 1 /\
    Invariants m' this /\
    (forall other co, other <> this -> repr m other co ->
                      (forall b, b ∈ co.*1 -> b ∉ (cs ++ [(e, x)]).*1) ->
                      repr m' other co).
Proof.
  intros Hr.
  destruct (pop_back_spec m this _ Hr) as (m' & Hrun & Hr' & Hfr & _ & Hdom).
  rewrite removelast_last in Hr'.
  specialize (Hdom (e, x) (last_snoc _ _)). cbn [fst] in Hdom.
  exists m'. split; [done|].
  split; [by apply repr_contents|]. split; [by apply size_Ok|].
  split; [apply not_elem_of_dom; rewrite Hdom; set_solver|].
  split.
  { eapply heap_cells_dealloc; [exact Hdom | | apply (frame_objs _ _ _ _ Hfr)].
    eapply dlseg_is_Some; [apply (repr_chain _ _ _ Hr)|].
    rewrite fmap_app. set_solver. }
  split; [by eapply repr_Invariants|].
  intros other co Hne Ho Hdisj. eapply frame_repr; eauto.
Qed.

Lemma pop_back_removes_last_witness :
  exists m', pop_back 1%positive m_123 = Ok tt m' /\
             contents m' 1%positive = Some [1; 2] /\
             size_ 1%positive m' = Ok 2 m' /\
             nodes m' !! 3%positive = None.
Proof.
  destruct (pop_back_removes_last m_123 1%positive
              [(1%positive, 1); (2%positive, 2)] 3%positive 3)
    as (m' & Hrun & Hc & Hs & Hn & _).
  - concrete_repr.
  - exists m'. split; [exact Hrun|]. split; [exact Hc|]. split; [exact Hs | exact Hn].
Defined.

(** X4: [pop_front] on a list holding [x :: xs] returns with the list
    holding [xs]: [size()] is one less, the first Node is deleted (one
    object less on the heap), and every other list keeps its object and
    its Nodes. *)
Theorem pop_front_removes_first {T} (m : mem T) (this : loc) e x (cs : chain T) :
  repr m this ((e, x) :: cs) ->
  exists m',
    pop_front this m = Ok tt m' /\
    contents m' this = Some cs.*2 /\
    size_ this m' = Ok (Z.of_nat (length cs)) m' /\
    nodes m' !! e = None /\
    heap_cells m' = heap_cells m - 1 /\
    Invariants m' this /\
    (forall other co, other <> this -> repr m other co ->
                      (forall b, b ∈ co.*1 -> b ∉ ((e, x) :: cs).*1) ->
                      repr m' other co).
Proof.
  intros Hr.
  destruct (pop_front_spec m this _ Hr) as (m' & Hrun & Hr' & Hfr & _ & Hdom).
  cbn [tail] in Hr'.
  specialize (Hdom (e, x) eq_refl). cbn [fst] in Hdom.
  exists m'. split; [done|].
  split; [by apply repr_contents|]. split; [by apply size_Ok|].
  split; [apply not_elem_of_dom; rewrite Hdom; set_solver|].
  split.
  { eapply heap_cells_dealloc; [exact Hdom | | apply (frame_objs _ _ _ _ Hfr)].
    eapply dlseg_is_Some; [apply (repr_chain _ _ _ Hr)|].
    rewrite fmap_cons. set_solver. }
  split; [by eapply repr_Invariants|].
  intros other co Hne Ho Hdisj. eapply frame_repr; eauto.
Qed.

Lemma pop_front_removes_first_witness :
  exists m', pop_front 1%positive m_123 = Ok tt m' /\
             contents m' 1%positive = Some [2; 3] /\
             size_ 1%positive m' = Ok 2 m' /\
             nodes m' !! 1%positive = None.
Proof.
  destruct (pop_front_removes_first m_123 1%positive 1%positive 1
              [(2%positive, 2); (3%positive, 3)])
    as (m' & Hrun & Hc & Hs & Hn & _).
  - concrete_repr.
  - exists m'. split; [exact Hrun|]. split; [exact Hc|]. split; [exact Hs | exact Hn].
Defined.

(** ** clear and the destructor *)

Lemma empty_Ok {T} (m : mem T) this cs :
  repr m this cs -> empty this m = Ok (bool_decide (cs = [])) m.
Proof.
  intros Hr. pose proof (repr_obj _ _ _ Hr) as Hobj.
  destruct cs as [|c cs]; cbn [first_ptr] in Hobj; mrun; done.
Qed.

(** X5: [clear] on a list of [n] Nodes returns (after [n] turns of its
    loop) with the list empty; every Node the list owned is deleted, so
    the heap holds [n] objects less; the other lists keep their objects
    and Nodes; and clearing again changes nothing. *)
Theorem clear_releases_all {T} (fuel : nat) (m : mem T) (this : loc) (cs : chain T) :
  repr m this cs ->
  (length cs <= fuel)%nat ->
  exists m',
    clear fuel this m = Ok tt m' /\
    contents m' this = Some [] /\
    size_ this m' = Ok 0 m' /\
    empty this m' = Ok true m' /\
    (forall b, b ∈ cs.*1 -> nodes m' !! b = None) /\
    heap_cells m' = heap_cells m - Z.of_nat (length cs) /\
    Invariants m' this /\
    (forall other co, other <> this -> repr m other co ->
                      (forall b, b ∈ co.*1 -> b ∉ cs.*1) -> repr m' other co) /\
    clear fuel this m' = Ok tt m'.
Proof.
  intros Hr Hfuel.
  destruct (clear_spec fuel m this cs Hr Hfuel)
    as (m' & Hrun & Hr' & Hfr & Hdom & Hcells).
  exists m'. split; [done|].
  split; [apply (repr_contents _ _ _ Hr')|].
  split; [apply (size_Ok _ _ _ Hr')|].
  split; [apply (empty_Ok _ _ _ Hr')|].
  split.
  { intros b Hb. apply not_elem_of_dom. rewrite Hdom.
    apply not_elem_of_difference. right. by apply elem_of_list_to_set. }
  split; [done|]. split; [by eapply repr_Invariants|]. split.
  { intros other co Hne Ho Hdisj. eapply frame_repr; eauto. }
  destruct (clear_spec fuel m' this [] Hr') as (m'' & Hrun2 & Hr'' & Hfr2 & Hdom2 & _);
    [simpl; lia|].
  rewrite Hrun2. f_equal.
  eapply same_store; [exact Hr' | exact Hr'' | apply (frame_lists _ _ _ _ Hfr2)
                     | apply (frame_nodes _ _ _ _ Hfr2) | apply (frame_objs _ _ _ _ Hfr2) |].
  rewrite Hdom2. set_solver.
Qed.

Lemma clear_releases_all_witness :
  exists m', clear 3%nat 1%positive m_123 = Ok tt m' /\
             contents m' 1%positive = Some [] /\
             nodes m' !! 2%positive = None /\
             heap_cells m' = heap_cells m_123 - 3.
Proof.
  destruct (clear_releases_all 3%nat m_123 1%positive
              [(1%positive, 1); (2%positive, 2); (3%positive, 3)])
    as (m' & Hrun & Hc & _ & _ & Hn & Hh & _).
  - concrete_repr.
  - vm_compute. lia.
  - exists m'. split; [exact Hrun|]. split; [exact Hc|]. split; [|exact Hh].
    apply Hn. apply (bool_decide_unpack _). vm_compute. exact I.
Defined.

(** X6: the destructor of a list of [n] Nodes returns with every Node of
    the list deleted and the list object gone, and with everything else
    in the store (the other list objects, every other Node, the
    free-standing objects) exactly as it was. *)
Theorem list_destroy_releases {T} (fuel : nat) (m : mem T) (this : loc)
    (cs : chain T) :
  repr m this cs ->
  (length cs <= fuel)%nat ->
  exists m',
    list_destroy fuel this m = Ok tt m' /\
    lists m' !! this = None /\
    (forall l, l <> this -> lists m' !! l = lists m !! l) /\
    (forall b, b ∈ cs.*1 -> nodes m' !! b = None) /\
    (forall b, b ∉ cs.*1 -> nodes m' !! b = nodes m !! b) /\
    objs m' = objs m /\
    heap_cells m' = heap_cells m - Z.of_nat (length cs).
Proof.
  intros Hr Hfuel.
  destruct (clear_spec fuel m this cs Hr Hfuel)
    as (m1 & Hrun & Hr1 & Hfr & Hdom & Hcells).
  unfold list_destroy. rewrite (bind_Ok _ _ _ _ _ Hrun).
  eexists. split; [reflexivity|]. cbn [nodes objs lists].
  split; [apply lookup_delete_eq|]. split.
  { intros l Hl. rewrite lookup_delete_ne by done.
    by apply (frame_lists _ _ _ _ Hfr). }
  split.
  { intros b Hb. apply not_elem_of_dom. rewrite Hdom.
    apply not_elem_of_difference. right. by apply elem_of_list_to_set. }
  split.
  { intros b Hb. destruct (nodes m !! b) as [nd|] eqn:Hmb.
    - rewrite <- Hmb. apply (frame_nodes _ _ _ _ Hfr); [done|].
      rewrite Hmb. eauto.
    - apply not_elem_of_dom. rewrite Hdom.
      apply not_elem_of_difference. left. by apply not_elem_of_dom. }
  split; [apply (frame_objs _ _ _ _ Hfr)|].
  unfold heap_cells in *. cbn [nodes objs]. exact Hcells.
Qed.

Lemma list_destroy_releases_witness :
  exists m', list_destroy 2%nat 2%positive m_two = Ok tt m' /\
             lists m' !! 2%positive = None /\
             lists m' !! 1%positive = lists m_two !! 1%positive /\
             nodes m' !! 3%positive = None /\
             nodes m' !! 1%positive = nodes m_two !! 1%positive.
Proof.
  destruct (list_destroy_releases 2%nat m_two 2%positive
              [(2%positive, 2); (3%positive, 3)])
    as (m' & Hrun & Hgone & Hl & Hn & Hk & _).
  - concrete_repr.
  - vm_compute. lia.
  - exists m'. split; [exact Hrun|]. split; [exact Hgone|].
    split; [apply Hl; discriminate|]. split.
    + apply Hn. apply (bool_decide_unpack _). vm_compute. exact I.
    + apply Hk. intros Hin. apply (bool_decide_pack _) in Hin.
      vm_compute in Hin. exact Hin.
Defined.

(** ** The constructors from a sequence and the fill constructors *)

(** The loop of the initializer-list and range constructors, with the
    account of the heap kept. *)
Lemma push_back_all_full {T} (m : mem T) this cs (il : list T) :
  repr m this cs ->
  exists m' new,
    ((push_back_all this il m = Ok tt m' /\ new.*2 = il) \/
     (push_back_all this il m = Throw m' /\
      HEAP_LIMIT <= heap_cells m' /\ (length new < length il)%nat)) /\
    repr m' this (cs ++ new) /\
    frame this cs.*1 m m' /\
    dom (nodes m') = list_to_set new.*1 ∪ dom (nodes m) /\
    (forall b, b ∈ new.*1 -> nodes m !! b = None) /\
    heap_cells m' = heap_cells m + Z.of_nat (length new).
Proof.
  revert m cs. induction il as [|d il IH]; intros m cs Hr.
  - exists m, []. rewrite app_nil_r. split; [by left|]. split; [done|].
    split; [apply frame_refl|]. split; [simpl; set_solver|].
    split; [by intros b Hb; apply elem_of_nil in Hb | simpl; lia].
  - cbn [push_back_all].
    destruct (push_back_spec m this cs d Hr)
      as [[_ (a & m1 & Hrun1 & Ha & Hr1 & Hfr1 & Hdom1)] | [Hfull Hrun1]].
    2: { exists m, []. rewrite app_nil_r. split.
         - right. split; [by apply bind_Throw|]. split; [done | simpl; lia].
         - split; [done|]. split; [apply frame_refl|]. split; [simpl; set_solver|].
           split; [by intros b Hb; apply elem_of_nil in Hb | simpl; lia]. }
    rewrite (bind_Ok _ _ _ _ _ Hrun1).
    destruct (IH m1 _ Hr1) as (m' & new & Hrun & Hr' & Hfr & Hdom & Hfresh & Hcells).
    rewrite <- app_assoc in Hr'. cbn [app] in Hr'.
    pose proof (heap_cells_alloc _ _ _ Hdom1 Ha (frame_objs _ _ _ _ Hfr1)) as Hc1.
    assert (Hfresh' : forall b, b ∈ ((a, d) :: new).*1 -> nodes m !! b = None).
    { intros b Hb. rewrite fmap_cons in Hb. cbn [fst] in Hb.
      apply elem_of_cons in Hb as [-> | Hb]; [done|].
      apply Hfresh in Hb. apply not_elem_of_dom in Hb. apply not_elem_of_dom.
      rewrite Hdom1 in Hb. set_solver. }
    exists m', ((a, d) :: new).
    split; [|split; [done|split; [|split; [|split; [done|]]]]].
    + destruct Hrun as [[Hrun <-] | (Hrun & Hfull & Hshort)]; [left | right].
      * done.
      * split; [done|]. split; [done | simpl; lia].
    + eapply frame_trans; [exact Hfr1 | exact Hfr |].
      intros b Hb. rewrite fmap_app in Hb. cbn [fmap list_fmap fst] in Hb.
      apply elem_of_app in Hb as [Hb | Hb]; [by left|].
      apply list_elem_of_singleton in Hb as ->. by right.
    + rewrite Hdom, Hdom1, fmap_cons. cbn [fst list_to_set]. set_solver.
    + rewrite Hcells, Hc1. cbn [length]. lia.
Qed.

(** X7: the constructor from an initializer list (and the one from an
    iterator range yielding the same elements) builds a list holding
    exactly those elements in order, with [size()] their number, one new
    Node each, and leaves every object that existed alone.  It throws
    [std::bad_alloc] only when the heap has not room for all the Nodes. *)
Theorem list_il_builds {T} (m : mem T) (this : loc) (il : list T) :
  exists m',
    (list_il this il m = Ok tt m' /\
     list_range this il m = Ok tt m' /\
     contents m' this = Some il /\
     size_ this m' = Ok (Z.of_nat (length il)) m' /\
     Invariants m' this /\
     frame this [] m m' /\
     heap_cells m' = heap_cells m + Z.of_nat (length il)) \/
    (list_il this il m = Throw m' /\
     list_range this il m = Throw m' /\
     HEAP_LIMIT < heap_cells m + Z.of_nat (length il)).
Proof.
  destruct (list_default_spec m this) as (m0 & Hrun0 & Hr0 & Hfr0).
  unfold list_default in Hrun0. unfold list_range, list_il.
  rewrite (bind_Ok _ _ _ _ _ Hrun0).
  destruct (push_back_all_full m0 this [] il Hr0)
    as (m' & new & Hrun & Hr' & Hfr & Hdom & Hfresh & Hcells).
  cbn [app] in Hr'.
  assert (Hc0 : heap_cells m0 = heap_cells m).
  { unfold put_list in Hrun0. injection Hrun0 as <-. done. }
  exists m'. destruct Hrun as [[Hrun Hvals] | (Hrun & Hfull & Hshort)].
  - left. split; [done|]. split; [done|].
    assert (Hlen : length new = length il)
      by (by rewrite <- Hvals, length_fmap).
    split; [by rewrite (repr_contents _ _ _ Hr'), Hvals|].
    split; [by rewrite (size_Ok _ _ _ Hr'), Hlen|].
    split; [by eapply repr_Invariants|]. split.
    + eapply frame_trans; [exact Hfr0 | exact Hfr |].
      intros b Hb. by apply elem_of_nil in Hb.
    + rewrite Hcells, Hc0, Hlen. done.
  - right. split; [done|]. split; [done|]. lia.
Qed.

(** X8: the fill constructor [list(num, t)] either throws
    [std::bad_alloc] or returns with a list of [num] elements, each [t],
    [size()] being [num] (the empty list for [num] 0), and touches no
    object that existed. *)
Theorem list_fill_builds {T} (m : mem T) (this : loc) (num : Z) (t : T) :
  0 <= num < SIZE_MOD ->
  exists m',
    (list_fill this num t m = Ok tt m' /\
     contents m' this = Some (replicate (Z.to_nat num) t) /\
     size_ this m' = Ok num m' /\
     empty this m' = Ok (bool_decide (num = 0)) m' /\
     Invariants m' this /\
     frame this [] m m') \/
    list_fill this num t m = Throw m'.
Proof.
  intros Hnum.
  destruct (list_fill_spec m this num t Hnum)
    as (m' & [(Hrun & cs & Hvals & Hr & Hfr) | Hrun]); exists m'; [left | by right].
  assert (Hlen : length cs = Z.to_nat num).
  { by rewrite <- (length_fmap snd cs), Hvals, length_replicate. }
  split; [done|]. split; [by rewrite (repr_contents _ _ _ Hr), Hvals|].
  split; [rewrite (size_Ok _ _ _ Hr), Hlen; f_equal; lia|].
  split.
  { rewrite (empty_Ok _ _ _ Hr). f_equal. apply bool_decide_ext.
    split; [intros ->; simpl in Hlen; lia|].
    intros ->. by destruct cs. }
  split; [by eapply repr_Invariants | done].
Qed.

Lemma list_fill_builds_witness :
  exists m', list_fill 1%positive 3 7 m_empty = Ok tt m' /\
             contents m' 1%positive = Some [7; 7; 7] /\
             size_ 1%positive m' = Ok 3 m'.
Proof.
  destruct (list_fill_builds m_empty 1%positive 3 7)
    as (m' & [(Hrun & Hc & Hs & _) | Hrun]).
  - vm_compute. split; [discriminate | reflexivity].
  - exists m'. split; [exact Hrun|]. split; [exact Hc | exact Hs].
  - vm_compute in Hrun. discriminate Hrun.
Defined.



(** X10: constructing a list from an initializer list on storage that
    held no list, and destroying it, gives back the store there was: no
    Node is leaked and nothing else is touched.  (When the constructor
    throws there is no list to destroy.) *)
Theorem construct_destroy_round_trip {T} (m : mem T) (this : loc) (il : list T) :
  lists m !! this = None ->
  exists m1,
    list_il this il m = Throw m1 \/
    (list_il this il m = Ok tt m1 /\
     list_destroy (length il) this m1 = Ok tt m).
Proof.
  intros Hnone.
  destruct (list_default_spec m this) as (m0 & Hrun0 & Hr0 & Hfr0).
  unfold list_default in Hrun0. unfold list_il.
  rewrite (bind_Ok _ _ _ _ _ Hrun0).
  assert (HN0 : nodes m0 = nodes m).
  { unfold put_list in Hrun0. injection Hrun0 as <-. done. }
  destruct (push_back_all_full m0 this [] il Hr0)
    as (m1 & new & Hrun & Hr1 & Hfr1 & Hdom1 & Hfresh & _).
  cbn [app] in Hr1. exists m1.
  destruct Hrun as [[Hrun Hvals] | (Hrun & _)]; [right | by left].
  split; [done|].
  assert (Hlen : length new = length il) by (by rewrite <- Hvals, length_fmap).
  destruct (clear_spec (length il) m1 this new Hr1) as (m2 & Hclear & Hr2 & Hfr2 & Hdom2 & _);
    [lia|].
  unfold list_destroy. rewrite (bind_Ok _ _ _ _ _ Hclear). f_equal.
  assert (HN : nodes m2 = nodes m).
  { apply map_eq. intros b. destruct (nodes m !! b) as [nd|] eqn:HNb.
    - assert (Hbn : b ∉ new.*1).
      { intros Hin. apply Hfresh in Hin. rewrite HN0 in Hin. congruence. }
      assert (Hb1 : nodes m1 !! b = Some nd).
      { rewrite (frame_nodes _ _ _ _ Hfr1 b); [by rewrite HN0 | set_solver |].
        rewrite HN0, HNb. eauto. }
      rewrite (frame_nodes _ _ _ _ Hfr2 b Hbn); [done|]. rewrite Hb1. eauto.
    - apply not_elem_of_dom. rewrite Hdom2, Hdom1, HN0.
      apply not_elem_of_dom in HNb. set_solver. }
  assert (HO : objs m2 = objs m).
  { rewrite (frame_objs _ _ _ _ Hfr2), (frame_objs _ _ _ _ Hfr1).
    apply (frame_objs _ _ _ _ Hfr0). }
  assert (HL : delete this (lists m2) = lists m).
  { apply map_eq. intros l. destruct (decide (l = this)) as [-> | Hne].
    - by rewrite lookup_delete_eq.
    - rewrite lookup_delete_ne by done.
      rewrite (frame_lists _ _ _ _ Hfr2 l Hne), (frame_lists _ _ _ _ Hfr1 l Hne).
      apply (frame_lists _ _ _ _ Hfr0 l Hne). }
  rewrite HN, HO, HL. by destruct m.
Qed.

Lemma construct_destroy_round_trip_witness :
  exists m1, list_il 3%positive [5; 6] m_two = Ok tt m1 /\
             list_destroy 2%nat 3%positive m1 = Ok tt m_two.
Proof.
  destruct (construct_destroy_round_trip m_two 3%positive [5; 6])
    as (m1 & [Hrun | [Hrun Hd]]).
  - vm_compute. reflexivity.
  - vm_compute in Hrun. discriminate Hrun.
  - exists m1. split; [exact Hrun | exact Hd].
Defined.

(** ** Iterators *)

Lemma read_at_Ok {T} (m : mem T) e nd :
  nodes m !! e = Some nd -> read_at (Some e) m = Ok (data nd) m.
Proof.
  intros H. unfold read_at, it_deref, node_at, bind, ret.
  rewrite H. unfold read_ref. by rewrite H.
Qed.

Lemma node_at_dangling {T} (m : mem T) e :
  nodes m !! e = None -> node_at (Some e) m = Undefined.
Proof. intros H. unfold node_at. by rewrite H. Qed.

Lemma advance_past_end {T} (m : mem T) prev cs :
  dlseg (nodes m) prev cs None ->
  advance (S (length cs)) (first_ptr cs None) m = Undefined.
Proof.
  revert prev. induction cs as [|[e x] cs IH]; intros prev Hch.
  - reflexivity.
  - destruct Hch as [He Hrest]. cbn [fst snd] in He, Hrest.
    cbn [length first_ptr fst]. change (advance (S (S (length cs))) (Some e))
      with (bind (it_incr (T:=T) (Some e)) (advance (S (length cs)))).
    unfold it_incr. rewrite (bind_Ok _ _ _ _ _ (get_next_Ok _ _ _ He)).
    cbn [pNext]. by apply (IH (Some e)).
Qed.

(** X11: walking a list forwards: [i] steps of [++] from [begin()] reach
    the Node of the [i]-th element, and [*] there reads that element; as
    many steps as the list is long reach [end()]; one step more, or [*]
    at [end()], is a null dereference. *)
Theorem forward_traversal {T} (m : mem T) (this : loc) (cs : chain T) :
  repr m this cs ->
  (forall (i : nat) e x,
      cs !! i = Some (e, x) ->
      iter_at this i m = Ok (Some e) m /\ read_at (Some e) m = Ok x m) /\
  iter_at this (length cs) m = end_ this m /\
  iter_at this (S (length cs)) m = Undefined /\
  read_at None m = Undefined.
Proof.
  intros Hr. pose proof (repr_chain _ _ _ Hr) as Hch.
  split; [|split; [|split; [|reflexivity]]].
  - intros i e x Hi.
    rewrite (iter_at_spec _ _ _ i Hr) by (apply lookup_lt_Some in Hi; lia).
    rewrite (drop_S _ _ _ Hi). cbn [first_ptr fst]. split; [done|].
    apply (read_at_Ok _ _ _ (dlseg_lookup _ _ _ _ _ _ Hch Hi)).
  - rewrite (iter_at_spec _ _ _ _ Hr) by lia. by rewrite drop_all.
  - unfold iter_at, begin.
    rewrite (bind_Ok _ _ _ _ _ (get_pHead_Ok _ _ _ (repr_obj _ _ _ Hr))).
    cbn [pHead]. by eapply advance_past_end.
Qed.

Lemma forward_traversal_witness :
  (iter_at 1%positive 1 m_123 = Ok (Some 2%positive) m_123 /\
   read_at (Some 2%positive) m_123 = Ok 2 m_123) /\
  iter_at 1%positive 3 m_123 = end_ 1%positive m_123 /\
  iter_at 1%positive 4 m_123 = Undefined.
Proof.
  destruct (forward_traversal m_123 1%positive
              [(1%positive, 1); (2%positive, 2); (3%positive, 3)])
    as (Hat & Hend & Hpast & _).
  - concrete_repr.
  - split; [|split; [exact Hend | exact Hpast]].
    apply (Hat 1%nat 2%positive 2). reflexivity.
Defined.

Lemma retreat_spec {T} (m : mem T) cs q (n : nat) :
  dlseg (nodes m) None cs q -> (n <= length cs)%nat ->
  retreat n (last_ptr cs None) m
  = Ok (last_ptr (take (length cs - n) cs) None) m.
Proof.
  revert cs q. induction n as [|n IH]; intros cs q Hch Hn.
  - by rewrite Nat.sub_0_r, firstn_all.
  - destruct cs as [|[e x] cs _] using rev_ind; [simpl in Hn; lia|].
    rewrite length_app in Hn |- *. cbn [length] in Hn |- *.
    apply dlseg_app in Hch as [Hpre He]. apply dlseg_singleton in He.
    cbn [first_ptr fst snd] in Hpre, He.
    rewrite last_ptr_snoc. cbn [retreat fst]. unfold it_decr.
    rewrite (bind_Ok _ _ _ _ _ (get_prev_Ok _ _ _ He)). cbn [pPrev].
    rewrite (IH cs (Some e) Hpre) by lia.
    replace (length cs + 1 - S n)%nat with (length cs - n)%nat by lia.
    by rewrite take_app_le by lia.
Qed.

Lemma retreat_past_front {T} (m : mem T) cs q :
  dlseg (nodes m) None cs q ->
  retreat (S (length cs)) (last_ptr cs None) m = Undefined.
Proof.
  revert q. induction cs as [|[e x] cs IH] using rev_ind; intros q Hch.
  - reflexivity.
  - apply dlseg_app in Hch as [Hpre He]. apply dlseg_singleton in He.
    cbn [first_ptr fst snd] in Hpre, He.
    rewrite last_ptr_snoc, length_app. cbn [length fst].
    replace (S (length cs + 1)) with (S (S (length cs))) by lia.
    change (retreat (S (S (length cs))) (Some e))
      with (bind (it_decr (T:=T) (Some e)) (retreat (S (length cs)))).
    unfold it_decr. rewrite (bind_Ok _ _ _ _ _ (get_prev_Ok _ _ _ He)).
    cbn [pPrev]. by apply (IH (Some e)).
Qed.

(** X12: walking a list backwards: [i] steps of [--] from [rbegin()]
    reach the Node of the [i]-th element from the back, and [*] there
    reads that element; as many steps as the list is long give the null
    iterator, which is [end()]; one step more is a null dereference. *)
Theorem backward_traversal {T} (m : mem T) (this : loc) (cs : chain T) :
  repr m this cs ->
  (forall (i : nat) e x,
      reverse cs !! i = Some (e, x) ->
      riter_at this i m = Ok (Some e) m /\ read_at (Some e) m = Ok x m) /\
  riter_at this (length cs) m = end_ this m /\
  riter_at this (S (length cs)) m = Undefined.
Proof.
  intros Hr. pose proof (repr_chain _ _ _ Hr) as Hch.
  assert (Hrb : forall n, riter_at this n m = retreat n (last_ptr cs None) m).
  { intros n. unfold riter_at, rbegin.
    by rewrite (bind_Ok _ _ _ _ _ (get_pTail_Ok _ _ _ (repr_obj _ _ _ Hr))). }
  split; [|split].
  - intros i e x Hi.
    pose proof (lookup_lt_Some _ _ _ Hi) as Hlt. rewrite length_reverse in Hlt.
    rewrite reverse_lookup in Hi by done.
    rewrite Hrb, (retreat_spec _ _ _ _ Hch) by lia.
    replace (length cs - i)%nat with (S (length cs - S i)) by lia.
    rewrite (take_S_r _ _ _ Hi), last_ptr_snoc. cbn [fst]. split; [done|].
    apply (read_at_Ok _ _ _ (dlseg_lookup _ _ _ _ _ _ Hch Hi)).
  - rewrite Hrb, (retreat_spec _ _ _ _ Hch) by lia.
    by rewrite Nat.sub_diag.
  - rewrite Hrb. by eapply retreat_past_front.
Qed.

Lemma backward_traversal_witness :
  (riter_at 1%positive 0 m_123 = Ok (Some 3%positive) m_123 /\
   read_at (Some 3%positive) m_123 = Ok 3 m_123) /\
  riter_at 1%positive 3 m_123 = end_ 1%positive m_123 /\
  riter_at 1%positive 4 m_123 = Undefined.
Proof.
  destruct (backward_traversal m_123 1%positive
              [(1%positive, 1); (2%positive, 2); (3%positive, 3)])
    as (Hat & Hend & Hpast).
  - concrete_repr.
  - split; [|split; [exact Hend | exact Hpast]].
    apply (Hat 0%nat 3%positive 3). reflexivity.
Defined.

(** X13: on two neighbouring Nodes of a list [++] and [--] undo each
    other, in the prefix and in the postfix form; the postfix forms
    return the iterator as it was before the step. *)
Theorem incr_decr_round_trip {T} (m : mem T) (this : loc) (cs : chain T)
    (i : nat) e x e' x' :
  repr m this cs ->
  cs !! i = Some (e, x) ->
  cs !! S i = Some (e', x') ->
  it_incr (Some e) m = Ok (Some e') m /\
  it_decr (Some e') m = Ok (Some e) m /\
  bind (it_incr (Some e)) it_decr m = Ok (Some e) m /\
  bind (it_decr (Some e')) it_incr m = Ok (Some e') m /\
  it_post_incr (Some e) m = Ok (Some e, Some e') m /\
  it_post_decr (Some e') m = Ok (Some e', Some e) m.
Proof.
  intros Hr Hi Hi'. pose proof (repr_chain _ _ _ Hr) as Hch.
  pose proof (dlseg_lookup _ _ _ _ _ _ Hch Hi) as He.
  pose proof (dlseg_lookup _ _ _ _ _ _ Hch Hi') as He'.
  rewrite (drop_S _ _ _ Hi') in He. rewrite (take_S_r _ _ _ Hi), last_ptr_snoc in He'.
  cbn [first_ptr fst snd] in He, He'.
  assert (Hinc : it_incr (Some e) m = Ok (Some e') m).
  { unfold it_incr. by rewrite (get_next_Ok _ _ _ He). }
  assert (Hdec : it_decr (Some e') m = Ok (Some e) m).
  { unfold it_decr. by rewrite (get_prev_Ok _ _ _ He'). }
  split; [done|]. split; [done|].
  split; [by rewrite (bind_Ok _ _ _ _ _ Hinc)|].
  split; [by rewrite (bind_Ok _ _ _ _ _ Hdec)|].
  split.
  - unfold it_post_incr. by rewrite (bind_Ok _ _ _ _ _ (get_next_Ok _ _ _ He)).
  - unfold it_post_decr. by rewrite (bind_Ok _ _ _ _ _ (get_prev_Ok _ _ _ He')).
Qed.

Lemma incr_decr_round_trip_witness :
  it_incr (Some 1%positive) m_123 = Ok (Some 2%positive) m_123 /\
  it_decr (Some 2%positive) m_123 = Ok (Some 1%positive) m_123.
Proof.
  destruct (incr_decr_round_trip m_123 1%positive
              [(1%positive, 1); (2%positive, 2); (3%positive, 3)]
              0%nat 1%positive 1 2%positive 2) as (Hinc & Hdec & _).
  - concrete_repr.
  - reflexivity.
  - reflexivity.
  - split; [exact Hinc | exact Hdec].
Defined.

(** X14: at the ends of a list: [++] on the iterator of the last Node
    gives [end()], [--] on the iterator of the first Node gives the null
    iterator too, and both [++] and [--] on [end()] are null
    dereferences, so that [end()] cannot be stepped back into the list. *)
Theorem steps_at_the_ends {T} (m : mem T) (this : loc) (cs : chain T) e x e' x' :
  repr m this cs ->
  head cs = Some (e, x) ->
  last cs = Some (e', x') ->
  begin this m = Ok (Some e) m /\
  rbegin this m = Ok (Some e') m /\
  it_incr (Some e') m = end_ this m /\
  it_decr (Some e) m = end_ this m /\
  bind (end_ this) it_incr m = Undefined /\
  bind (end_ this) it_decr m = Undefined.
Proof.
  intros Hr Hhd Hlast. pose proof (repr_chain _ _ _ Hr) as Hch.
  pose proof (repr_obj _ _ _ Hr) as Hobj.
  destruct cs as [|c cs]; [done|]. injection Hhd as ->.
  destruct (exists_last (l := (e, x) :: cs)) as (cs0 & c' & Heq); [done|].
  rewrite Heq, last_snoc in Hlast. injection Hlast as ->.
  split; [unfold begin; by rewrite (get_pHead_Ok _ _ _ Hobj)|].
  split.
  { unfold rbegin. rewrite (get_pTail_Ok _ _ _ Hobj), Heq. cbn [pTail].
    by rewrite last_ptr_snoc. }
  split.
  { rewrite Heq in Hch. apply dlseg_app in Hch as [_ He']. apply dlseg_singleton in He'.
    cbn [fst snd] in He'. unfold it_incr. by rewrite (get_next_Ok _ _ _ He'). }
  split.
  { destruct Hch as [He _]. cbn [fst snd] in He.
    unfold it_decr. by rewrite (get_prev_Ok _ _ _ He). }
  split; reflexivity.
Qed.

Lemma steps_at_the_ends_witness :
  it_incr (Some 3%positive) m_123 = end_ 1%positive m_123 /\
  it_decr (Some 1%positive) m_123 = end_ 1%positive m_123 /\
  bind (end_ 1%positive) it_decr m_123 = Undefined.
Proof.
  destruct (steps_at_the_ends m_123 1%positive
              [(1%positive, 1); (2%positive, 2); (3%positive, 3)]
              1%positive 1 3%positive 3) as (_ & _ & Hinc & Hdec & _ & Hback).
  - concrete_repr.
  - reflexivity.
  - reflexivity.
  - split; [exact Hinc|]. split; [exact Hdec | exact Hback].
Defined.

(** X15: for a list in good standing the three tests of emptiness agree:
    [empty()] is true iff [size()] is 0 iff [begin() == end()] (and iff
    [rbegin() == end()]). *)
Theorem emptiness_tests_agree {T} (m : mem T) (this : loc) (cs : chain T) :
  repr m this cs ->
  exists (b r : iterator) (n : Z),
    begin this m = Ok b m /\ rbegin this m = Ok r m /\ size_ this m = Ok n m /\
    empty this m = Ok (it_eq b None) m /\
    end_ this m = Ok None m /\
    (it_eq b None = true <-> n = 0) /\
    (it_eq r None = true <-> n = 0) /\
    0 <= n < SIZE_MOD.
Proof.
  intros Hr. pose proof (repr_obj _ _ _ Hr) as Hobj.
  exists (first_ptr cs None), (last_ptr cs None), (Z.of_nat (length cs)).
  split; [unfold begin; by rewrite (get_pHead_Ok _ _ _ Hobj)|].
  split; [by unfold rbegin; rewrite (get_pTail_Ok _ _ _ Hobj)|].
  split; [by apply size_Ok|].
  split.
  { rewrite (empty_Ok _ _ _ Hr). f_equal. unfold it_eq.
    apply bool_decide_ext. by rewrite first_ptr_None. }
  split; [done|].
  unfold it_eq. rewrite !bool_decide_eq_true, first_ptr_None, last_ptr_None.
  split; [|split; [|split; [lia | apply (repr_range _ _ _ Hr)]]];
    (split; [intros ->; done | intros Hz; destruct cs; [done | simpl in Hz; lia]]).
Qed.

Lemma emptiness_tests_agree_witness :
  exists (b r : iterator) (n : Z),
    begin 1%positive m_none = Ok b m_none /\
    rbegin 1%positive m_none = Ok r m_none /\
    size_ 1%positive m_none = Ok n m_none /\
    empty 1%positive m_none = Ok (it_eq b None) m_none /\
    end_ 1%positive m_none = Ok None m_none /\
    (it_eq b None = true <-> n = 0) /\
    (it_eq r None = true <-> n = 0) /\
    0 <= n < SIZE_MOD.
Proof.
  apply (emptiness_tests_agree m_none 1%positive []).
  concrete_repr.
Defined.

(** X16: an iterator of an erased Node is dead: right after
    [erase(it)], erasing it again, reading through it and stepping it in
    either direction all dereference a deleted Node. *)
Theorem erased_iterator_is_invalid {T} (m : mem T) (this : loc)
    (cs1 : chain T) e x (cs2 : chain T) :
  repr m this (cs1 ++ (e, x) :: cs2) ->
  exists m',
    erase this (Some e) m = Ok (first_ptr cs2 None) m' /\
    erase this (Some e) m' = Undefined /\
    read_at (Some e) m' = Undefined /\
    it_incr (Some e) m' = Undefined /\
    it_decr (Some e) m' = Undefined.
Proof.
  intros Hr.
  destruct (erase_spec m this cs1 e x cs2 Hr) as (m' & Hrun & _ & _ & Hdom).
  assert (He : nodes m' !! e = None).
  { apply not_elem_of_dom. rewrite Hdom. set_solver. }
  pose proof (node_at_dangling _ _ He) as Hdang.
  exists m'. split; [done|].
  split.
  { unfold erase. rewrite bool_decide_false by done.
    apply bind_Undefined. unfold get_prev. by apply bind_Undefined. }
  split; [unfold read_at, it_deref; by do 2 apply bind_Undefined|].
  split; [unfold it_incr, get_next | unfold it_decr, get_prev];
    by apply bind_Undefined.
Qed.

Lemma erased_iterator_is_invalid_witness :
  exists m',
    erase 1%positive (Some 2%positive) m_123 = Ok (Some 3%positive) m' /\
    erase 1%positive (Some 2%positive) m' = Undefined /\
    read_at (Some 2%positive) m' = Undefined.
Proof.
  destruct (erased_iterator_is_invalid m_123 1%positive
              [(1%positive, 1)] 2%positive 2 [(3%positive, 3)])
    as (m' & Hrun & Hagain & Hread & _).
  - concrete_repr.
  - exists m'. split; [exact Hrun|]. split; [exact Hagain | exact Hread].
Defined.

(** ** Round trips *)

(** X17: inserting an element and erasing it through the iterator
    [insert] returned gives back the store there was, Node for Node, and
    [erase] returns the position the element was inserted at.  (When
    [new] throws, [insert] has changed nothing.) *)
Theorem insert_erase_round_trip {T} (m : mem T) (this : loc)
    (cs1 cs2 : chain T) (it : iterator) d :
  repr m this (cs1 ++ cs2) ->
  it = first_ptr cs2 None \/ cs1 ++ cs2 = [] ->
  (heap_cells m < HEAP_LIMIT /\
   exists a m1,
     insert this it d m = Ok (Some a) m1 /\
     contents m1 this = Some (cs1.*2 ++ d :: cs2.*2) /\
     erase this (Some a) m1 = Ok (first_ptr cs2 None) m) \/
  (HEAP_LIMIT <= heap_cells m /\ insert this it d m = Throw m).
Proof.
  intros Hr Hit.
  destruct (insert_spec m this cs1 cs2 it d Hr Hit)
    as [[Hroom (a & m1 & Hins & Ha & Hr1 & Hfr1 & Hdom1)] | [Hfull Hins]];
    [left; split; [done|] | right; done].
  destruct (erase_spec m1 this cs1 a d cs2 Hr1) as (m2 & Hers & Hr2 & Hfr2 & Hdom2).
  exists a, m1. split; [done|].
  split; [by rewrite (repr_contents _ _ _ Hr1), fmap_app, fmap_cons|].
  rewrite Hers. f_equal.
  assert (Hfr : frame this (cs1 ++ cs2).*1 m m2).
  { eapply frame_trans; [exact Hfr1 | exact Hfr2 |].
    intros b Hb. rewrite fmap_app, fmap_cons in Hb. rewrite fmap_app.
    cbn [fst] in Hb. apply elem_of_app in Hb as [Hb | Hb]; [left; set_solver|].
    apply elem_of_cons in Hb as [-> | Hb]; [by right | left; set_solver]. }
  eapply same_store; [exact Hr | exact Hr2 | apply (frame_lists _ _ _ _ Hfr)
                     | apply (frame_nodes _ _ _ _ Hfr) | apply (frame_objs _ _ _ _ Hfr) |].
  rewrite Hdom2, Hdom1. apply not_elem_of_dom in Ha. set_solver.
Qed.

Lemma insert_erase_round_trip_witness :
  exists a m1,
    insert 1%positive (Some 2%positive) 9 m_123 = Ok (Some a) m1 /\
    contents m1 1%positive = Some [1; 9; 2; 3] /\
    erase 1%positive (Some a) m1 = Ok (Some 2%positive) m_123.
Proof.
  destruct (insert_erase_round_trip m_123 1%positive
              [(1%positive, 1)] [(2%positive, 2); (3%positive, 3)]
              (Some 2%positive) 9)
    as [[_ (a & m1 & Hins & Hc & Hers)] | [Hfull _]].
  - concrete_repr.
  - left. reflexivity.
  - exists a, m1. split; [exact Hins|]. split; [exact Hc | exact Hers].
  - heap_not_full Hfull.
Defined.

(** X18: [push_back] followed by [pop_back], and [push_front] followed by
    [pop_front], give back the store there was, Node for Node.  (When
    [new] throws, the push has changed nothing.) *)
Theorem push_pop_round_trip {T} (m : mem T) (this : loc) (cs : chain T) d :
  repr m this cs ->
  (heap_cells m < HEAP_LIMIT /\
   bind (push_back this d) (fun _ => pop_back this) m = Ok tt m /\
   bind (push_front this d) (fun _ => pop_front this) m = Ok tt m) \/
  (HEAP_LIMIT <= heap_cells m /\
   push_back this d m = Throw m /\ push_front this d m = Throw m).
Proof.
  intros Hr.
  destruct (push_back_spec m this cs d Hr)
    as [[Hroom (a & m1 & Hpush & Ha & Hr1 & Hfr1 & Hdom1)] | [Hfull Hpush]];
    destruct (push_front_spec m this cs d Hr)
      as [[Hroom' (a' & m1' & Hpush' & Ha' & Hr1' & Hfr1' & Hdom1')] | [Hfull' Hpush']];
    try lia; [left; split; [done|] | right; done].
  split.
  - rewrite (bind_Ok _ _ _ _ _ Hpush).
    destruct (pop_back_spec m1 this _ Hr1) as (m2 & Hpop & Hr2 & Hfr2 & _ & Hdom2).
    rewrite removelast_last in Hr2.
    specialize (Hdom2 (a, d) (last_snoc _ _)). cbn [fst] in Hdom2.
    rewrite Hpop. f_equal.
    assert (Hfr : frame this cs.*1 m m2).
    { eapply frame_trans; [exact Hfr1 | exact Hfr2 |].
      intros b Hb. rewrite fmap_app in Hb. cbn [fmap list_fmap fst] in Hb.
      apply elem_of_app in Hb as [Hb | Hb]; [by left|].
      apply list_elem_of_singleton in Hb as ->. by right. }
    eapply same_store; [exact Hr | exact Hr2 | apply (frame_lists _ _ _ _ Hfr)
                       | apply (frame_nodes _ _ _ _ Hfr) | apply (frame_objs _ _ _ _ Hfr) |].
    rewrite Hdom2, Hdom1. apply not_elem_of_dom in Ha. set_solver.
  - rewrite (bind_Ok _ _ _ _ _ Hpush').
    destruct (pop_front_spec m1' this _ Hr1') as (m2 & Hpop & Hr2 & Hfr2 & _ & Hdom2).
    cbn [tail] in Hr2.
    specialize (Hdom2 (a', d) eq_refl). cbn [fst] in Hdom2.
    rewrite Hpop. f_equal.
    assert (Hfr : frame this cs.*1 m m2).
    { eapply frame_trans; [exact Hfr1' | exact Hfr2 |].
      intros b Hb. rewrite fmap_cons in Hb. cbn [fst] in Hb.
      apply elem_of_cons in Hb as [-> | Hb]; [by right | by left]. }
    eapply same_store; [exact Hr | exact Hr2 | apply (frame_lists _ _ _ _ Hfr)
                       | apply (frame_nodes _ _ _ _ Hfr) | apply (frame_objs _ _ _ _ Hfr) |].
    rewrite Hdom2, Hdom1'. apply not_elem_of_dom in Ha'. set_solver.
Qed.

Lemma push_pop_round_trip_witness :
  bind (push_back 1%positive 4) (fun _ => pop_back 1%positive) m_123 = Ok tt m_123 /\
  bind (push_front 1%positive 0) (fun _ => pop_front 1%positive) m_123 = Ok tt m_123.
Proof.
  split.
  - destruct (push_pop_round_trip m_123 1%positive
                [(1%positive, 1); (2%positive, 2); (3%positive, 3)] 4)
      as [[_ [Hb _]] | [Hfull _]];
      [concrete_repr | exact Hb | heap_not_full Hfull].
  - destruct (push_pop_round_trip m_123 1%positive
                [(1%positive, 1); (2%positive, 2); (3%positive, 3)] 0)
      as [[_ [_ Hf]] | [Hfull _]];
      [concrete_repr | exact Hf | heap_not_full Hfull].
Defined.

(** ** Sequences of calls *)

(** X19: a sequence of push, pop, insert and erase calls at positions
    that exist leaves in the list the element sequence obtained by doing
    the same steps on the sequence of its elements (where the [T&&]
    overload of [insert] is the step that does nothing), with [size()]
    its length, unless [new] throws on the way. *)
Theorem calls_refine_sequences {T} (m : mem T) (this : loc) (cs : chain T)
    (ops : list (op T)) (xs' : list T) :
  repr m this cs ->
  seq_ops cs.*2 ops = Some xs' ->
  exists m',
    (run_ops this ops m = Ok tt m' /\
     contents m' this = Some xs' /\
     size_ this m' = Ok (Z.of_nat (length xs')) m') \/
    run_ops this ops m = Throw m'.
Proof.
  intros Hr Hseq.
  destruct (run_ops_spec m this cs ops xs' Hr Hseq)
    as (m' & cs' & [[Hrun Hvals] | Hrun] & Hr' & _); exists m'; [left | by right].
  split; [done|]. split; [by rewrite (repr_contents _ _ _ Hr'), Hvals|].
  by rewrite (size_Ok _ _ _ Hr'), <- Hvals, length_fmap.
Qed.

Lemma calls_refine_sequences_witness :
  exists m',
    run_ops 1%positive [Op_erase 1; Op_insert 1 9; Op_push_back 4; Op_pop_front] m_123
      = Ok tt m' /\
    contents m' 1%positive = Some [9; 3; 4] /\
    size_ 1%positive m' = Ok 3 m'.
Proof.
  destruct (calls_refine_sequences m_123 1%positive
              [(1%positive, 1); (2%positive, 2); (3%positive, 3)]
              [Op_erase 1; Op_insert 1 9; Op_push_back 4; Op_pop_front]
              [9; 3; 4])
    as (m' & [(Hrun & Hc & Hs) | Hrun]).
  - concrete_repr.
  - reflexivity.
  - exists m'. split; [exact Hrun|]. split; [exact Hc | exact Hs].
  - vm_compute in Hrun. discriminate Hrun.
Defined.

(** ** The range constructor on iterators of a list *)

Lemma range_loop_spec {T} (fuel : nat) (m : mem T) this rhs cs cr1 mid cr3 :
  this <> rhs ->
  repr m this cs -> repr m rhs (cr1 ++ mid ++ cr3) ->
  (forall b, b ∈ (cr1 ++ mid ++ cr3).*1 -> b ∉ cs.*1) ->
  (length mid <= fuel)%nat ->
  exists m' new,
    ((range_loop fuel this (first_ptr (mid ++ cr3) None) (first_ptr cr3 None) m
        = Ok tt m' /\
      new.*2 = mid.*2) \/
     (range_loop fuel this (first_ptr (mid ++ cr3) None) (first_ptr cr3 None) m
        = Throw m' /\
      HEAP_LIMIT <= heap_cells m' /\ (length new < length mid)%nat)) /\
    repr m' this (cs ++ new) /\
    repr m' rhs (cr1 ++ mid ++ cr3) /\
    frame this cs.*1 m m' /\
    (forall b, b ∈ new.*1 -> nodes m !! b = None) /\
    heap_cells m' = heap_cells m + Z.of_nat (length new).
Proof.
  revert fuel m cs cr1.
  induction mid as [|[e x] mid IH]; intros fuel m cs cr1 Hne Hthis Hrhs Hdisj Hfuel.
  - exists m, []. rewrite app_nil_r. split; [left; split; [|done]|].
    { cbn [app]. destruct fuel; cbn [range_loop]; unfold it_neq, it_eq;
        by rewrite bool_decide_true. }
    split; [done|]. split; [done|]. split; [apply frame_refl|].
    split; [by intros b Hb; apply elem_of_nil in Hb|]. simpl. lia.
  - destruct fuel as [|fuel]; [simpl in Hfuel; lia|].
    pose proof (repr_chain _ _ _ Hrhs) as Hch.
    apply dlseg_app in Hch as [_ [He _]]. cbn [fst snd] in He.
    assert (Hstop : Some e <> first_ptr cr3 None).
    { destruct cr3 as [|[e3 x3] cr3]; [done|]. cbn [first_ptr fst].
      intros [= <-]. pose proof (repr_nodup _ _ _ Hrhs) as Hnd.
      rewrite !fmap_app, !fmap_cons in Hnd. cbn [fst] in Hnd.
      apply NoDup_app in Hnd as (_ & _ & Hnd).
      change (e :: mid.*1 ++ e :: cr3.*1) with ((e :: mid.*1) ++ e :: cr3.*1) in Hnd.
      apply NoDup_app in Hnd as (_ & Hnd & _).
      apply (Hnd e); set_solver. }
    cbn [app first_ptr fst range_loop]. unfold it_neq, it_eq.
    rewrite bool_decide_false by done. cbn [negb].
    rewrite (bind_Ok _ _ _ _ _ (read_at_Ok _ _ _ He)). cbn [data].
    destruct (push_back_spec m this cs x Hthis)
      as [[Hroom (a & m1 & Hpush & Ha & Hthis1 & Hfr1 & Hdom1)] | [Hfull Hpush]].
    2: { exists m, []. rewrite app_nil_r. split.
         - right. split; [by apply bind_Throw|]. split; [done|]. simpl. lia.
         - split; [done|]. split; [done|]. split; [apply frame_refl|].
           split; [by intros b Hb; apply elem_of_nil in Hb|]. simpl. lia. }
    rewrite (bind_Ok _ _ _ _ _ Hpush).
    assert (Hrhs1 : repr m1 rhs (cr1 ++ (e, x) :: mid ++ cr3)).
    { eapply frame_repr; [exact Hfr1 | done | | exact Hrhs].
      intros b Hb. by apply Hdisj. }
    assert (He1 : nodes m1 !! e = nodes m !! e).
    { apply (frame_nodes _ _ _ _ Hfr1).
      - apply Hdisj. rewrite fmap_app. cbn [app fmap list_fmap fst]. set_solver.
      - rewrite He. eauto. }
    rewrite He in He1. unfold it_incr.
    rewrite (bind_Ok _ _ _ _ _ (get_next_Ok _ _ _ He1)). cbn [pNext].
    destruct (IH fuel m1 (cs ++ [(a, x)]) (cr1 ++ [(e, x)]))
      as (m' & new & Hrun & Hthis' & Hrhs' & Hfr' & Hfresh' & Hcells').
    { done. }
    { done. }
    { by rewrite <- app_assoc. }
    { rewrite <- app_assoc. cbn [app]. intros b Hb.
      rewrite fmap_app. cbn [fmap list_fmap fst]. intros Hin.
      apply elem_of_app in Hin as [Hin | Hin]; [by apply (Hdisj b)|].
      apply list_elem_of_singleton in Hin as ->.
      eapply dlseg_is_Some in Hb; [|apply (repr_chain _ _ _ Hrhs)].
      rewrite Ha in Hb. by destruct Hb. }
    { simpl in Hfuel. lia. }
    rewrite <- !app_assoc in Hthis', Hrhs'. cbn [app] in Hthis', Hrhs'.
    pose proof (heap_cells_alloc _ _ _ Hdom1 Ha (frame_objs _ _ _ _ Hfr1)) as Hc1.
    exists m', ((a, x) :: new). split; [|split; [done|split; [done|split; [|split]]]].
    + destruct Hrun as [[Hrun Hvals] | (Hrun & Hfull & Hshort)].
      * left. split; [done|]. rewrite !fmap_cons. cbn [snd]. by f_equal.
      * right. split; [done|]. split; [done|]. simpl. lia.
    + eapply frame_trans; [exact Hfr1 | exact Hfr' |].
      intros b Hb. rewrite fmap_app in Hb. cbn [fmap list_fmap fst] in Hb.
      apply elem_of_app in Hb as [Hb | Hb]; [by left|].
      apply list_elem_of_singleton in Hb as ->. by right.
    + intros b Hb. rewrite fmap_cons in Hb. cbn [fst] in Hb.
      apply elem_of_cons in Hb as [-> | Hb]; [done|].
      pose proof (Hfresh' b Hb) as Hb1.
      apply not_elem_of_dom in Hb1. apply not_elem_of_dom.
      rewrite Hdom1 in Hb1. set_solver.
    + rewrite Hcells', Hc1. cbn [length]. lia.
Qed.

(** X20: the range constructor run on two iterators [first], [last] of
    another list, [last] not before [first], builds a list holding copies
    of the elements from [first] up to but not including [last], in
    order, and leaves the other list as it was; it throws
    [std::bad_alloc] only when the heap has not room for the copies.
    With [end()] as [first] and a Node as [last] the loop starts with a
    null dereference. *)
Theorem list_range_it_copies {T} (fuel : nat) (m : mem T) (this rhs : loc)
    (cr1 mid cr3 : chain T) :
  this <> rhs ->
  repr m rhs (cr1 ++ mid ++ cr3) ->
  (length mid <= fuel)%nat ->
  (exists m',
     (list_range_it fuel this (first_ptr (mid ++ cr3) None) (first_ptr cr3 None) m
        = Ok tt m' /\
      contents m' this = Some mid.*2 /\
      size_ this m' = Ok (Z.of_nat (length mid)) m' /\
      Invariants m' this /\
      contents m' rhs = contents m rhs /\
      lists m' !! rhs = lists m !! rhs /\
      heap_cells m' = heap_cells m + Z.of_nat (length mid)) \/
     (list_range_it fuel this (first_ptr (mid ++ cr3) None) (first_ptr cr3 None) m
        = Throw m' /\
      HEAP_LIMIT < heap_cells m + Z.of_nat (length mid))) /\
  (forall e, list_range_it (S fuel) this None (Some e) m = Undefined).
Proof.
  intros Hne Hrhs Hfuel. split; [|reflexivity].
  unfold list_range_it.
  set (m0 := mkMem (nodes m) (objs m) (<[this := mkList 0 None None]> (lists m))).
  assert (H0 : put_list this (mkList 0 None None) m = Ok tt m0) by done.
  rewrite (bind_Ok _ _ _ _ _ H0).
  assert (Hthis0 : repr m0 this []).
  { split; unfold m0; mred;
      [by rewrite lookup_insert_eq | apply NoDup_nil_2 | done | done]. }
  assert (Hrhs0 : repr m0 rhs (cr1 ++ mid ++ cr3)).
  { eapply repr_frame; [exact Hrhs | | done].
    unfold m0. mred. by rewrite lookup_insert_ne. }
  destruct (range_loop_spec fuel m0 this rhs [] cr1 mid cr3)
    as (m' & new & Hrun & Hthis' & Hrhs' & Hfr' & _ & Hcells);
    [done | done | done | by intros b _ Hb; apply elem_of_nil in Hb | done |].
  cbn [app] in Hthis'.
  assert (Hc0 : heap_cells m0 = heap_cells m) by done.
  exists m'. destruct Hrun as [[Hrun Hvals] | (Hrun & Hfull & Hshort)].
  - left. split; [done|].
    assert (Hlen : length new = length mid)
      by (by rewrite <- (length_fmap snd new), Hvals, length_fmap).
    split; [by rewrite (repr_contents _ _ _ Hthis'), Hvals|].
    split; [by rewrite (size_Ok _ _ _ Hthis'), Hlen|].
    split; [by eapply repr_Invariants|].
    split; [by rewrite (repr_contents _ _ _ Hrhs'), (repr_contents _ _ _ Hrhs)|].
    split; [by rewrite (repr_obj _ _ _ Hrhs'), (repr_obj _ _ _ Hrhs)|].
    rewrite Hcells, Hc0, Hlen. done.
  - right. split; [done|]. lia.
Qed.

Lemma list_range_it_copies_witness :
  exists m',
    list_range_it 1%nat 3%positive (Some 2%positive) (Some 3%positive) m_two
      = Ok tt m' /\
    contents m' 3%positive = Some [2] /\
    contents m' 2%positive = contents m_two 2%positive.
Proof.
  destruct (list_range_it_copies 1%nat m_two 3%positive 2%positive
              [] [(2%positive, 2)] [(3%positive, 3)])
    as [(m' & [(Hrun & Hc & _ & _ & Hsrc & _) | (Hrun & _)]) _].
  - discriminate.
  - concrete_repr.
  - vm_compute. lia.
  - exists m'. split; [exact Hrun|]. split; [exact Hc | exact Hsrc].
  - vm_compute in Hrun. discriminate Hrun.
Defined.

(** ** Nodes are neither leaked nor lost *)

(** One call changes the number of heap cells by exactly the change in
    the number of elements. *)
Lemma run_op_account {T} (m : mem T) this cs (o : op T) xs' :
  repr m this cs -> seq_op cs.*2 o = Some xs' ->
  exists m' cs',
    (run_op this o m = Ok tt m' /\ cs'.*2 = xs' \/ run_op this o m = Throw m') /\
    repr m' this cs' /\
    heap_cells m' - Z.of_nat (length cs') = heap_cells m - Z.of_nat (length cs).
Proof.
  intros Hr Hseq.
  assert (Hthrow : forall c : M (T:=T) unit, c m = Throw m ->
            exists m' cs',
              (c m = Ok tt m' /\ cs'.*2 = xs' \/ c m = Throw m') /\
              repr m' this cs' /\
              heap_cells m' - Z.of_nat (length cs') = heap_cells m - Z.of_nat (length cs)).
  { intros c Hc. exists m, cs. split; [by right|]. by split. }
  assert (Hpf : forall d, seq_op cs.*2 (Op_push_front d) = Some xs' ->
            exists m' cs',
              (push_front this d m = Ok tt m' /\ cs'.*2 = xs' \/
               push_front this d m = Throw m') /\
              repr m' this cs' /\
              heap_cells m' - Z.of_nat (length cs') = heap_cells m - Z.of_nat (length cs)).
  { intros d [= <-].
    destruct (push_front_spec m this cs d Hr)
      as [[_ (a & m' & Hrun & Ha & Hr' & Hfr & Hdom)] | [_ Hrun]]; [|by apply Hthrow].
    exists m', ((a, d) :: cs). split; [by left|]. split; [done|].
    rewrite (heap_cells_alloc _ _ _ Hdom Ha (frame_objs _ _ _ _ Hfr)).
    cbn [length]. lia. }
  assert (Hpb : forall d, seq_op cs.*2 (Op_push_back d) = Some xs' ->
            exists m' cs',
              (push_back this d m = Ok tt m' /\ cs'.*2 = xs' \/
               push_back this d m = Throw m') /\
              repr m' this cs' /\
              heap_cells m' - Z.of_nat (length cs') = heap_cells m - Z.of_nat (length cs)).
  { intros d [= <-].
    destruct (push_back_spec m this cs d Hr)
      as [[_ (a & m' & Hrun & Ha & Hr' & Hfr & Hdom)] | [_ Hrun]]; [|by apply Hthrow].
    exists m', (cs ++ [(a, d)]). split; [left; split; [done|by rewrite fmap_app]|].
    split; [done|].
    rewrite (heap_cells_alloc _ _ _ Hdom Ha (frame_objs _ _ _ _ Hfr)).
    rewrite length_app. cbn [length]. lia. }
  destruct o as [d|d|d|d| | |pos d|pos d|pos].
  - by apply Hpf.
  - by apply Hpf.
  - by apply Hpb.
  - by apply Hpb.
  - (* pop_front *)
    cbn [seq_op run_op] in *. injection Hseq as <-.
    destruct (pop_front_spec m this cs Hr) as (m' & Hrun & Hr' & Hfr & Hnil & Hdom).
    exists m', (tail cs). split; [left; split; [done|by destruct cs]|].
    split; [done|].
    destruct cs as [|c cs]; [by rewrite (Hnil eq_refl)|].
    rewrite (heap_cells_free m m' [c.1]).
    + cbn [tail length]. lia.
    + rewrite (Hdom c eq_refl). set_solver.
    + apply NoDup_singleton.
    + intros a Ha. apply list_elem_of_singleton in Ha as ->.
      eapply dlseg_is_Some; [apply (repr_chain _ _ _ Hr)|].
      rewrite fmap_cons. set_solver.
    + apply (frame_objs _ _ _ _ Hfr).
  - (* pop_back *)
    cbn [seq_op run_op] in *. injection Hseq as <-.
    destruct (pop_back_spec m this cs Hr) as (m' & Hrun & Hr' & Hfr & Hnil & Hdom).
    exists m', (removelast cs). split; [left; split; [done|]|].
    { destruct cs as [|c cs _] using rev_ind; [done|].
      rewrite removelast_last, fmap_app.
      symmetry. apply (removelast_last cs.*2 c.2). }
    split; [done|].
    destruct cs as [|c cs _] using rev_ind; [by rewrite (Hnil eq_refl)|].
    rewrite (heap_cells_free m m' [c.1]).
    + rewrite removelast_last, length_app. cbn [length]. lia.
    + rewrite (Hdom c (last_snoc _ _)). set_solver.
    + apply NoDup_singleton.
    + intros a Ha. apply list_elem_of_singleton in Ha as ->.
      eapply dlseg_is_Some; [apply (repr_chain _ _ _ Hr)|].
      rewrite fmap_app. set_solver.
    + apply (frame_objs _ _ _ _ Hfr).
  - (* insert, const T& *)
    cbn [seq_op run_op] in *. rewrite length_fmap in Hseq.
    destruct (pos <=? length cs)%nat eqn:Hpos; [|done]. apply Nat.leb_le in Hpos.
    injection Hseq as <-.
    rewrite (bind_Ok _ _ _ _ _ (iter_at_spec _ _ _ _ Hr Hpos)).
    pose proof Hr as Hr0. rewrite <- (take_drop pos cs) in Hr0.
    destruct (insert_spec m this _ _ _ d Hr0 (or_introl eq_refl))
      as [[_ (a & m' & Hrun & Ha & Hr' & Hfr & Hdom)] | [_ Hrun]].
    2: { apply Hthrow. by rewrite (bind_Throw _ _ _ _ Hrun). }
    exists m', (take pos cs ++ (a, d) :: drop pos cs). split; [left; split|].
    { by rewrite (bind_Ok _ _ _ _ _ Hrun). }
    { by rewrite fmap_app, fmap_cons, fmap_take, fmap_drop. }
    split; [done|].
    rewrite (heap_cells_alloc _ _ _ Hdom Ha (frame_objs _ _ _ _ Hfr)).
    rewrite <- (take_drop pos cs) at 3. rewrite !length_app. cbn [length]. lia.
  - (* insert, T&& *)
    cbn [seq_op run_op] in *. rewrite length_fmap in Hseq.
    destruct (pos <=? length cs)%nat eqn:Hpos; [|done]. apply Nat.leb_le in Hpos.
    injection Hseq as <-.
    rewrite (bind_Ok _ _ _ _ _ (iter_at_spec _ _ _ _ Hr Hpos)).
    exists m, cs. split; [by left|]. by split.
  - (* erase *)
    cbn [seq_op run_op] in *. rewrite length_fmap in Hseq.
    destruct (pos <=? length cs)%nat eqn:Hpos; [|done]. apply Nat.leb_le in Hpos.
    injection Hseq as <-.
    rewrite (bind_Ok _ _ _ _ _ (iter_at_spec _ _ _ _ Hr Hpos)).
    destruct (cs !! pos) as [[e x]|] eqn:Hlk.
    + rewrite (drop_S _ _ _ Hlk). cbn [first_ptr fst].
      pose proof Hr as Hr0. rewrite <- (take_drop_middle _ _ _ Hlk) in Hr0.
      destruct (erase_spec m this _ _ _ _ Hr0) as (m' & Hrun & Hr' & Hfr & Hdom).
      exists m', (take pos cs ++ drop (S pos) cs). split; [left; split|].
      { by rewrite (bind_Ok _ _ _ _ _ Hrun). }
      { by rewrite fmap_app, fmap_take, fmap_drop. }
      split; [done|].
      rewrite (heap_cells_free m m' [e]).
      * rewrite <- (take_drop_middle _ _ _ Hlk) at 3.
        rewrite !length_app. cbn [length]. lia.
      * rewrite Hdom. set_solver.
      * apply NoDup_singleton.
      * intros a Ha. apply list_elem_of_singleton in Ha as ->.
        eapply dlseg_is_Some; [apply (repr_chain _ _ _ Hr)|].
        apply list_elem_of_fmap. exists (e, x). split; [done|].
        by eapply list_elem_of_lookup_2.
      * apply (frame_objs _ _ _ _ Hfr).
    + apply lookup_ge_None in Hlk.
      rewrite drop_ge by done. cbn [first_ptr].
      exists m, cs. split; [left; split; [done|]|].
      { rewrite take_ge, drop_ge, app_nil_r; rewrite ?length_fmap; [done|lia..]. }
      by split.
Qed.

Lemma run_ops_account {T} (m : mem T) this cs (ops : list (op T)) xs' :
  repr m this cs -> seq_ops cs.*2 ops = Some xs' ->
  exists m' cs',
    (run_ops this ops m = Ok tt m' /\ cs'.*2 = xs' \/ run_ops this ops m = Throw m') /\
    repr m' this cs' /\
    heap_cells m' - Z.of_nat (length cs') = heap_cells m - Z.of_nat (length cs).
Proof.
  revert m cs. induction ops as [|o ops IH]; intros m cs Hr Hseq.
  - injection Hseq as <-. exists m, cs. split; [by left|]. by split.
  - cbn [seq_ops run_ops] in *.
    destruct (seq_op cs.*2 o) as [xs1|] eqn:Hop; [|done].
    destruct (run_op_account m this cs o xs1 Hr Hop) as (m1 & cs1 & Hrun1 & Hr1 & Hc1).
    destruct Hrun1 as [[Hrun1 <-] | Hrun1].
    2: { exists m1, cs1. split; [right; by apply bind_Throw|]. done. }
    destruct (IH m1 cs1 Hr1 Hseq) as (m' & cs' & Hrun & Hr' & Hc).
    exists m', cs'. rewrite (bind_Ok _ _ _ _ _ Hrun1).
    split; [done|]. split; [done|]. lia.
Qed.

(** X21: no sequence of push, pop, insert and erase calls at positions
    that exist leaks a Node or releases one twice: whether the sequence
    runs to its end or is stopped by [std::bad_alloc], the number of
    heap cells has changed by exactly the change of [size()], and
    [size()] is the length of the element sequence the list then holds. *)
Theorem calls_never_leak {T} (m : mem T) (this : loc) (cs : chain T)
    (ops : list (op T)) (xs' : list T) :
  repr m this cs ->
  seq_ops cs.*2 ops = Some xs' ->
  exists m' n ys,
    (run_ops this ops m = Ok tt m' /\ ys = xs' \/ run_ops this ops m = Throw m') /\
    contents m' this = Some ys /\
    size_ this m' = Ok n m' /\
    n = Z.of_nat (length ys) /\
    heap_cells m' - n = heap_cells m - Z.of_nat (length cs).
Proof.
  intros Hr Hseq.
  destruct (run_ops_account m this cs ops xs' Hr Hseq) as (m' & cs' & Hrun & Hr' & Hc).
  exists m', (Z.of_nat (length cs')), cs'.*2.
  split; [destruct Hrun as [[Hrun Hv] | Hrun]; [by left | by right]|].
  split; [by apply repr_contents|].
  split; [by apply size_Ok|].
  split; [by rewrite length_fmap | done].
Qed.

Lemma calls_never_leak_witness :
  exists m',
    run_ops 1%positive [Op_push_back 4; Op_erase 0; Op_push_front 0; Op_insert 2 9;
                        Op_pop_back] m_123 = Ok tt m' /\
    contents m' 1%positive = Some [0; 2; 9; 3] /\
    heap_cells m' = heap_cells m_123 + 1.
Proof.
  destruct (calls_never_leak m_123 1%positive
              [(1%positive, 1); (2%positive, 2); (3%positive, 3)]
              [Op_push_back 4; Op_erase 0; Op_push_front 0; Op_insert 2 9; Op_pop_back]
              [0; 2; 9; 3])
    as (m' & n & ys & [[Hrun ->] | Hrun] & Hc & _ & -> & Hcells).
  - concrete_repr.
  - reflexivity.
  - exists m'. split; [exact Hrun|]. split; [exact Hc|].
    cbn [length] in Hcells. lia.
  - vm_compute in Hrun. discriminate Hrun.
Defined.

(** ** Copy assignment stopped by an exception *)



